(** * mtnormalise: multi-tissue informed log-domain intensity normalisation

    A shallow embedding of [cmd/mtnormalise.cpp] and the properties of its
    estimation engine.

    Modelling conventions.
    - A 3-D image is the list of its voxel values in the order in which
      [Loop (0, 3)] visits them; a 4-D image is a list of rows, one per voxel,
      each row holding the values along axis 3.  The affine map from a voxel
      to its scanner position is a function of the voxel's place in that
      order.
    - The input images are [float] data.  They are modelled with the IEEE-754
      binary32 instance of the Standard Library's [spec_float], so that NaN,
      infinities and signed zeros behave as they do in the program.
    - The iterative engine works on [float] and [double] values through
      [std::log], [std::exp] and Eigen.  It is modelled over the real numbers:
      rounding, overflow and NaN propagation inside the engine are idealised
      away.  [std::log] is [ln], [std::exp] is [exp].  A statement about the
      sign of a balance factor or of the field is therefore a statement about
      real numbers; where it matters the sign is a hypothesis.
    - The two iterator offsets of the rejection pass are not idealised: the
      conversion [(float) num_voxels], the products with [0.25f] and [0.75f]
      and [std::round] are the binary32 operations of the program.
    - Eigen's [LLT::solve] and [std::nth_element] are library code.  They are
      parameters of the model; what the standard guarantees of
      [std::nth_element] is stated as [nth_element_postcondition].  The
      decomposition object [M.llt ()] is a record of what [info ()] reports
      and of its [solve ()].
    - The model starts where the images are loaded: reading the command
      line, opening the files and the exceptions of that part are outside
      it.
    - [throw Exception (...)] is the outcome [Throw]; dereferencing an iterator
      that is not dereferenceable is the outcome [Undefined]. *)

From Stdlib Require Import String.
From Stdlib Require Import List Bool Arith ZArith QArith Qround Lia.
From Stdlib Require Import Reals Lra Permutation Sorted.
From Stdlib Require Import FunctionalExtensionality.
From Stdlib Require Import Floats.SpecFloat.
Import ListNotations.

(** ** Outcomes of a computation that may throw *)

(** The pieces an exception message is concatenated from:
    string literals, [str (size_t)] and [str (double)]. *)
Inductive piece : Type :=
| Lit (s : string)
| StrNat (n : nat)
| StrDouble (x : R).

Definition Exception : Type := list piece.

Inductive outcome (A : Type) : Type :=
| Ok (a : A)
| Throw (e : Exception)
| Undefined.

Arguments Ok {A} a.
Arguments Throw {A} e.
Arguments Undefined {A}.

Definition bind {A B : Type} (m : outcome A) (k : A -> outcome B) : outcome B :=
  match m with
  | Ok a => k a
  | Throw e => Throw e
  | Undefined => Undefined
  end.

Notation "x <- m ;; k" := (bind m (fun x => k))
  (at level 61, m at next level, right associativity).

(** [*it] for an iterator [it = v.begin() + i] of a [vector<float>]. *)
Definition deref (v : list R) (i : nat) : outcome R :=
  match nth_error v i with
  | Some x => Ok x
  | None => Undefined
  end.

(** ** binary32 values of the input images *)

Module Float32.

Definition prec : Z := 24.
Definition emax : Z := 128.

Definition zero : spec_float := S754_zero false.
Definition add : spec_float -> spec_float -> spec_float := SFadd prec emax.
Definition ltb : spec_float -> spec_float -> bool := SFltb.

(** [std::isfinite] *)
Definition isfinite (x : spec_float) : bool :=
  match x with
  | S754_zero _ | S754_finite _ _ _ => true
  | S754_infinity _ | S754_nan => false
  end.

(** [std::max<float> (a, b)], which is [(a < b) ? b : a]. *)
Definition max (a b : spec_float) : spec_float := if ltb a b then b else a.

(** The real number a finite value stands for.  Infinities and NaN have
    none; they only occur outside the initial mask. *)
Definition to_R (x : spec_float) : R :=
  match x with
  | S754_finite s m e => IZR (cond_Zopp s (Zpos m)) * powerRZ 2 e
  | _ => 0
  end.

(** The value 1.0f and its negation. *)
Definition one : spec_float := S754_finite false 8388608 (-23).
Definition minus_one : spec_float := S754_finite true 8388608 (-23).

(** The product of two [float]s. *)
Definition mul : spec_float -> spec_float -> spec_float := SFmul prec emax.

(** [(float) n] for a [size_t n]: the nearest binary32 number, ties to
    even. *)
Definition of_nat (n : nat) : spec_float :=
  binary_normalize prec emax (Z.of_nat n) 0 false.

(** The literals [0.25f] and [0.75f]. *)
Definition quarter : spec_float := S754_finite false 8388608 (-25).
Definition three_quarters : spec_float := S754_finite false 12582912 (-24).

End Float32.

Local Open Scope R_scope.

(** ** Comparisons on reals as booleans *)

Definition Rltb (a b : R) : bool := if Rlt_dec a b then true else false.
Definition Rleb (a b : R) : bool := if Rle_dec a b then true else false.

(** ** Dense vectors and matrices (Eigen::VectorXd, Eigen::MatrixXd) *)

Definition VectorXd : Type := list R.

Record MatrixXd : Type := mkMatrix
  { cols : nat;               (* X.cols() *)
    rows_of : list (list R)   (* the rows, each of length [cols] *)
  }.

Definition dot (u v : list R) : R :=
  fold_left (fun acc p => acc + fst p * snd p) (combine u v) 0.

(** Column [j] of a matrix. *)
Definition column (X : MatrixXd) (j : nat) : list R :=
  map (fun row => nth j row 0) (rows_of X).

(** [X.transpose() * X] *)
Definition gram (X : MatrixXd) : MatrixXd :=
  mkMatrix (cols X)
    (map (fun i => map (fun j => dot (column X i) (column X j)) (seq 0 (cols X)))
         (seq 0 (cols X))).

(** [X.transpose() * y] *)
Definition transpose_times (X : MatrixXd) (y : VectorXd) : VectorXd :=
  map (fun i => dot (column X i) y) (seq 0 (cols X)).

(** [M * v] *)
Definition mat_vec (M : MatrixXd) (v : VectorXd) : VectorXd :=
  map (fun row => dot row v) (rows_of M).

(** A symmetric matrix is positive definite when [v^T M v > 0] for every
    non-zero [v]. *)
Definition positive_definite (M : MatrixXd) : Prop :=
  forall v : VectorXd,
    length v = cols M -> (exists x, In x v /\ x <> 0) -> 0 < dot v (mat_vec M v).

(** ** Basis functions *)

Definition GetBasisVecs (order : Z) : nat :=
  match order with
  | 0%Z => 1
  | 1%Z => 4
  | 2%Z => 10
  | _ => 20
  end%nat.

Definition Vector3 : Type := (R * R * R)%type.

Definition PolyBasisFunction (n_basis_vecs : nat) (pos : Vector3) : list R :=
  let '(x, y, z) := pos in
  let b0 := [1] in
  if (n_basis_vecs <? 4)%nat then b0 else
  let b1 := b0 ++ [x; y; z] in
  if (n_basis_vecs <? 10)%nat then b1 else
  let b2 := b1 ++ [x * x; y * y; z * z; x * y; x * z; y * z] in
  if (n_basis_vecs <? 20)%nat then b2 else
  b2 ++ [x * x * x; y * y * y; z * z * z; x * x * y; x * x * z;
         y * y * x; y * y * z; z * z * x; z * z * y; x * y * z].

(** ** Masks *)

Definition count_true (m : list bool) : nat := length (filter (fun b => b) m).

(** The values of [img] at the voxels where [m] is set, in loop order. *)
Fixpoint masked {A : Type} (m : list bool) (img : list A) : list A :=
  match m, img with
  | b :: m', x :: img' => if b then x :: masked m' img' else masked m' img'
  | _, _ => []
  end.

(** The comparison loop of the convergence check: [true] when no voxel has
    [mask.value() != prev_mask.value()]. *)
Fixpoint masks_identical (m p : list bool) : bool :=
  match m, p with
  | b :: m', c :: p' => if Bool.eqb b c then masks_identical m' p' else false
  | _, _ => true
  end.

(** [struct mask_refiner] *)
Definition mask_refiner (summed : spec_float) (initial_mask : bool) : bool :=
  Float32.isfinite summed && Float32.ltb Float32.zero summed && initial_mask.

(** [struct ValueAccumulator]: [sum.value() += in.value()] *)
Definition ValueAccumulator (sum in_ : spec_float) : spec_float :=
  Float32.add sum in_.

(** [in.value()] of a 4-D input whose index along axis 3 is 0. *)
Definition value0 (row : list spec_float) : spec_float :=
  nth 0%nat row Float32.zero.

(** ** Quartile positions *)

(** [std::round] on a [float], converted to the iterator's difference type:
    the nearest integer, halfway cases away from zero.  A finite [float] is
    [m * 2^e]; for [e < 0] its rounding is [floor (m / 2^-e + 1/2)].  An
    infinity or a NaN has no rounding: the conversion of a [size_t], which is
    below [2^64], never gives one, and the offset is taken as 0 there. *)
Definition std_round (x : spec_float) : Z :=
  match x with
  | S754_finite s m e =>
      cond_Zopp s (if (0 <=? e)%Z then Zpos m * 2 ^ e
                   else (Zpos m + 2 ^ (- e - 1)) / 2 ^ (- e))%Z
  | _ => 0%Z
  end.

(** [std::round ((float) num_voxels * fraction)] used as an iterator offset:
    the conversion and the product are binary32 operations, each rounded to
    24 bits. *)
Definition quartile_index (num_voxels : nat) (fraction : spec_float) : nat :=
  Z.to_nat (std_round (Float32.mul (Float32.of_nat num_voxels) fraction)).

Definition lower_quartile_index (num_voxels : nat) : nat :=
  quartile_index num_voxels Float32.quarter.

Definition upper_quartile_index (num_voxels : nat) : nat :=
  quartile_index num_voxels Float32.three_quarters.

(** The positions as the specification words them, [round (0.25 * N)] and
    [round (0.75 * N)] over the rationals, to compare the offsets with. *)
Definition nearest_integer (q : Q) : Z :=
  if Qle_bool 0 q then Qfloor (q + (1 # 2)) else Qceiling (q - (1 # 2)).

Definition spec_quartile_index (N : nat) (fraction : Q) : nat :=
  Z.to_nat (nearest_integer (inject_Z (Z.of_nat N) * fraction)).

(** What the binary32 operations do to a mantissa that is too long:
    [m / 2^n] rounded to the nearest integer, ties to even, as
    [shr] and [round_nearest_even] of the Standard Library compute it. *)
Definition round_shift (m n : Z) : Z :=
  round_nearest_even (m / 2 ^ n)%Z
    (loc_of_shr_record
       (Build_shr_record (m / 2 ^ n)%Z (Z.odd (m / 2 ^ (n - 1)))
                         (negb (m mod 2 ^ (n - 1) =? 0)%Z))).

(** ** Order statistics, the reference the quartiles are compared with *)

Fixpoint insert_sorted (x : R) (l : list R) : list R :=
  match l with
  | [] => [x]
  | y :: l' => if Rle_dec x y then x :: l else y :: insert_sorted x l'
  end.

Fixpoint sort (l : list R) : list R :=
  match l with
  | [] => []
  | x :: l' => insert_sorted x (sort l')
  end.

(** The value at position [k] of the sorted list, if there is one. *)
Definition order_statistic (k : nat) (l : list R) : option R :=
  nth_error (sort l) k.

(** What [std::nth_element (v.begin() + first, v.begin() + nth, v.end())]
    guarantees of the vector it leaves behind: the part before [first] is
    untouched, the rest is rearranged, and the element at [nth], when there
    is one, has nothing greater before it and nothing smaller after it. *)
Definition nth_element_postcondition
    (nth_element : nat -> nat -> list R -> list R) : Prop :=
  forall first nth v,
    (first <= nth <= length v)%nat ->
    firstn first (nth_element first nth v) = firstn first v /\
    Permutation (skipn first (nth_element first nth v)) (skipn first v) /\
    forall x, nth_error (nth_element first nth v) nth = Some x ->
      (forall i y, (first <= i < nth)%nat ->
                   nth_error (nth_element first nth v) i = Some y -> y <= x) /\
      (forall i y, (nth < i)%nat ->
                   nth_error (nth_element first nth v) i = Some y -> x <= y).

(** One implementation that meets it: sort the range. *)
Definition nth_element_by_sorting (first nth : nat) (v : list R) : list R :=
  firstn first v ++ sort (skipn first v).

(** ** The state of the run *)

(** What the run does, in order: the messages it prints, the progress bar,
    and its calls of the rejection pass and of the mask comparison. *)
Inductive event : Type :=
| INFO_Iteration (iter : nat)
| DEBUG_balance_starts (balance_iter : nat)
| Balance_estimated
| INFO_Balance_factors (balance_iter : nat) (factors : VectorXd)
| Outlier_rejection (outlier_range : R)
| Masks_compared (mask prev_mask : list bool)
| Field_fitted
| Progress.

(** The data that is fixed once set-up is over. *)
Record problem : Type := mkProblem
  { n_tissue_types : nat;
    initial_mask : list bool;
    combined_tissue : list (list R);   (* per voxel, one value per tissue *)
    voxel2scanner : nat -> Vector3;    (* transform.voxel2scanner * vox *)
    n_basis_vecs : nat;
    log_ref_value : R;
    max_iter : nat
  }.

Record state : Type := mkState
  { mask : list bool;
    prev_mask : list bool;
    num_voxels : nat;
    balance_factors : VectorXd;
    norm_field_weights : VectorXd;
    norm_field_log : list R;
    norm_field_image : list R;
    trace : list event
  }.

(** The number of voxels of the grid; a voxel is named by its position in loop
    order. *)
Definition grid_size (P : problem) : nat := length (combined_tissue P).

Definition set_mask (m : list bool) (n : nat) (st : state) : state :=
  mkState m (prev_mask st) n (balance_factors st) (norm_field_weights st)
          (norm_field_log st) (norm_field_image st) (trace st).

Definition set_prev_mask (p : list bool) (st : state) : state :=
  mkState (mask st) p (num_voxels st) (balance_factors st)
          (norm_field_weights st) (norm_field_log st) (norm_field_image st)
          (trace st).

Definition set_balance_factors (b : VectorXd) (st : state) : state :=
  mkState (mask st) (prev_mask st) (num_voxels st) b (norm_field_weights st)
          (norm_field_log st) (norm_field_image st) (trace st).

Definition set_field (w : VectorXd) (l i : list R) (st : state) : state :=
  mkState (mask st) (prev_mask st) (num_voxels st) (balance_factors st) w l i
          (trace st).

Definition emit (e : event) (st : state) : state :=
  mkState (mask st) (prev_mask st) (num_voxels st) (balance_factors st)
          (norm_field_weights st) (norm_field_log st) (norm_field_image st)
          (trace st ++ [e]).

Definition DEFAULT_MAIN_ITER_VALUE : nat := 15.
Definition DEFAULT_BALANCE_MAXITER_VALUE : nat := 7.
Definition max_balance_iter : nat := DEFAULT_BALANCE_MAXITER_VALUE.

(** The two messages the run can throw. *)
Definition no_valid_voxels : Exception :=
  [Lit "Mask contains no valid voxels."].

Definition non_positive_factor (j : nat) (factor : R) : Exception :=
  [Lit "Non-positive tissue balance factor was computed. Tissue index: ";
   StrNat (j + 1);
   Lit " Balance factor: ";
   StrDouble factor;
   Lit " Needs to be strictly positive!"].

(** ** The estimation engine *)

(** [summed_log.value() < lower_outlier_threshold ||
     summed_log.value() > upper_outlier_threshold] *)
Definition is_outlier (lo hi s : R) : bool := Rltb s lo || Rltb hi s.

(** The rejection loop over the voxels: an active voxel whose value is below
    the lower or above the upper threshold is cleared and counted out. *)
Fixpoint reject (mask : list bool) (summed_log : list R) (lo hi : R)
    (num_voxels : nat) : list bool * nat :=
  match mask, summed_log with
  | b :: mask', s :: summed_log' =>
      if b && is_outlier lo hi s
      then let (m, n) := reject mask' summed_log' lo hi (num_voxels - 1) in
           (false :: m, n)
      else let (m, n) := reject mask' summed_log' lo hi num_voxels in
           (b :: m, n)
  | _, _ => (mask, num_voxels)
  end.

(** The loop that checks the balance factors and sums their logarithms. *)
Fixpoint check_factors (j : nat) (factors : list R) (log_sum : R)
    : outcome R :=
  match factors with
  | [] => Ok log_sum
  | b :: factors' =>
      if Rleb b 0 then Throw (non_positive_factor j b)
      else check_factors (S j) factors' (log_sum + ln b)
  end.

(** The sum over the tissues of [balance_factors[j] * comb / field]. *)
Definition weighted_sum (factors : VectorXd) (comb : list R) (field : R) : R :=
  fold_left (fun s p => s + fst p * snd p / field) (combine factors comb) 0.

(** The sum over the tissues of [balance_factors(j) * comb]. *)
Definition tissue_sum (factors : VectorXd) (comb : list R) : R :=
  fold_left (fun s p => s + fst p * snd p) (combine factors comb) 0.




Section Engine.

(** Eigen's [M.llt().solve (alpha)]. *)
Variable llt_solve : MatrixXd -> VectorXd -> VectorXd.

(** [std::nth_element] on the range from offset [first] to the end. *)
Variable nth_element : nat -> nat -> list R -> list R.

Definition Choleski (X : MatrixXd) (y : VectorXd) : VectorXd :=
  let M := gram X in
  let alpha := transpose_times X y in
  llt_solve M alpha.

Variable P : problem.

Definition summed_log_image (st : state) : list R :=
  map (fun p => ln (weighted_sum (balance_factors st) (fst p) (snd p)))
      (combine (combined_tissue P) (norm_field_image st)).

Definition outlier_rejection (outlier_range : R) (st : state)
    : outcome state :=
  let summed_log := summed_log_image st in
  let mask := initial_mask P in
  let summed_log_values := masked mask summed_log in
  let num_voxels := length summed_log_values in
  let lower_quartile_it := lower_quartile_index num_voxels in
  let v1 := nth_element 0 lower_quartile_it summed_log_values in
  lower_quartile <- deref v1 lower_quartile_it ;;
  let upper_quartile_it := upper_quartile_index num_voxels in
  let v2 := nth_element lower_quartile_it upper_quartile_it v1 in
  upper_quartile <- deref v2 upper_quartile_it ;;
  let lower_outlier_threshold :=
    lower_quartile - outlier_range * (upper_quartile - lower_quartile) in
  let upper_outlier_threshold :=
    upper_quartile + outlier_range * (upper_quartile - lower_quartile) in
  let (mask', num_voxels') :=
    reject mask summed_log lower_outlier_threshold upper_outlier_threshold
           num_voxels in
  Ok (set_mask mask' num_voxels' (emit (Outlier_rejection outlier_range) st)).

(** The design matrix of the balance estimation: one row per active voxel,
    [combined_tissue / norm_field_image] per tissue. *)
Definition balance_design (st : state) : MatrixXd :=
  mkMatrix (n_tissue_types P)
    (masked (mask st)
       (map (fun p => map (fun c => c / snd p) (fst p))
            (combine (combined_tissue P) (norm_field_image st)))).

Definition balance_estimation (st : state) : outcome state :=
  let X := balance_design st in
  let y := repeat 1 (num_voxels st) in
  let factors := Choleski X y in
  log_sum <- check_factors 0 factors 0 ;;
  let factors' :=
    map (fun b => b / exp (log_sum / INR (n_tissue_types P))) factors in
  Ok (set_balance_factors factors' (emit Balance_estimated st)).

(** One pass of the balance loop; the boolean is [balance_converged]. *)
Definition balance_pass (balance_iter : nat) (st : state)
    : outcome (state * bool) :=
  let st := emit (DEBUG_balance_starts balance_iter) st in
  st <- (if (1 <? n_tissue_types P)%nat then balance_estimation st
         else Ok st) ;;
  let st := emit (INFO_Balance_factors balance_iter (balance_factors st)) st in
  st <- outlier_rejection (15 / 10) st ;;
  let balance_converged := masks_identical (mask st) (prev_mask st) in
  let st := emit (Masks_compared (mask st) (prev_mask st)) st in
  Ok (set_prev_mask (mask st) st, balance_converged).

(** [while (!balance_converged && balance_iter <= max_balance_iter)], with
    [remaining = max_balance_iter + 1 - balance_iter]. *)
Fixpoint balance_loop (remaining balance_iter : nat) (st : state)
    : outcome state :=
  match remaining with
  | O => Ok st
  | S remaining' =>
      r <- balance_pass balance_iter st ;;
      if snd r then Ok (fst r)
      else balance_loop remaining' (S balance_iter) (fst r)
  end.

Definition field_design (st : state) : MatrixXd :=
  mkMatrix (n_basis_vecs P)
    (masked (mask st)
       (map (fun v => PolyBasisFunction (n_basis_vecs P) (voxel2scanner P v))
            (seq 0 (grid_size P)))).

Definition field_target (st : state) : VectorXd :=
  masked (mask st)
    (map (fun comb => ln (tissue_sum (balance_factors st) comb)
                      - log_ref_value P)
         (combined_tissue P)).

(** The field fit: weights by least squares, then the field in the log and
    in the image domain over the whole grid. *)
Definition field_fit (st : state) : state :=
  let weights := Choleski (field_design st) (field_target st) in
  let field_log :=
    map (fun v => dot (PolyBasisFunction (n_basis_vecs P) (voxel2scanner P v))
                      weights)
        (seq 0 (grid_size P)) in
  let field_image := map exp field_log in
  set_field weights field_log field_image (emit Field_fitted st).

(** [while (iter <= max_iter)], with [remaining = max_iter + 1 - iter]. *)
Fixpoint main_loop (remaining iter : nat) (st : state) : outcome state :=
  match remaining with
  | O => Ok st
  | S remaining' =>
      let st := emit (INFO_Iteration iter) st in
      st <- balance_loop max_balance_iter 1 st ;;
      let st := field_fit st in
      let st := emit Progress st in
      main_loop remaining' (S iter) st
  end.

(** From the first rejection pass to the end of the iterations. *)
Definition iterate (st : state) : outcome state :=
  st <- outlier_rejection 3 st ;;
  let st := set_prev_mask (mask st) st in
  main_loop (max_iter P) 1 st.

End Engine.

(** ** The output stage *)

(** [struct LogNormScale]: what one call of the functor leaves in
    [lognorm_scale]. *)
Definition LogNormScale (num_voxels : nat) (lognorm_scale : R)
    (mask_in : bool) (norm_field_lg : R) : R :=
  let lognorm_scale :=
    if mask_in then lognorm_scale + norm_field_lg else lognorm_scale in
  exp (lognorm_scale / INR num_voxels).

(** The functor is run once per voxel on the same [lognorm_scale]. *)
Definition compute_lognorm_scale (num_voxels : nat) (mask : list bool)
    (norm_field_log : list R) : R :=
  if (num_voxels =? 0)%nat then 0
  else fold_left (fun s p => LogNormScale num_voxels s (fst p) (snd p))
                 (combine mask norm_field_log) 0.

(** [struct ReadInOutput]: the output row of one voxel. *)
Definition ReadInOutput (balance_multiplier : R) (in_im : list spec_float)
    (norm_field_im : R) : list R :=
  if Float32.ltb (value0 in_im) Float32.zero
  then repeat 0 (length in_im)
  else map (fun x => Float32.to_R x * balance_multiplier / norm_field_im) in_im.

(** ** The whole run *)

Definition DEFAULT_NORM_VALUE : R := 28209479177 / 100000000000.
Definition DEFAULT_POLY_ORDER : Z := 3.

Definition get_option_value {A : Type} (opt : option A) (default : A) : A :=
  match opt with
  | Some a => a
  | None => default
  end.

Record input : Type := mkInput
  { input_images : list (list (list spec_float));  (* tissue, voxel, volume *)
    orig_mask : list bool;
    scanner_positions : nat -> Vector3;
    order : option Z;            (* -order *)
    niter : option nat;          (* -niter *)
    reference : option R;        (* what get_option_value ("reference", _) finds *)
    output_balanced : bool
  }.

Record output : Type := mkOutput
  { output_images : list (list (list R));
    lognorm_scale : R;
    final : state
  }.

Definition accumulate (summed : list spec_float)
    (image : list (list spec_float)) : list spec_float :=
  map (fun p => ValueAccumulator (fst p) (value0 (snd p))) (combine summed image).

(** The image "Summed tissue volumes". *)
Definition summed_tissue (inp : input) : list spec_float :=
  fold_left accumulate (input_images inp)
            (repeat Float32.zero (length (nth 0%nat (input_images inp) []))).

(** The image "Initial processing mask". *)
Definition refined_mask (inp : input) : list bool :=
  map (fun p => mask_refiner (fst p) (snd p))
      (combine (summed_tissue inp) (orig_mask inp)).

(** The image "Tissue components": [std::max<float> (in.value (), 0.f)]. *)
Definition tissue_components (inp : input) : list (list R) :=
  map (fun v =>
         map (fun image =>
                Float32.to_R (Float32.max (value0 (nth v image [])) Float32.zero))
             (input_images inp))
      (seq 0 (length (nth 0%nat (input_images inp) []))).

Definition problem_of (inp : input) : problem :=
  mkProblem (length (input_images inp)) (refined_mask inp)
            (tissue_components inp) (scanner_positions inp)
            (GetBasisVecs (get_option_value (order inp) DEFAULT_POLY_ORDER))
            (ln (get_option_value (reference inp) DEFAULT_NORM_VALUE))
            (get_option_value (niter inp) DEFAULT_MAIN_ITER_VALUE).

Definition initial_state (inp : input) : state :=
  let n_vox := length (nth 0%nat (input_images inp) []) in
  mkState (refined_mask inp) (repeat false n_vox)
          (count_true (refined_mask inp))
          (repeat 1 (length (input_images inp))) []
          (repeat 0 n_vox) (repeat 1 n_vox) [].

Definition write_outputs (inp : input) (st : state) : output :=
  mkOutput
    (map (fun j =>
            let balance_multiplier :=
              if output_balanced inp then nth j (balance_factors st) 0 else 1 in
            map (fun p => ReadInOutput balance_multiplier (fst p) (snd p))
                (combine (nth j (input_images inp) []) (norm_field_image st)))
         (seq 0 (length (input_images inp))))
    (compute_lognorm_scale (num_voxels st) (mask st) (norm_field_log st))
    st.

Section Run.

Variable llt_solve : MatrixXd -> VectorXd -> VectorXd.
Variable nth_element : nat -> nat -> list R -> list R.

Definition run (inp : input) : outcome output :=
  if (count_true (refined_mask inp) =? 0)%nat then Throw no_valid_voxels
  else
    st <- iterate llt_solve nth_element (problem_of inp) (initial_state inp) ;;
    Ok (write_outputs inp st).

End Run.

(** ** The grid *)

(** A state lives on the grid of the problem when its field image has one
    value per voxel and the initial mask does not reach beyond the grid. *)
Definition on_grid (P : problem) (st : state) : Prop :=
  (length (initial_mask P) <= grid_size P)%nat /\
  length (norm_field_image st) = grid_size P.

(** ** The trace of a run, pass by pass *)

(** What one pass of the balance loop shows in the trace. *)
Record pass_record : Type := mkPass
  { pass_factors : VectorXd;
    pass_mask : list bool;        (* the mask the rejection left *)
    pass_prev_mask : list bool    (* [prev_mask] at the comparison *)
  }.

Definition pass_converged (p : pass_record) : bool :=
  masks_identical (pass_mask p) (pass_prev_mask p).

Definition pass_events (T balance_iter : nat) (p : pass_record) : list event :=
  [DEBUG_balance_starts balance_iter]
  ++ (if (1 <? T)%nat then [Balance_estimated] else [])
  ++ [INFO_Balance_factors balance_iter (pass_factors p);
      Outlier_rejection (15 / 10);
      Masks_compared (pass_mask p) (pass_prev_mask p)].

Fixpoint passes_events (T balance_iter : nat) (ps : list pass_record)
    : list event :=
  match ps with
  | [] => []
  | p :: ps' => pass_events T balance_iter p ++ passes_events T (S balance_iter) ps'
  end.

Definition iteration_events (T iter : nat) (ps : list pass_record)
    : list event :=
  [INFO_Iteration iter] ++ passes_events T 1 ps ++ [Field_fitted; Progress].

Fixpoint iterations_events (T iter : nat) (its : list (list pass_record))
    : list event :=
  match its with
  | [] => []
  | ps :: its' => iteration_events T iter ps ++ iterations_events T (S iter) its'
  end.





(** ** Quantities the statements speak of *)

(** The sum of the logarithms of a factor vector. *)
Definition log_sum (factors : VectorXd) : R :=
  fold_left (fun s b => s + ln b) factors 0.

(** The geometric mean of the field over the mask, as the comment on the
    computation describes it: [exp] of the mean of [norm_field_log]. *)
Definition geometric_mean_scale (num_voxels : nat) (mask : list bool)
    (norm_field_log : list R) : R :=
  exp (fold_left Rplus (masked mask norm_field_log) 0 / INR num_voxels).

(** The message of a balance factor that is not strictly positive. *)
Definition factor_message (e : Exception) : Prop :=
  exists i b, b <= 0 /\ e = non_positive_factor i b.

(** ** Example inputs and stand-ins for the library code *)

(** One tissue, a grid of 1 x 3 x 1 voxels of value 1.0f, an all-true mask,
    the identity as voxel-to-scanner map, order 1 and one iteration. *)
Definition example_input : input :=
  mkInput [[[Float32.one]; [Float32.one]; [Float32.one]]]
          [true; true; true]
          (fun v => (0, INR v, 0))
          (Some 1%Z) (Some 1%nat) None false.

(** The same grid with a mask that keeps a single voxel. *)
Definition one_voxel_input : input :=
  mkInput [[[Float32.one]; [Float32.one]; [Float32.one]]]
          [false; true; false]
          (fun v => (0, INR v, 0))
          (Some 1%Z) (Some 1%nat) None false.

(** A grid with a NaN voxel and a negative voxel, both inside the supplied
    mask. *)
Definition no_valid_input : input :=
  mkInput [[[S754_nan]; [Float32.minus_one]]]
          [true; true]
          (fun v => (0, INR v, 0))
          (Some 1%Z) (Some 1%nat) None false.

(** Two tissues on two voxels, both inside the supplied mask: at the first
    voxel the values 1 and -1 sum to zero, at the second 1 and NaN sum to
    NaN. *)
Definition cancelling_input : input :=
  mkInput [[[Float32.one]; [Float32.one]];
           [[Float32.minus_one]; [S754_nan]]]
          [true; true]
          (fun v => (0, INR v, 0))
          (Some 1%Z) (Some 1%nat) None false.

(** The same grid as [example_input], run with [-niter 0]. *)
Definition zero_iteration_input : input :=
  mkInput [[[Float32.one]; [Float32.one]; [Float32.one]]]
          [true; true; true]
          (fun v => (0, INR v, 0))
          (Some 1%Z) (Some 0%nat) None false.

(** Two tissues of value 1 on three voxels, before the first balance pass. *)
Definition two_tissue_problem : problem :=
  mkProblem 2 [true; true; true] [[1; 1]; [1; 1]; [1; 1]]
            (fun v => (0, INR v, 0)) 1 0 1.

Definition two_tissue_state : state :=
  mkState [true; true; true] [true; true; true] 3 [1; 1] []
          [0; 0; 0] [1; 1; 1] [].

(** A stand-in for the solver in the examples: it returns its right-hand
    side. *)
Definition echo_solve (M : MatrixXd) (alpha : VectorXd) : VectorXd := alpha.

(** A solver that returns the opposite of its right-hand side. *)
Definition opposite_solve (M : MatrixXd) (alpha : VectorXd) : VectorXd :=
  map Ropp alpha.

(** ** The functor SummedLog *)

(** [struct SummedLog]: what one call leaves in [summed_log], which the
    functor adds to before it takes the logarithm. *)
Definition SummedLog (n_tissue_types : nat) (balance_factors : VectorXd)
    (summed_log : R) (combined_tissue : list R) (norm_field_image : R) : R :=
  ln (fold_left
        (fun s j => s + nth j balance_factors 0 * nth j combined_tissue 0
                        / norm_field_image)
        (seq 0 n_tissue_types) summed_log).

(** ** Invariants of the state *)

(** What a rejection pass that returns establishes, on the grid. *)
Definition mask_invariant (P : problem) (st : state) : Prop :=
  on_grid P st /\
  length (mask st) = length (initial_mask P) /\
  (forall v, nth_error (mask st) v = Some true ->
             nth_error (initial_mask P) v = Some true) /\
  num_voxels st = count_true (mask st) /\
  (upper_quartile_index (count_true (initial_mask P))
   - lower_quartile_index (count_true (initial_mask P)) + 1
   <= num_voxels st)%nat.

(** The events the loops emit themselves, in the state they emit them in;
    the other events are emitted inside the steps. *)
Definition loop_event (st : state) (e : event) : Prop :=
  match e with
  | INFO_Balance_factors _ f => f = balance_factors st
  | Balance_estimated | Outlier_rejection _ | Field_fitted => False
  | _ => True
  end.

(** A grid of [k + n] voxels, all in the mask, whose single tissue has the
    value 1 at the first [k] voxels and 2 at the other [n], before the first
    rejection pass: unit field, unit balance factor. *)
Definition step_problem (k n : nat) : problem :=
  mkProblem 1 (repeat true (k + n)) (repeat [1] k ++ repeat [2] n)
            (fun v => (0, INR v, 0)) 1 0 0.

Definition step_state (k n : nat) : state :=
  mkState (repeat true (k + n)) (repeat false (k + n)) (k + n) [1] []
          (repeat 0 (k + n)) (repeat 1 (k + n)) [].


(** A solver that returns the zero vector. *)
Definition zero_solve (M : MatrixXd) (alpha : VectorXd) : VectorXd :=
  map (fun _ => 0) alpha.

(** * Properties *)

(** ** Quartile positions: the binary32 computation *)

(** The Standard Library specifies the binary32 operations by shifts of the
    mantissa.  The lemmas below read off what they compute on the numbers
    the offsets are made of. *)

Section Binary32.

Local Open Scope Z_scope.

Lemma iter_pos_nat {A : Type} (f : A -> A) (p : positive) :
  forall x, iter_pos f p x = Nat.iter (Pos.to_nat p) f x.
Proof.
  induction p as [p IH|p IH|]; intros x; cbn [iter_pos].
  - rewrite !IH, Pos2Nat.inj_xI, <- Nat.iter_add, <- Nat.iter_succ_r.
    f_equal. lia.
  - rewrite !IH, Pos2Nat.inj_xO, <- Nat.iter_add. f_equal. lia.
  - reflexivity.
Qed.

Lemma shr_1_spec (m : Z) (r s : bool) :
  0 <= m ->
  shr_1 (Build_shr_record m r s) = Build_shr_record (m / 2) (Z.odd m) (r || s).
Proof.
  intros Hm. rewrite <- Z.div2_div.
  destruct m as [|[p|p|]|]; try reflexivity. lia.
Qed.

Lemma shr_iter_spec (m : Z) (k : nat) :
  0 <= m ->
  Nat.iter (S k) shr_1 (Build_shr_record m false false)
  = Build_shr_record (m / 2 ^ Z.of_nat (S k))
                     (Z.odd (m / 2 ^ Z.of_nat k))
                     (negb (m mod 2 ^ Z.of_nat k =? 0)).
Proof.
  intros Hm. induction k as [|k IH].
  - cbn [Nat.iter]. rewrite shr_1_spec by exact Hm.
    change (2 ^ Z.of_nat 1) with 2. change (2 ^ Z.of_nat 0) with 1.
    now rewrite Z.div_1_r, Z.mod_1_r.
  - rewrite Nat.iter_succ, IH.
    assert (Hp : 0 < 2 ^ Z.of_nat k) by (apply Z.pow_pos_nonneg; lia).
    rewrite shr_1_spec by (apply Z.div_pos; [exact Hm | apply Z.pow_pos_nonneg; lia]).
    rewrite Z.div_div by lia.
    replace (2 ^ Z.of_nat (S k) * 2) with (2 ^ Z.of_nat (S (S k)))
      by (rewrite (Nat2Z.inj_succ (S k)), Z.pow_succ_r by lia; lia).
    f_equal.
    replace (2 ^ Z.of_nat (S k)) with (2 ^ Z.of_nat k * 2)
      by (rewrite (Nat2Z.inj_succ k), Z.pow_succ_r by lia; lia).
    rewrite Z.rem_mul_r by lia.
    rewrite Zmod_odd.
    pose proof (Z.mod_pos_bound m (2 ^ Z.of_nat k) Hp) as Hb.
    destruct (Z.odd (m / 2 ^ Z.of_nat k));
      destruct (Z.eqb_spec (m mod 2 ^ Z.of_nat k) 0) as [E|E]; cbn [negb orb];
      symmetry.
    + apply negb_true_iff, Z.eqb_neq. lia.
    + apply negb_true_iff, Z.eqb_neq. lia.
    + apply negb_false_iff, Z.eqb_eq. lia.
    + apply negb_true_iff, Z.eqb_neq. lia.
Qed.

Lemma shr_pos_spec (m : Z) (p : positive) :
  0 <= m ->
  iter_pos shr_1 p (Build_shr_record m false false)
  = Build_shr_record (m / 2 ^ Zpos p)
                     (Z.odd (m / 2 ^ (Zpos p - 1)))
                     (negb (m mod 2 ^ (Zpos p - 1) =? 0)).
Proof.
  intros Hm. rewrite iter_pos_nat.
  destruct (Pos2Nat.is_succ p) as [k Hk]. rewrite Hk.
  rewrite shr_iter_spec by exact Hm.
  rewrite <- Hk, positive_nat_Z.
  replace (Z.of_nat k) with (Zpos p - 1) by lia. reflexivity.
Qed.

Lemma round_shift_spec (m n : Z) :
  0 <= m -> 0 < n ->
  - 2 ^ (n - 1) <= round_shift m n * 2 ^ n - m <= 2 ^ (n - 1) /\
  m / 2 ^ n <= round_shift m n <= m / 2 ^ n + 1 /\
  (m mod 2 ^ n = 0 -> round_shift m n = m / 2 ^ n).
Proof.
  intros Hm Hn. unfold round_shift.
  set (h := 2 ^ (n - 1)).
  assert (Hh : 0 < h) by (apply Z.pow_pos_nonneg; lia).
  assert (E2 : 2 ^ n = h * 2).
  { unfold h. replace n with (Z.succ (n - 1)) at 1 by lia.
    rewrite Z.pow_succ_r by lia. lia. }
  rewrite E2.
  assert (Hq : m / (h * 2) = m / h / 2) by (rewrite Z.div_div by lia; reflexivity).
  pose proof (Z.div_mod m h ltac:(lia)) as Dm.
  pose proof (Z.mod_pos_bound m h Hh) as Bm.
  pose proof (Z.div_mod (m / h) 2 ltac:(lia)) as Dq.
  rewrite Zmod_odd in Dq. rewrite <- Hq in Dq.
  assert (Hmod : m mod (h * 2) = m mod h + h * (if Z.odd (m / h) then 1 else 0)).
  { rewrite Z.rem_mul_r by lia. now rewrite Zmod_odd. }
  rewrite Hmod.
  set (q := m / (h * 2)) in *. set (t := m mod h) in *.
  destruct (Z.odd (m / h)); destruct (Z.eqb_spec t 0) as [Et|Et];
    cbn [negb loc_of_shr_record round_nearest_even].
  - destruct (Z.even q); nia.
  - nia.
  - nia.
  - nia.
Qed.

Lemma digits2_size (p : positive) : digits2_pos p = Pos.size p.
Proof. induction p; simpl; congruence. Qed.

Lemma digits2_bounds (p : positive) :
  2 ^ (Zpos (digits2_pos p) - 1) <= Zpos p < 2 ^ Zpos (digits2_pos p).
Proof.
  rewrite digits2_size.
  pose proof (Pos.size_gt p) as Hg. pose proof (Pos.size_le p) as Hl.
  apply Pos2Z.pos_lt_pos in Hg. apply Pos2Z.pos_le_pos in Hl.
  rewrite Pos2Z.inj_pow in Hg, Hl. rewrite (Pos2Z.inj_xO p) in Hl.
  split; [|exact Hg].
  set (k := Zpos (Pos.size p) - 1).
  replace (Zpos (Pos.size p)) with (Z.succ k) in Hl by (unfold k; lia).
  rewrite Z.pow_succ_r in Hl by (unfold k; lia). lia.
Qed.

Lemma digits2_unique (p : positive) (d : Z) :
  2 ^ (d - 1) <= Zpos p < 2 ^ d -> Zpos (digits2_pos p) = d.
Proof.
  intros [Hl Hu]. pose proof (digits2_bounds p) as [Bl Bu].
  set (d' := Zpos (digits2_pos p)) in *.
  assert (Hd' : 0 < d') by (unfold d'; lia).
  destruct (Z.lt_trichotomy d' d) as [H|[H|H]]; [|exact H|].
  - assert (2 ^ d' <= 2 ^ (d - 1)) by (apply Z.pow_le_mono_r; lia). lia.
  - destruct (Z.le_gt_cases d 0) as [Hd|Hd].
    + assert (H0 : 2 ^ d <= 2 ^ 0) by (apply Z.pow_le_mono_r; lia).
      change (2 ^ 0) with 1 in H0. lia.
    + assert (2 ^ d <= 2 ^ (d' - 1)) by (apply Z.pow_le_mono_r; lia). lia.
Qed.

Lemma fexp_normal (k : Z) : -149 <= k - 24 -> fexp 24 128 k = k - 24.
Proof. unfold fexp, emin. lia. Qed.

(** A mantissa of at most 24 bits is kept as it is. *)
Lemma binary_round_aux_exact (sx : bool) (mx : positive) (ex : Z) :
  Zpos (digits2_pos mx) <= 24 -> -149 <= ex ->
  binary_round_aux 24 128 sx (Zpos mx) ex loc_Exact
  = if ex <=? 104 then S754_finite sx mx ex else S754_infinity sx.
Proof.
  intros Hd He. unfold binary_round_aux, shr_fexp.
  cbn [Zdigits2 shr_record_of_loc].
  assert (Hn : fexp 24 128 (Zpos (digits2_pos mx) + ex) - ex <= 0).
  { unfold fexp, emin. lia. }
  destruct (fexp 24 128 (Zpos (digits2_pos mx) + ex) - ex) as [|n|n] eqn:E;
    try lia;
    cbn [shr shr_m loc_of_shr_record round_nearest_even Zdigits2];
    rewrite E; cbn [shr shr_m]; reflexivity.
Qed.

(** A longer mantissa is shifted down to 24 bits and rounded to nearest,
    ties to even; when the rounding carries into a 25th bit the mantissa is
    shifted once more. *)
Lemma binary_round_aux_shift (sx : bool) (mx : positive) (ex : Z) :
  24 < Zpos (digits2_pos mx) -> -149 <= Zpos (digits2_pos mx) + ex - 24 ->
  let n := Zpos (digits2_pos mx) - 24 in
  let q := round_shift (Zpos mx) n in
  2 ^ 23 <= q <= 2 ^ 24 /\
  binary_round_aux 24 128 sx (Zpos mx) ex loc_Exact
  = if q =? 2 ^ 24
    then (if ex + n + 1 <=? 104 then S754_finite sx 8388608 (ex + n + 1)
          else S754_infinity sx)
    else (if ex + n <=? 104 then S754_finite sx (Z.to_pos q) (ex + n)
          else S754_infinity sx).
Proof.
  intros Hd He n q.
  pose proof (digits2_bounds mx) as [Bl Bu].
  assert (Hn : 0 < n) by (unfold n; lia).
  destruct (round_shift_spec (Zpos mx) n ltac:(lia) Hn) as (_ & [Hq1 Hq2] & _).
  fold q in Hq1, Hq2.
  assert (Hp : 0 < 2 ^ n) by (apply Z.pow_pos_nonneg; lia).
  assert (Hlo : 2 ^ 23 <= Zpos mx / 2 ^ n).
  { apply Z.div_le_lower_bound; [exact Hp|].
    rewrite <- Z.pow_add_r by lia.
    replace (n + 23) with (Zpos (digits2_pos mx) - 1) by (unfold n; lia).
    exact Bl. }
  assert (Hhi : Zpos mx / 2 ^ n < 2 ^ 24).
  { apply Z.div_lt_upper_bound; [exact Hp|].
    rewrite <- Z.pow_add_r by lia.
    replace (n + 24) with (Zpos (digits2_pos mx)) by (unfold n; lia).
    exact Bu. }
  split; [lia|].
  unfold binary_round_aux, shr_fexp.
  cbn [Zdigits2 shr_record_of_loc].
  rewrite fexp_normal by exact He.
  replace (Zpos (digits2_pos mx) + ex - 24 - ex) with n by (unfold n; lia).
  destruct n as [|p|p] eqn:En; try lia.
  cbn [shr]. rewrite shr_pos_spec by lia. cbn [shr_m].
  change (round_nearest_even _ _) with q.
  destruct (Z.eqb_spec q (2 ^ 24)) as [Eq|Eq].
  - rewrite Eq. change (Zdigits2 (2 ^ 24)) with 25.
    rewrite fexp_normal by lia.
    replace (25 + (ex + Zpos p) - 24 - (ex + Zpos p)) with 1 by lia.
    cbn [shr]. change (iter_pos shr_1 1 _) with (Build_shr_record 8388608 false false).
    cbn [shr_m]. change (128 - 24) with 104. reflexivity.
  - assert (Hq : 2 ^ 23 <= q < 2 ^ 24) by lia.
    destruct q as [|pq|pq] eqn:Eqq; try (change (2 ^ 23) with 8388608 in Hq; lia).
    cbn [Zdigits2]. rewrite (digits2_unique pq 24) by exact Hq.
    rewrite fexp_normal by lia.
    replace (24 + (ex + Zpos p) - 24 - (ex + Zpos p)) with 0 by lia.
    cbn [shr shr_m Z.to_pos]. change (128 - 24) with 104. reflexivity.
Qed.

(** [Pos.iter xO] multiplies by a power of two. *)
Lemma iter_xO_spec (p k : positive) :
  Zpos (Pos.iter xO p k) = Zpos p * 2 ^ Zpos k.
Proof.
  change (Pos.iter xO p k) with (shift_pos k p).
  rewrite shift_pos_correct. change (Z.pow_pos 2 k) with (2 ^ Zpos k). lia.
Qed.

(** *** The value of a binary32 number *)

Lemma IZR_pow2 (k : Z) : 0 <= k -> IZR (2 ^ k) = powerRZ 2 k.
Proof.
  intros Hk. destruct k as [|p|p]; [reflexivity | | lia].
  change (2 ^ Zpos p) with (Z.pow_pos 2 p). apply Zpower_pos_powerRZ.
Qed.

Lemma F2R_shift (q n e : Z) :
  0 <= n ->
  (IZR q * powerRZ 2 (e + n) = IZR (q * 2 ^ n) * powerRZ 2 e)%R.
Proof.
  intros Hn. rewrite mult_IZR, IZR_pow2 by exact Hn.
  rewrite powerRZ_add by lra. lra.
Qed.

Lemma powerRZ_2_pos (e : Z) : (0 < powerRZ 2 e)%R.
Proof. apply powerRZ_lt. lra. Qed.

(** [std::round] of a positive binary32 number [v] is the integer [k] with
    [k <= v + 1/2 < k + 1]. *)
Lemma std_round_spec (m : positive) (e : Z) :
  let v := (IZR (Zpos m) * powerRZ 2 e)%R in
  let k := std_round (S754_finite false m e) in
  0 <= k /\ (IZR k <= v + / 2 < IZR k + 1)%R.
Proof.
  intros v k. unfold std_round in k. cbn [cond_Zopp] in k.
  destruct (Z.leb_spec 0 e) as [He|He].
  - assert (Hv : v = IZR k).
    { unfold v, k. rewrite mult_IZR, IZR_pow2 by exact He. reflexivity. }
    split; [|rewrite Hv; lra].
    unfold k. assert (0 < 2 ^ e) by (apply Z.pow_pos_nonneg; lia). nia.
  - set (j := - e) in *.
    assert (Hj : 0 < j) by (unfold j; lia).
    assert (Hp : 0 < 2 ^ j) by (apply Z.pow_pos_nonneg; lia).
    assert (Hh : 0 < 2 ^ (j - 1)) by (apply Z.pow_pos_nonneg; lia).
    assert (E2 : 2 ^ j = 2 * 2 ^ (j - 1)).
    { replace j with (Z.succ (j - 1)) at 1 by lia.
      now rewrite Z.pow_succ_r by lia. }
    replace (- e - 1) with (j - 1) in k by (unfold j; lia).
    pose proof (Z.div_mod (Zpos m + 2 ^ (j - 1)) (2 ^ j) ltac:(lia)) as D.
    pose proof (Z.mod_pos_bound (Zpos m + 2 ^ (j - 1)) (2 ^ j) Hp) as B.
    fold k in D.
    assert (Hk0 : 0 <= k) by (unfold k; apply Z.div_pos; lia).
    split; [exact Hk0|].
    assert (Hv : (v * IZR (2 ^ j) = IZR (Zpos m))%R).
    { unfold v. rewrite IZR_pow2 by lia. rewrite Rmult_assoc.
      rewrite <- powerRZ_add by lra.
      replace (e + j) with 0 by (unfold j; lia). simpl. lra. }
    assert (HP : (0 < IZR (2 ^ j))%R) by (apply IZR_lt; exact Hp).
    assert (H1 : (IZR (2 ^ j) * IZR k <= IZR (Zpos m) + IZR (2 ^ (j - 1)))%R).
    { rewrite <- mult_IZR, <- plus_IZR. apply IZR_le. lia. }
    assert (H2 : (IZR (Zpos m) + IZR (2 ^ (j - 1)) < IZR (2 ^ j) * (IZR k + 1))%R).
    { replace (IZR k + 1)%R with (IZR (k + 1)) by (rewrite plus_IZR; reflexivity).
      rewrite <- mult_IZR, <- plus_IZR. apply IZR_lt. lia. }
    assert (H3 : (IZR (2 ^ j) = 2 * IZR (2 ^ (j - 1)))%R).
    { rewrite E2 at 1. now rewrite mult_IZR. }
    rewrite <- Hv in H1, H2.
    split.
    + apply (Rmult_le_reg_l (IZR (2 ^ j))); [exact HP|]. lra.
    + apply (Rmult_lt_reg_l (IZR (2 ^ j))); [exact HP|]. lra.
Qed.

(** *** [(float) num_voxels] *)

(** Below [2^24] the conversion is exact: the mantissa is the number shifted
    up to 24 bits. *)
Lemma of_nat_small (N : nat) (p : positive) :
  Z.of_nat N = Zpos p -> Zpos p < 2 ^ 24 ->
  let d := Zpos (digits2_pos p) in
  exists ma,
    Float32.of_nat N = S754_finite false ma (d - 24) /\
    Zpos ma = Zpos p * 2 ^ (24 - d) /\
    2 ^ 23 <= Zpos ma < 2 ^ 24 /\ 1 <= d <= 24.
Proof.
  intros HN Hp d. unfold Float32.of_nat, Float32.prec, Float32.emax.
  rewrite HN. cbn [binary_normalize]. unfold binary_round.
  pose proof (digits2_bounds p) as [Bl Bu]. fold d in Bl, Bu.
  assert (Hd1 : 1 <= d) by (unfold d; lia).
  assert (Hd : d <= 24).
  { destruct (Z.le_gt_cases d 24) as [H|H]; [exact H|].
    assert (2 ^ 24 <= 2 ^ (d - 1)) by (apply Z.pow_le_mono_r; lia). lia. }
  rewrite fexp_normal by (fold d; lia). fold d.
  unfold shl_align.
  replace (d + 0 - 24 - 0) with (d - 24) by lia.
  assert (Hpow : 2 ^ (d - 1) * 2 ^ (24 - d) = 2 ^ 23).
  { rewrite <- Z.pow_add_r by lia. f_equal. lia. }
  assert (Hpow' : 2 ^ d * 2 ^ (24 - d) = 2 ^ 24).
  { rewrite <- Z.pow_add_r by lia. f_equal. lia. }
  assert (Hk : 0 < 2 ^ (24 - d)) by (apply Z.pow_pos_nonneg; lia).
  destruct (d - 24) as [|k|k] eqn:Ek; try lia.
  - exists p. replace (24 - d) with 0 in * by lia.
    change (2 ^ 0) with 1 in *. rewrite Z.mul_1_r in *.
    replace (d + 0 - 24) with 0 by lia.
    rewrite binary_round_aux_exact by (fold d; lia).
    change (0 <=? 104) with true. cbv iota.
    repeat split; try lia.
  - exists (Pos.iter xO p k).
    assert (Hm : Zpos (Pos.iter xO p k) = Zpos p * 2 ^ (24 - d)).
    { rewrite iter_xO_spec. f_equal. f_equal. lia. }
    assert (Hr : 2 ^ 23 <= Zpos (Pos.iter xO p k) < 2 ^ 24).
    { rewrite Hm. split; nia. }
    rewrite binary_round_aux_exact
      by (try rewrite (digits2_unique _ 24 Hr); lia).
    replace (d + 0 - 24) with (Zneg k) by lia.
    destruct (Z.leb_spec (Zneg k) 104) as [_|H]; [|lia].
    repeat split; try lia.
Qed.

(** From [2^24] on the conversion rounds to 24 bits; the result is an
    integer [A] within [N / 2^24] of [N], or it overflows, which takes
    [N >= 2^127]. *)
Lemma of_nat_large (N : nat) (p : positive) :
  Z.of_nat N = Zpos p -> 2 ^ 24 <= Zpos p ->
  (Float32.of_nat N = S754_infinity false /\ 2 ^ 127 <= Zpos p) \/
  exists ma ea A,
    Float32.of_nat N = S754_finite false ma ea /\
    2 ^ 23 <= Zpos ma < 2 ^ 24 /\ 0 <= ea <= 104 /\
    A = Zpos ma * 2 ^ ea /\
    - Zpos p <= (A - Zpos p) * 2 ^ 24 <= Zpos p.
Proof.
  intros HN Hp. unfold Float32.of_nat, Float32.prec, Float32.emax.
  rewrite HN. cbn [binary_normalize]. unfold binary_round.
  pose proof (digits2_bounds p) as [Bl Bu].
  set (d := Zpos (digits2_pos p)) in *.
  assert (Hd : 24 < d).
  { destruct (Z.lt_ge_cases 24 d) as [H|H]; [exact H|].
    assert (2 ^ d <= 2 ^ 24) by (apply Z.pow_le_mono_r; lia). lia. }
  rewrite fexp_normal by lia.
  unfold shl_align.
  replace (d + 0 - 24 - 0) with (d - 24) by lia.
  destruct (d - 24) as [|k|k] eqn:Ek; try lia.
  destruct (binary_round_aux_shift false p 0) as [Hq E]; fold d; try lia.
  fold d in Hq, E. rewrite E. clear E.
  rewrite Ek in *.
  set (n := Zpos k) in *.
  set (q := round_shift (Zpos p) n) in *.
  destruct (round_shift_spec (Zpos p) n ltac:(lia) ltac:(unfold n; lia))
    as (Herr & _ & _).
  fold q in Herr.
  assert (Hpn : 0 < 2 ^ n) by (apply Z.pow_pos_nonneg; unfold n; lia).
  assert (Hhalf : 2 ^ (n - 1) * 2 ^ 24 = 2 ^ (d - 1)).
  { rewrite <- Z.pow_add_r by (unfold n; lia). f_equal. lia. }
  assert (Hb : - Zpos p <= (q * 2 ^ n - Zpos p) * 2 ^ 24 <= Zpos p) by nia.
  assert (Hover : 104 <= n -> 2 ^ 127 <= Zpos p).
  { intros Hbig. transitivity (2 ^ (d - 1)); [|exact Bl].
    apply Z.pow_le_mono_r; lia. }
  destruct (Z.eqb_spec q (2 ^ 24)) as [Eq|Eq].
  - destruct (Z.leb_spec (0 + n + 1) 104) as [Hle|Hgt];
      [|left; split; [reflexivity | apply Hover; lia]].
    right. exists 8388608%positive, (0 + n + 1), (q * 2 ^ n).
    split; [reflexivity|]. split; [change (2 ^ 23) with 8388608;
                                   change (2 ^ 24) with 16777216; lia|].
    split; [unfold n; lia|]. split; [|exact Hb].
    rewrite Eq. replace (0 + n + 1) with (Z.succ n) by lia.
    rewrite Z.pow_succ_r by (unfold n; lia).
    change (2 ^ 24) with 16777216. lia.
  - destruct (Z.leb_spec (0 + n) 104) as [Hle|Hgt];
      [|left; split; [reflexivity | apply Hover; lia]].
    right. exists (Z.to_pos q), (0 + n), (q * 2 ^ n).
    split; [reflexivity|].
    assert (Hqp : Zpos (Z.to_pos q) = q).
    { apply Z2Pos.id. change (2 ^ 23) with 8388608 in Hq. lia. }
    rewrite Hqp. split; [lia|]. split; [unfold n; lia|].
    split; [|exact Hb]. now rewrite Z.add_0_l.
Qed.

(** *** The two products *)

(** [x * 0.25f] is exact on a normal number. *)
Lemma mul_quarter (ma : positive) (ea : Z) :
  2 ^ 23 <= Zpos ma < 2 ^ 24 -> -23 <= ea <= 104 ->
  Float32.mul (S754_finite false ma ea) Float32.quarter
  = S754_finite false ma (ea - 2).
Proof.
  intros Hma Hea.
  unfold Float32.mul, Float32.quarter, Float32.prec, Float32.emax.
  cbn [SFmul xorb].
  change (2 ^ 23) with 8388608 in Hma. change (2 ^ 24) with 16777216 in Hma.
  assert (Hd : Zpos (digits2_pos (ma * 8388608)) = 47).
  { apply digits2_unique. rewrite Pos2Z.inj_mul.
    change (2 ^ (47 - 1)) with 70368744177664.
    change (2 ^ 47) with 140737488355328. lia. }
  destruct (binary_round_aux_shift false (ma * 8388608) (ea + -25))
    as [_ E]; rewrite ?Hd; try lia.
  rewrite E, Hd. clear E. change (47 - 24) with 23.
  destruct (round_shift_spec (Zpos (ma * 8388608)) 23) as (_ & _ & Hex);
    try lia.
  rewrite Pos2Z.inj_mul in Hex. change (2 ^ 23) with 8388608 in Hex.
  rewrite Z.mod_mul, Z.div_mul in Hex by lia.
  rewrite Pos2Z.inj_mul, (Hex eq_refl).
  change (2 ^ 24) with 16777216.
  destruct (Z.eqb_spec (Zpos ma) 16777216) as [H|_]; [lia|].
  destruct (Z.leb_spec (ea + -25 + 23) 104) as [_|H]; [|lia].
  cbn [Z.to_pos]. f_equal. lia.
Qed.

(** [x * 0.75f] on a normal number [ma * 2^ea]: the product
    [3 * 2^22 * ma], in units of [2^(ea - 24)], is rounded to 24 bits. *)
Lemma mul_three_quarters (ma : positive) (ea : Z) :
  2 ^ 23 <= Zpos ma < 2 ^ 24 -> -23 <= ea <= 104 ->
  let m := Zpos ma * 12582912 in
  let n := Zpos (digits2_pos (ma * 12582912)) - 24 in
  23 <= n <= 24 /\
  exists mb eb,
    Float32.mul (S754_finite false ma ea) Float32.three_quarters
    = S754_finite false mb eb /\
    (IZR (Zpos mb) * powerRZ 2 eb
     = IZR (round_shift m n * 2 ^ n) * powerRZ 2 (ea - 24))%R.
Proof.
  intros Hma Hea m n.
  unfold Float32.mul, Float32.three_quarters, Float32.prec, Float32.emax.
  cbn [SFmul xorb].
  change (2 ^ 23) with 8388608 in Hma. change (2 ^ 24) with 16777216 in Hma.
  pose proof (digits2_bounds (ma * 12582912)) as [Bl Bu].
  rewrite Pos2Z.inj_mul in Bl, Bu. fold m in Bl, Bu.
  set (d := Zpos (digits2_pos (ma * 12582912))) in *.
  assert (Hm : 2 ^ 46 <= m < 2 ^ 48).
  { change (2 ^ 46) with 70368744177664.
    change (2 ^ 48) with 281474976710656. unfold m. lia. }
  assert (Hd : 47 <= d <= 48).
  { split.
    - destruct (Z.le_gt_cases 47 d) as [H|H]; [exact H|].
      assert (2 ^ d <= 2 ^ 46) by (apply Z.pow_le_mono_r; unfold d; lia). lia.
    - destruct (Z.le_gt_cases d 48) as [H|H]; [exact H|].
      assert (2 ^ 48 <= 2 ^ (d - 1)) by (apply Z.pow_le_mono_r; lia). lia. }
  assert (Hn : 23 <= n <= 24) by (unfold n; lia).
  split; [exact Hn|].
  destruct (binary_round_aux_shift false (ma * 12582912) (ea + -24))
    as [Hq E]; fold d; try lia.
  fold d in Hq, E. rewrite E. clear E.
  rewrite Pos2Z.inj_mul in Hq |- *. fold m in Hq |- *. fold n in Hq |- *.
  set (q := round_shift m n) in *.
  destruct (round_shift_spec m n ltac:(lia) ltac:(lia)) as (_ & [_ Hq2] & _).
  fold q in Hq2.
  (* a carry can only come from a shift by 23 *)
  assert (Hcarry : q = 2 ^ 24 -> n = 23).
  { intros Eq. destruct (Z.eq_dec n 23) as [H|H]; [exact H|].
    assert (En : n = 24) by lia. rewrite En in Hq2.
    assert (m / 2 ^ 24 < 12582912).
    { apply Z.div_lt_upper_bound; [reflexivity|].
      change (2 ^ 24) with 16777216. unfold m. lia. }
    change (2 ^ 24) with 16777216 in Eq. lia. }
  destruct (Z.eqb_spec q (2 ^ 24)) as [Eq|Eq].
  - specialize (Hcarry Eq).
    destruct (Z.leb_spec (ea + -24 + n + 1) 104) as [_|H]; [|lia].
    exists 8388608%positive, (ea + -24 + n + 1). split; [reflexivity|].
    rewrite Eq, Hcarry.
    replace (ea + -24 + 23 + 1) with (ea - 24 + 24) by lia.
    rewrite (F2R_shift 8388608 24 (ea - 24)) by lia.
    reflexivity.
  - destruct (Z.leb_spec (ea + -24 + n) 104) as [_|H]; [|lia].
    exists (Z.to_pos q), (ea + -24 + n). split; [reflexivity|].
    rewrite Z2Pos.id by (change (2 ^ 23) with 8388608 in Hq; lia).
    replace (ea + -24 + n) with (ea - 24 + n) by lia.
    apply F2R_shift. lia.
Qed.

End Binary32.

(** *** The two offsets *)

Lemma INR_to_nat (k : Z) : (0 <= k)%Z -> INR (Z.to_nat k) = IZR k.
Proof. intros Hk. now rewrite INR_IZR_INZ, Z2Nat.id. Qed.

(** For every [N >= 1]: either the conversion overflows, which takes
    [N >= 2^127], more than a [size_t] can count, and leaves both offsets
    at 0, or the offsets are the roundings of [A / 4] and of [vU], where [A]
    is [(float) N] and [vU] is [A * 0.75f]. *)
Lemma quartile_values (N : nat) :
  (1 <= N)%nat ->
  (lower_quartile_index N = 0%nat /\ upper_quartile_index N = 0%nat /\
   (2 ^ 127 <= Z.of_nat N)%Z) \/
  exists A vU : R,
    (INR N * (1 - / 16777216) <= A <= INR N * (1 + / 16777216))%R /\
    (3 * A / 4 - A / 16777216 <= vU <= 3 * A / 4 + A / 16777216)%R /\
    ((3 * Z.of_nat N < 16777216)%Z -> A = INR N /\ vU = (3 * INR N / 4)%R) /\
    (INR (lower_quartile_index N) <= A / 4 + / 2
     < INR (lower_quartile_index N) + 1)%R /\
    (INR (upper_quartile_index N) <= vU + / 2
     < INR (upper_quartile_index N) + 1)%R.
Proof.
  intros HN.
  destruct (Z.of_nat N) as [|p|p] eqn:Ep; try lia.
  assert (HNR : INR N = IZR (Zpos p)) by (now rewrite INR_IZR_INZ, Ep).
  assert (Hpos : (1 <= IZR (Zpos p))%R) by (apply IZR_le; lia).
  (* the conversion *)
  assert (Hconv :
    (Float32.of_nat N = S754_infinity false /\ (2 ^ 127 <= Zpos p)%Z) \/
    exists ma ea,
      Float32.of_nat N = S754_finite false ma ea /\
      (2 ^ 23 <= Zpos ma < 2 ^ 24)%Z /\ (-23 <= ea <= 104)%Z /\
      (IZR (Zpos p) * (1 - / 16777216) <= IZR (Zpos ma) * powerRZ 2 ea
       <= IZR (Zpos p) * (1 + / 16777216))%R /\
      ((Zpos p < 2 ^ 24)%Z ->
       (IZR (Zpos ma) * powerRZ 2 ea = IZR (Zpos p))%R /\
       exists k, (0 <= k)%Z /\ Zpos ma = (Zpos p * 2 ^ k)%Z /\ ea = (- k)%Z)).
  { destruct (Z.lt_ge_cases (Zpos p) (2 ^ 24)) as [Hs|Hl].
    - right. destruct (of_nat_small N p Ep Hs) as (ma & E & Hma & Hr & Hd).
      set (d := Zpos (digits2_pos p)) in *.
      assert (Hv : (IZR (Zpos ma) * powerRZ 2 (d - 24) = IZR (Zpos p))%R).
      { rewrite Hma.
        rewrite <- (F2R_shift (Zpos p) (24 - d) (d - 24)) by lia.
        replace (d - 24 + (24 - d))%Z with 0%Z by lia. simpl. lra. }
      exists ma, (d - 24)%Z. split; [exact E|]. split; [exact Hr|].
      split; [lia|]. split; [rewrite Hv; lra|].
      intros _. split; [exact Hv|].
      exists (24 - d)%Z. split; [lia|]. split; [exact Hma | lia].
    - destruct (of_nat_large N p Ep Hl)
        as [[E Hbig]|(ma & ea & A & E & Hr & Hea & HA & Hb)];
        [left; split; [exact E | exact Hbig]|].
      right. exists ma, ea. split; [exact E|]. split; [exact Hr|].
      split; [lia|]. split; [|lia].
      assert (Hv : (IZR (Zpos ma) * powerRZ 2 ea = IZR A)%R).
      { rewrite HA. pose proof (F2R_shift (Zpos ma) ea 0 ltac:(lia)) as F.
        rewrite Z.add_0_l in F. change (powerRZ 2 0) with 1%R in F.
        rewrite Rmult_1_r in F. exact F. }
      rewrite Hv.
      assert (H1 : (- IZR (Zpos p) <= (IZR A - IZR (Zpos p)) * 16777216)%R).
      { rewrite <- opp_IZR, <- minus_IZR.
        change 16777216%R with (IZR (2 ^ 24)). rewrite <- mult_IZR.
        apply IZR_le. lia. }
      assert (H2 : ((IZR A - IZR (Zpos p)) * 16777216 <= IZR (Zpos p))%R).
      { rewrite <- minus_IZR.
        change 16777216%R with (IZR (2 ^ 24)). rewrite <- mult_IZR.
        apply IZR_le. lia. }
      lra. }
  destruct Hconv as [[E Hl]|(ma & ea & E & Hr & Hea & HA & Hsmall)].
  - left. unfold lower_quartile_index, upper_quartile_index, quartile_index.
    rewrite E. repeat split; try reflexivity. exact Hl.
  - right.
    set (A := (IZR (Zpos ma) * powerRZ 2 ea)%R) in *.
    (* the product with 0.75f *)
    destruct (mul_three_quarters ma ea Hr Hea) as (Hn & mb & eb & EU & HvU).
    pose proof (digits2_bounds (ma * 12582912)) as [Bl _].
    rewrite Pos2Z.inj_mul in Bl.
    set (m := (Zpos ma * 12582912)%Z) in *.
    set (n := (Zpos (digits2_pos (ma * 12582912)) - 24)%Z) in *.
    set (vU := (IZR (Zpos mb) * powerRZ 2 eb)%R) in *.
    destruct (round_shift_spec m n ltac:(unfold m; lia) ltac:(lia))
      as (Herr & _ & Hex).
    set (W := (round_shift m n * 2 ^ n)%Z) in *.
    assert (Hh : (2 ^ (n - 1) <= 2 ^ 23)%Z) by (apply Z.pow_le_mono_r; lia).
    change (2 ^ 23)%Z with 8388608%Z in Hh.
    assert (Hu : (0 < powerRZ 2 (ea - 24))%R) by apply powerRZ_2_pos.
    assert (HAu : A = (IZR (Zpos ma) * 16777216 * powerRZ 2 (ea - 24))%R).
    { unfold A. replace ea with (ea - 24 + 24)%Z at 1 by lia.
      rewrite powerRZ_add by lra. simpl. lra. }
    assert (H34 : (3 * A / 4 = IZR m * powerRZ 2 (ea - 24))%R).
    { rewrite HAu. unfold m. rewrite mult_IZR. lra. }
    assert (HWm : (- 8388608 <= IZR W - IZR m <= 8388608)%R).
    { rewrite <- minus_IZR. split; apply IZR_le; lia. }
    assert (Hma_lo : (8388608 <= IZR (Zpos ma))%R).
    { apply IZR_le. change (2 ^ 23)%Z with 8388608%Z in Hr. lia. }
    exists A, vU. split; [rewrite HNR; exact HA|]. split; [|split; [|split]].
    + rewrite HvU, H34, HAu.
      set (u := powerRZ 2 (ea - 24)) in *. nra.
    + intros H3N.
      assert (Hs : (Zpos p < 2 ^ 24)%Z).
      { change (2 ^ 24)%Z with 16777216%Z. lia. }
      destruct (Hsmall Hs) as (HAN & k & Hk & Hmak & Heak).
      split; [rewrite HNR; exact HAN|].
      rewrite HvU, HNR, <- HAN, H34. f_equal. f_equal.
      assert (Hnk : (n <= k + 22)%Z).
      { assert (Hlt : (m < 2 ^ (k + 46))%Z).
        { rewrite Z.pow_add_r by lia. unfold m. rewrite Hmak.
          assert (0 < 2 ^ k)%Z by (apply Z.pow_pos_nonneg; lia).
          change (2 ^ 46)%Z with 70368744177664%Z. nia. }
        assert (Hd : (Zpos (digits2_pos (ma * 12582912)) - 1 < k + 46)%Z).
        { apply (Z.pow_lt_mono_r_iff 2); lia. }
        unfold n. lia. }
      assert (Hmod : (m mod 2 ^ n = 0)%Z).
      { unfold m. rewrite Hmak.
        replace (Zpos p * 2 ^ k * 12582912)%Z
          with (3 * Zpos p * 2 ^ (k + 22 - n) * 2 ^ n)%Z.
        - apply Z.mod_mul. apply Z.pow_nonzero; lia.
        - rewrite <- Z.mul_assoc, <- Z.pow_add_r by lia.
          replace (k + 22 - n + n)%Z with (k + 22)%Z by lia.
          rewrite Z.pow_add_r by lia. change (2 ^ 22)%Z with 4194304%Z. lia. }
      unfold W. rewrite (Hex Hmod).
      pose proof (Z.div_mod m (2 ^ n) ltac:(apply Z.pow_nonzero; lia)) as D.
      lia.
    + unfold lower_quartile_index, quartile_index.
      rewrite E, (mul_quarter ma ea Hr Hea).
      destruct (std_round_spec ma (ea - 2)) as [Hk0 Hs].
      rewrite INR_to_nat by exact Hk0.
      replace (A / 4)%R with (IZR (Zpos ma) * powerRZ 2 (ea - 2))%R;
        [exact Hs|].
      unfold A. replace ea with (ea - 2 + 2)%Z at 2 by lia.
      rewrite powerRZ_add by lra. simpl. lra.
    + unfold upper_quartile_index, quartile_index.
      rewrite E, EU.
      destruct (std_round_spec mb eb) as [Hk0 Hs].
      rewrite INR_to_nat by exact Hk0. exact Hs.
Qed.

Lemma quartile_index_small_cases :
  lower_quartile_index 0 = 0%nat /\ upper_quartile_index 0 = 0%nat /\
  lower_quartile_index 1 = 0%nat /\ upper_quartile_index 1 = 1%nat /\
  lower_quartile_index 2 = 1%nat /\ upper_quartile_index 2 = 2%nat.
Proof. repeat split; vm_compute; reflexivity. Qed.

Lemma upper_quartile_index_lt (N : nat) :
  (3 <= N)%nat -> (upper_quartile_index N < N)%nat.
Proof.
  intros HN.
  destruct (quartile_values N ltac:(lia))
    as [(_ & -> & _)|(A & vU & HA & HU & _ & _ & HkU)]; [lia|].
  apply INR_lt.
  assert (H3 : (INR 3 <= INR N)%R) by (apply le_INR; exact HN).
  simpl in H3.
  lra.
Qed.

Lemma quartile_indices_ordered (N : nat) :
  (lower_quartile_index N <= upper_quartile_index N <= N)%nat.
Proof.
  destruct quartile_index_small_cases as (L0 & U0 & L1 & U1 & L2 & U2).
  destruct N as [|[|[|N]]]; [lia | lia | lia |].
  split; [|apply Nat.lt_le_incl, upper_quartile_index_lt; lia].
  destruct (quartile_values (S (S (S N))) ltac:(lia))
    as [(-> & -> & _)|(A & vU & HA & HU & _ & HkL & HkU)]; [lia|].
  assert (H3 : (INR 3 <= INR (S (S (S N))))%R) by (apply le_INR; lia).
  change (INR 3) with (1 + 1 + 1)%R in H3.
  apply Nat.lt_succ_r, INR_lt. rewrite S_INR. lra.
Qed.

Lemma upper_quartile_index_valid (N : nat) :
  (upper_quartile_index N < N)%nat <-> (3 <= N)%nat.
Proof.
  destruct quartile_index_small_cases as (L0 & U0 & L1 & U1 & L2 & U2).
  split; [|apply upper_quartile_index_lt].
  destruct N as [|[|[|N]]]; lia.
Qed.

Lemma lower_quartile_index_lt (N : nat) :
  (1 <= N)%nat -> (lower_quartile_index N < N)%nat.
Proof.
  intros HN.
  destruct (quartile_values N HN)
    as [(-> & _ & _)|(A & vU & HA & _ & _ & HkL & _)]; [lia|].
  apply INR_lt.
  assert (H1 : (INR 1 <= INR N)%R) by (apply le_INR; exact HN).
  simpl in H1.
  lra.
Qed.

(** As long as [3 * N < 2^24] both products are exact and the offsets are
    the roundings of [N / 4] and [3 N / 4]. *)
Lemma quartile_index_exact (N : nat) :
  (3 * Z.of_nat N < 16777216)%Z ->
  lower_quartile_index N = ((N + 2) / 4)%nat /\
  upper_quartile_index N = ((3 * N + 2) / 4)%nat.
Proof.
  intros H3.
  destruct N as [|N]; [split; vm_compute; reflexivity|].
  destruct (quartile_values (S N) ltac:(lia))
    as [(_ & _ & Hbig)|(A & vU & _ & _ & Hex & HkL & HkU)];
    [change (2 ^ 127)%Z with 170141183460469231731687303715884105728%Z in Hbig;
     lia|].
  destruct (Hex H3) as [-> ->].
  set (L := lower_quartile_index (S N)) in *.
  set (U := upper_quartile_index (S N)) in *.
  set (M := S N) in *. clearbody L U M.
  assert (HL : (4 * L <= M + 2 < 4 * L + 4)%nat).
  { split.
    - apply INR_le. rewrite mult_INR, plus_INR. simpl. lra.
    - apply INR_lt. rewrite !plus_INR, mult_INR. simpl. lra. }
  assert (HU : (4 * U <= 3 * M + 2 < 4 * U + 4)%nat).
  { split.
    - apply INR_le. rewrite mult_INR, plus_INR, mult_INR. simpl. lra.
    - apply INR_lt. rewrite !plus_INR, !mult_INR. simpl. lra. }
  pose proof (Nat.div_mod_eq (M + 2) 4) as D1.
  pose proof (Nat.mod_upper_bound (M + 2) 4 ltac:(lia)) as B1.
  pose proof (Nat.div_mod_eq (3 * M + 2) 4) as D3.
  pose proof (Nat.mod_upper_bound (3 * M + 2) 4 ltac:(lia)) as B3.
  split; lia.
Qed.

(** The offsets are at least about half of [N] apart, for every [N] a
    [size_t] can hold. *)
Lemma interquartile_count (N : nat) :
  (1 <= N)%nat -> (Z.of_nat N < 2 ^ 64)%Z ->
  (INR N * (1 / 2 - / 8388608)
   < INR (upper_quartile_index N - lower_quartile_index N + 1))%R.
Proof.
  intros HN Hsize.
  pose proof (quartile_indices_ordered N) as [H13 _].
  destruct (quartile_values N HN)
    as [(_ & _ & Hbig)|(A & vU & HA & HU & _ & HkL & HkU)].
  - change (2 ^ 127)%Z with 170141183460469231731687303715884105728%Z in Hbig.
    change (2 ^ 64)%Z with 18446744073709551616%Z in Hsize. lia.
  - assert (H1 : (INR 1 <= INR N)%R) by (apply le_INR; exact HN).
    simpl in H1.
    rewrite plus_INR, minus_INR by exact H13. simpl (INR 1). lra.
Qed.

(** A pass over [N] values with an exact half-way split keeps at least half
    of them. *)
Lemma interquartile_half (N : nat) :
  (3 * Z.of_nat N < 2 ^ 24)%Z ->
  (N <= 2 * (upper_quartile_index N - lower_quartile_index N + 1))%nat.
Proof.
  intros H3. change (2 ^ 24)%Z with 16777216%Z in H3.
  destruct (quartile_index_exact N H3) as [-> ->].
  pose proof (Nat.div_mod_eq (N + 2) 4) as D1.
  pose proof (Nat.div_mod_eq (3 * N + 2) 4) as D3.
  pose proof (Nat.mod_upper_bound (N + 2) 4 ltac:(lia)).
  pose proof (Nat.mod_upper_bound (3 * N + 2) 4 ltac:(lia)).
  lia.
Qed.

(** The positions of the specification in closed form. *)
Lemma spec_quartile_index_closed_form (n : nat) (a : Z) (d : positive) :
  (0 <= a)%Z ->
  spec_quartile_index n (a # d) =
  Z.to_nat ((2 * (Z.of_nat n * a) + Zpos d) / (2 * Zpos d)).
Proof.
  intros Ha. unfold spec_quartile_index, nearest_integer.
  assert (Hnn : Qle_bool 0 (inject_Z (Z.of_nat n) * (a # d)) = true).
  { apply Qle_bool_iff. unfold Qle; simpl. nia. }
  rewrite Hnn. unfold Qfloor, Qplus, Qmult, inject_Z; cbn [Qnum Qden].
  f_equal. f_equal; lia.
Qed.

Lemma spec_lower_quartile_index_eq (n : nat) :
  spec_quartile_index n (1 # 4) = ((n + 2) / 4)%nat.
Proof.
  rewrite spec_quartile_index_closed_form by lia.
  replace (2 * (Z.of_nat n * 1) + 4)%Z with (2 * Z.of_nat (n + 2))%Z by lia.
  change (2 * 4)%Z with (2 * Z.of_nat 4)%Z.
  rewrite Z.div_mul_cancel_l by lia.
  rewrite <- Nat2Z.inj_div. apply Nat2Z.id.
Qed.

Lemma spec_upper_quartile_index_eq (n : nat) :
  spec_quartile_index n (3 # 4) = ((3 * n + 2) / 4)%nat.
Proof.
  rewrite spec_quartile_index_closed_form by lia.
  replace (2 * (Z.of_nat n * 3) + 4)%Z with (2 * Z.of_nat (3 * n + 2))%Z by lia.
  change (2 * 4)%Z with (2 * Z.of_nat 4)%Z.
  rewrite Z.div_mul_cancel_l by lia.
  rewrite <- Nat2Z.inj_div. apply Nat2Z.id.
Qed.

(** ** Sorting and order statistics *)

Lemma insert_sorted_perm (x : R) (l : list R) :
  Permutation (insert_sorted x l) (x :: l).
Proof.
  induction l as [|y l IH]; simpl.
  - reflexivity.
  - destruct (Rle_dec x y).
    + reflexivity.
    + rewrite IH. apply perm_swap.
Qed.

Lemma sort_perm (l : list R) : Permutation (sort l) l.
Proof.
  induction l as [|x l IH]; simpl.
  - reflexivity.
  - rewrite insert_sorted_perm. now constructor.
Qed.

Lemma sort_length (l : list R) : length (sort l) = length l.
Proof. apply Permutation_length, sort_perm. Qed.

Lemma insert_sorted_sorted (x : R) (l : list R) :
  StronglySorted Rle l -> StronglySorted Rle (insert_sorted x l).
Proof.
  induction 1 as [|y l Hs IH Hy]; simpl.
  - constructor; constructor.
  - destruct (Rle_dec x y) as [Hxy|Hxy].
    + constructor.
      * now constructor.
      * constructor; [exact Hxy|].
        eapply Forall_impl; [|exact Hy]. intros z Hz; simpl in Hz. lra.
    + constructor; [exact IH|].
      eapply Permutation_Forall; [symmetry; apply insert_sorted_perm|].
      constructor; [lra | exact Hy].
Qed.

Lemma sort_sorted (l : list R) : StronglySorted Rle (sort l).
Proof.
  induction l as [|x l IH]; simpl.
  - constructor.
  - now apply insert_sorted_sorted.
Qed.

Lemma three_equal_sorted (x : R) : sort [x; x; x] = [x; x; x].
Proof.
  simpl. destruct (Rle_dec x x) as [_|n]; [|exfalso; apply n; lra].
  simpl. destruct (Rle_dec x x) as [_|n]; [|exfalso; apply n; lra].
  reflexivity.
Qed.

(** A sorted list is determined by its elements. *)
Lemma sorted_perm_unique (l1 : list R) :
  forall l2, StronglySorted Rle l1 -> StronglySorted Rle l2 ->
             Permutation l1 l2 -> l1 = l2.
Proof.
  induction l1 as [|a l1 IH]; intros l2 H1 H2 Hp.
  - apply Permutation_nil in Hp. now subst.
  - destruct l2 as [|b l2].
    + symmetry in Hp. apply Permutation_nil in Hp. discriminate.
    + apply StronglySorted_inv in H1 as [H1 Ha].
      apply StronglySorted_inv in H2 as [H2 Hb].
      rewrite Forall_forall in Ha, Hb.
      assert (Hab : a = b).
      { assert (Hin1 : In a (b :: l2)).
        { eapply Permutation_in; [exact Hp | now left]. }
        assert (Hin2 : In b (a :: l1)).
        { eapply Permutation_in; [symmetry; exact Hp | now left]. }
        destruct Hin1 as [->|Hin1]; [reflexivity|].
        destruct Hin2 as [->|Hin2]; [reflexivity|].
        apply Rle_antisym; auto. }
      subst b. f_equal. apply IH; auto.
      now apply Permutation_cons_inv in Hp.
Qed.

Lemma sorted_app (l1 l2 : list R) :
  StronglySorted Rle l1 -> StronglySorted Rle l2 ->
  (forall a b, In a l1 -> In b l2 -> a <= b) ->
  StronglySorted Rle (l1 ++ l2).
Proof.
  induction 1 as [|a l1 Hs IH Ha]; intros H2 Hle; simpl.
  - exact H2.
  - constructor.
    + apply IH; [exact H2|]. intros; apply Hle; [now right | assumption].
    + apply Forall_app. split; [exact Ha|].
      apply Forall_forall. intros b Hb. apply Hle; [now left | assumption].
Qed.

Lemma nth_error_split_at {A : Type} (l : list A) (k : nat) (x : A) :
  nth_error l k = Some x -> l = firstn k l ++ x :: skipn (S k) l.
Proof.
  revert k; induction l as [|a l IH]; intros [|k] H; simpl in *;
    try discriminate.
  - now inversion H.
  - f_equal. now apply IH.
Qed.

Lemma In_firstn_nth {A : Type} (l : list A) (k : nat) (y : A) :
  In y (firstn k l) -> exists i, (i < k)%nat /\ nth_error l i = Some y.
Proof.
  revert k; induction l as [|a l IH]; intros [|k] H; simpl in *;
    try contradiction.
  destruct H as [->|H].
  - exists 0%nat. split; [lia | reflexivity].
  - destruct (IH _ H) as (i & Hi & Hn). exists (S i). split; [lia | exact Hn].
Qed.

Lemma In_skipn_nth {A : Type} (l : list A) (k : nat) (y : A) :
  In y (skipn k l) -> exists i, (k <= i)%nat /\ nth_error l i = Some y.
Proof.
  revert l; induction k as [|k IH]; intros l H.
  - apply In_nth_error in H as [i Hi]. exists i. split; [lia | exact Hi].
  - destruct l as [|a l]; simpl in H; [contradiction|].
    destruct (IH _ H) as (i & Hi & Hn). exists (S i). split; [lia | exact Hn].
Qed.

(** The element that partitions a rearrangement of [l] at position [k] is
    the order statistic of [l] at [k]. *)
Lemma partition_point_is_order_statistic (l l' : list R) (k : nat) (x : R) :
  Permutation l' l ->
  nth_error l' k = Some x ->
  (forall i y, (i < k)%nat -> nth_error l' i = Some y -> y <= x) ->
  (forall i y, (k < i)%nat -> nth_error l' i = Some y -> x <= y) ->
  order_statistic k l = Some x.
Proof.
  intros Hp Hk Hlo Hhi. unfold order_statistic.
  set (lo := sort (firstn k l')).
  set (hi := sort (skipn (S k) l')).
  assert (Hk_len : (k < length l')%nat).
  { apply nth_error_Some. rewrite Hk. discriminate. }
  assert (Hsorted : StronglySorted Rle (lo ++ x :: hi)).
  { apply sorted_app.
    - apply sort_sorted.
    - constructor; [apply sort_sorted|].
      apply Forall_forall. intros b Hb.
      apply (Permutation_in _ (sort_perm _)) in Hb.
      apply In_skipn_nth in Hb as (i & Hi & Hn). eapply Hhi; [|exact Hn]. lia.
    - intros a b Ha Hb.
      apply (Permutation_in _ (sort_perm _)) in Ha.
      apply In_firstn_nth in Ha as (i & Hi & Hn).
      assert (Hax : a <= x) by (eapply Hlo; eauto).
      destruct Hb as [<-|Hb]; [exact Hax|].
      apply (Permutation_in _ (sort_perm _)) in Hb.
      apply In_skipn_nth in Hb as (j & Hj & Hm).
      assert (x <= b) by (eapply Hhi; [|exact Hm]; lia). lra. }
  assert (Hperm : Permutation (lo ++ x :: hi) (sort l)).
  { rewrite sort_perm, <- Hp.
    transitivity (firstn k l' ++ x :: skipn (S k) l').
    - unfold lo, hi. now rewrite !sort_perm.
    - now rewrite <- (nth_error_split_at _ _ _ Hk). }
  rewrite <- (sorted_perm_unique _ _ Hsorted (sort_sorted l) Hperm).
  assert (Hlen : length lo = k).
  { unfold lo. rewrite sort_length, length_firstn. lia. }
  rewrite nth_error_app2 by lia.
  rewrite Hlen, Nat.sub_diag. reflexivity.
Qed.

(** The sort-based [nth_element] meets the postcondition. *)
Lemma nth_element_by_sorting_correct :
  nth_element_postcondition nth_element_by_sorting.
Proof.
  intros first nth v [Hfn Hnl]. unfold nth_element_by_sorting.
  assert (Hlen : length (firstn first v) = first).
  { rewrite length_firstn. lia. }
  split; [|split].
  - rewrite firstn_app, Hlen, Nat.sub_diag. simpl.
    rewrite app_nil_r. rewrite firstn_all2; [reflexivity | lia].
  - rewrite skipn_app, Hlen, Nat.sub_diag. simpl.
    rewrite skipn_all2 by lia. simpl. apply sort_perm.
  - intros x Hx.
    rewrite nth_error_app2 in Hx by lia. rewrite Hlen in Hx.
    pose proof (sort_sorted (skipn first v)) as Hs.
    assert (Hmono : forall l, StronglySorted Rle l ->
              forall i j a b, (i < j)%nat -> nth_error l i = Some a ->
                              nth_error l j = Some b -> a <= b).
    { induction 1 as [|c l Hl IH Hc]; intros i j a b Hij Hi Hj.
      - destruct i; discriminate.
      - destruct j as [|j]; [lia|]. simpl in Hj.
        destruct i as [|i]; simpl in Hi.
        + inversion Hi; subst. rewrite Forall_forall in Hc.
          apply Hc. eapply nth_error_In; eauto.
        + eapply (IH i j); eauto. lia. }
    split; intros i y Hi Hy.
    + rewrite nth_error_app2 in Hy by lia. rewrite Hlen in Hy.
      eapply (Hmono _ Hs (i - first)%nat (nth - first)%nat); eauto. lia.
    + rewrite nth_error_app2 in Hy by lia. rewrite Hlen in Hy.
      eapply (Hmono _ Hs (nth - first)%nat (i - first)%nat); eauto. lia.
Qed.

(** ** The two selections of the rejection pass *)

Section Selection.

Variable nth_element : nat -> nat -> list R -> list R.
Hypothesis nth_element_ok : nth_element_postcondition nth_element.

Lemma first_selection (values : list R) (i1 : nat) :
  (i1 <= length values)%nat ->
  Permutation (nth_element 0 i1 values) values /\
  nth_error (nth_element 0 i1 values) i1 = order_statistic i1 values.
Proof.
  intros Hi1.
  destruct (nth_element_ok 0%nat i1 values) as (_ & Hp & Hpart); [lia|].
  simpl in Hp. split; [exact Hp|].
  destruct (nth_error (nth_element 0 i1 values) i1) as [x|] eqn:Hx.
  - destruct (Hpart x eq_refl) as [Hlo Hhi]. symmetry.
    eapply partition_point_is_order_statistic; eauto.
    intros i y Hi. apply Hlo. lia.
  - symmetry. apply nth_error_None. apply nth_error_None in Hx.
    rewrite sort_length. rewrite <- (Permutation_length Hp). exact Hx.
Qed.

Lemma second_selection (values : list R) (i1 i3 : nat) :
  (i1 <= i3 <= length values)%nat ->
  nth_error (nth_element i1 i3 (nth_element 0 i1 values)) i3 =
  order_statistic i3 values.
Proof.
  intros [H13 H3].
  destruct (first_selection values i1) as [Hp1 Hq1]; [lia|].
  destruct (nth_element_ok 0%nat i1 values) as (_ & _ & Hpart1); [lia|].
  set (v1 := nth_element 0 i1 values) in *.
  assert (Hlen1 : length v1 = length values) by apply (Permutation_length Hp1).
  destruct (nth_element_ok i1 i3 v1) as (Hpre & Hp2 & Hpart2); [lia|].
  set (v2 := nth_element i1 i3 v1) in *.
  assert (Hperm : Permutation v2 values).
  { rewrite <- Hp1. rewrite <- (firstn_skipn i1 v2), <- (firstn_skipn i1 v1).
    rewrite Hpre. now apply Permutation_app_head. }
  destruct (nth_error v2 i3) as [x|] eqn:Hx.
  - symmetry. destruct (Hpart2 x eq_refl) as [Hlo Hhi].
    eapply partition_point_is_order_statistic; eauto.
    intros i y Hi Hy.
    destruct (Nat.lt_ge_cases i i1) as [Hlt|Hge]; [|apply (Hlo i); auto; lia].
    (* a position that the second call has not touched *)
    assert (Hy1 : nth_error v1 i = Some y).
    { rewrite <- (firstn_skipn i1 v1), nth_error_app1.
      - rewrite <- Hpre, nth_error_firstn.
        destruct (Nat.ltb_spec i i1); [exact Hy | lia].
      - rewrite length_firstn. lia. }
    assert (Hx_len : (i3 < length v2)%nat).
    { apply nth_error_Some. rewrite Hx. discriminate. }
    rewrite (Permutation_length Hperm) in Hx_len.
    destruct (nth_error v1 i1) as [q1|] eqn:Hq;
      [|apply nth_error_None in Hq; lia].
    destruct (Hpart1 q1 eq_refl) as [Hlo1 Hhi1].
    assert (Hyq : y <= q1) by (apply (Hlo1 i); auto; lia).
    assert (Hin : In x (skipn i1 v1)).
    { eapply Permutation_in; [exact Hp2|].
      rewrite <- (firstn_skipn i1 v2) in Hx.
      rewrite nth_error_app2 in Hx by (rewrite length_firstn; lia).
      eapply nth_error_In; eauto. }
    apply In_skipn_nth in Hin as (j & Hj & Hjx).
    destruct (Nat.eq_dec j i1) as [->|Hne].
    + rewrite Hq in Hjx. inversion Hjx; subst. exact Hyq.
    + assert (q1 <= x) by (apply (Hhi1 j); auto; lia). lra.
  - symmetry. apply nth_error_None. apply nth_error_None in Hx.
    rewrite sort_length. rewrite <- (Permutation_length Hperm). exact Hx.
Qed.

End Selection.

(** ** The rejection loop *)

Lemma is_outlier_false_iff (lo hi s : R) :
  is_outlier lo hi s = false <-> lo <= s <= hi.
Proof.
  unfold is_outlier, Rltb.
  destruct (Rlt_dec s lo), (Rlt_dec hi s); simpl; split; intros H;
    try discriminate; try reflexivity; lra.
Qed.

Lemma reject_mask_independent (m : list bool) :
  forall sl lo hi n n',
    fst (reject m sl lo hi n) = fst (reject m sl lo hi n').
Proof.
  induction m as [|b m IH]; intros sl lo hi n n'; [reflexivity|].
  destruct sl as [|s sl]; [reflexivity|]. simpl.
  destruct (b && is_outlier lo hi s).
  - specialize (IH sl lo hi (n - 1)%nat (n' - 1)%nat).
    destruct (reject m sl lo hi (n - 1)), (reject m sl lo hi (n' - 1)).
    simpl in *. now f_equal.
  - specialize (IH sl lo hi n n').
    destruct (reject m sl lo hi n), (reject m sl lo hi n').
    simpl in *. now f_equal.
Qed.

Lemma reject_length (m : list bool) :
  forall sl lo hi n, length (fst (reject m sl lo hi n)) = length m.
Proof.
  induction m as [|b m IH]; intros sl lo hi n; [reflexivity|].
  destruct sl as [|s sl]; [reflexivity|]. simpl.
  destruct (b && is_outlier lo hi s).
  - specialize (IH sl lo hi (n - 1)%nat).
    destruct (reject m sl lo hi (n - 1)). simpl in *. now f_equal.
  - specialize (IH sl lo hi n).
    destruct (reject m sl lo hi n). simpl in *. now f_equal.
Qed.

(** Voxel by voxel: a voxel is active afterwards exactly when it was active
    and its value is not an outlier. *)
Lemma reject_pointwise (m : list bool) :
  forall sl lo hi n v b s,
    nth_error m v = Some b -> nth_error sl v = Some s ->
    nth_error (fst (reject m sl lo hi n)) v =
    Some (b && negb (is_outlier lo hi s)).
Proof.
  induction m as [|a m IH]; intros sl lo hi n v b s Hb Hs.
  - destruct v; discriminate.
  - destruct sl as [|t sl]; [destruct v; discriminate|]. simpl.
    destruct v as [|v]; simpl in Hb, Hs.
    + inversion Hb; inversion Hs; subst.
      destruct (b && is_outlier lo hi s) eqn:E.
      * destruct (reject m sl lo hi (n - 1)); simpl.
        apply andb_true_iff in E as [-> ->]. reflexivity.
      * destruct (reject m sl lo hi n); simpl. f_equal.
        destruct b, (is_outlier lo hi s); simpl in *; congruence.
    + destruct (a && is_outlier lo hi t).
      * specialize (IH sl lo hi (n - 1)%nat v b s Hb Hs).
        destruct (reject m sl lo hi (n - 1)); simpl in *. exact IH.
      * specialize (IH sl lo hi n v b s Hb Hs).
        destruct (reject m sl lo hi n); simpl in *. exact IH.
Qed.

(** The counter goes down once per deactivated voxel. *)
Lemma reject_count (m : list bool) :
  forall sl lo hi n,
    snd (reject m sl lo hi n) =
    (n - length (filter (is_outlier lo hi) (masked m sl)))%nat.
Proof.
  induction m as [|b m IH]; intros sl lo hi n; simpl; [lia|].
  destruct sl as [|s sl]; simpl; [lia|].
  destruct b; simpl.
  - destruct (is_outlier lo hi s); simpl.
    + specialize (IH sl lo hi (n - 1)%nat).
      destruct (reject m sl lo hi (n - 1)); simpl in *. lia.
    + specialize (IH sl lo hi n).
      destruct (reject m sl lo hi n); simpl in *. lia.
  - specialize (IH sl lo hi n).
    destruct (reject m sl lo hi n); simpl in *. lia.
Qed.

Lemma reject_count_true (m : list bool) :
  forall sl lo hi n,
    (count_true (fst (reject m sl lo hi n))
     + length (filter (is_outlier lo hi) (masked m sl)))%nat = count_true m.
Proof.
  unfold count_true.
  induction m as [|b m IH]; intros sl lo hi n; simpl; [lia|].
  destruct sl as [|s sl]; simpl; [lia|].
  destruct b; simpl.
  - destruct (is_outlier lo hi s); simpl.
    + specialize (IH sl lo hi (n - 1)%nat).
      destruct (reject m sl lo hi (n - 1)); simpl in *. lia.
    + specialize (IH sl lo hi n).
      destruct (reject m sl lo hi n); simpl in *. lia.
  - specialize (IH sl lo hi n).
    destruct (reject m sl lo hi n); simpl in *. lia.
Qed.

Lemma masked_length {A : Type} (m : list bool) :
  forall img : list A,
    (length m <= length img)%nat -> length (masked m img) = count_true m.
Proof.
  unfold count_true.
  induction m as [|b m IH]; intros img H; [reflexivity|].
  destruct img as [|x img]; simpl in *; [lia|].
  destruct b; simpl; rewrite IH; auto; lia.
Qed.

Lemma masked_In {A : Type} (m : list bool) :
  forall (img : list A) x,
    In x (masked m img) ->
    exists v, nth_error m v = Some true /\ nth_error img v = Some x.
Proof.
  induction m as [|b m IH]; intros img x H; [contradiction|].
  destruct img as [|y img]; [contradiction|]. simpl in H.
  destruct b.
  - destruct H as [->|H].
    + exists 0%nat. split; reflexivity.
    + destruct (IH _ _ H) as (v & Hv & Hx). exists (S v). auto.
  - destruct (IH _ _ H) as (v & Hv & Hx). exists (S v). auto.
Qed.

Lemma sorted_nth_le (l : list R) :
  StronglySorted Rle l ->
  forall i j a b, (i <= j)%nat -> nth_error l i = Some a ->
                  nth_error l j = Some b -> a <= b.
Proof.
  induction 1 as [|c l Hl IH Hc]; intros i j a b Hij Hi Hj.
  - destruct i; discriminate.
  - destruct j as [|j].
    + assert (i = 0)%nat by lia. subst i. simpl in Hi, Hj.
      inversion Hi; inversion Hj; subst. lra.
    + simpl in Hj. destruct i as [|i]; simpl in Hi.
      * inversion Hi; subst. rewrite Forall_forall in Hc.
        apply Hc. eapply nth_error_In; eauto.
      * eapply (IH i j); eauto. lia.
Qed.

Lemma count_true_witness (m : list bool) :
  forall v, nth_error m v = Some true -> (1 <= count_true m)%nat.
Proof.
  unfold count_true.
  induction m as [|b m IH]; intros [|v] H; simpl in *; try discriminate.
  - inversion H; subst. simpl. lia.
  - specialize (IH v H). destruct b; simpl; lia.
Qed.

Lemma summed_log_image_length (P : problem) (st : state) :
  length (summed_log_image P st) =
  Nat.min (length (combined_tissue P)) (length (norm_field_image st)).
Proof. unfold summed_log_image. now rewrite length_map, length_combine. Qed.

(** ** The rejection pass as a whole *)

Section Rejection.

Variable nth_element : nat -> nat -> list R -> list R.
Hypothesis nth_element_ok : nth_element_postcondition nth_element.

(** The pass computes its thresholds from the two order statistics and then
    runs the rejection loop; it is undefined when one of them is missing. *)
Lemma outlier_rejection_eq (P : problem) (range : R) (st : state) :
  let summed_log := summed_log_image P st in
  let values := masked (initial_mask P) summed_log in
  let N := length values in
  outlier_rejection nth_element P range st =
  match order_statistic (lower_quartile_index N) values,
        order_statistic (upper_quartile_index N) values with
  | Some Q1, Some Q3 =>
      let lo := Q1 - range * (Q3 - Q1) in
      let hi := Q3 + range * (Q3 - Q1) in
      Ok (set_mask (fst (reject (initial_mask P) summed_log lo hi N))
                   (snd (reject (initial_mask P) summed_log lo hi N))
                   (emit (Outlier_rejection range) st))
  | _, _ => Undefined
  end.
Proof.
  intros summed_log values N.
  pose proof (quartile_indices_ordered N) as [H13 H3].
  unfold outlier_rejection, deref.
  fold summed_log. fold values. fold N.
  destruct (first_selection nth_element nth_element_ok values
              (lower_quartile_index N)) as [_ ->]; [unfold N in *; lia|].
  rewrite (second_selection nth_element nth_element_ok values
             (lower_quartile_index N) (upper_quartile_index N))
    by (unfold N in *; lia).
  destruct (order_statistic (lower_quartile_index N) values) as [Q1|];
    simpl; [|reflexivity].
  destruct (order_statistic (upper_quartile_index N) values) as [Q3|];
    simpl; [|reflexivity].
  destruct (reject (initial_mask P) summed_log _ _ N). reflexivity.
Qed.

(** The pass is undefined exactly when the upper quartile position is not a
    position of the collected values. *)
Lemma outlier_rejection_undefined_iff (P : problem) (range : R) (st : state) :
  let N := length (masked (initial_mask P) (summed_log_image P st)) in
  outlier_rejection nth_element P range st = Undefined <->
  ~ (upper_quartile_index N < N)%nat.
Proof.
  intros N. rewrite outlier_rejection_eq. fold N.
  pose proof (quartile_indices_ordered N) as [H13 H3].
  unfold order_statistic.
  set (values := masked (initial_mask P) (summed_log_image P st)) in *.
  assert (HN : length (sort values) = N) by apply sort_length.
  clearbody N. clearbody values.
  destruct (nth_error (sort values) (upper_quartile_index N)) as [Q3|] eqn:E3.
  - assert (Hlt : (upper_quartile_index N < N)%nat).
    { rewrite <- HN at 2. apply nth_error_Some. rewrite E3. discriminate. }
    destruct (nth_error (sort values) (lower_quartile_index N)) as [Q1|] eqn:E1.
    + split; [discriminate | lia].
    + apply nth_error_None in E1. lia.
  - apply nth_error_None in E3.
    split; [lia|]. intros _.
    now destruct (nth_error (sort values) (lower_quartile_index N)).
Qed.

End Rejection.

(** ** What each step leaves untouched *)

Lemma bind_Ok {A B : Type} (m : outcome A) (k : A -> outcome B) (b : B) :
  bind m k = Ok b -> exists a, m = Ok a /\ k a = Ok b.
Proof. destruct m; simpl; intros H; try discriminate. eauto. Qed.

Section Frames.

Variable llt_solve : MatrixXd -> VectorXd -> VectorXd.
Variable nth_element : nat -> nat -> list R -> list R.
Variable P : problem.

Lemma outlier_rejection_frame (range : R) (st st' : state) :
  outlier_rejection nth_element P range st = Ok st' ->
  trace st' = trace st ++ [Outlier_rejection range] /\
  prev_mask st' = prev_mask st /\
  balance_factors st' = balance_factors st /\
  norm_field_log st' = norm_field_log st /\
  norm_field_image st' = norm_field_image st.
Proof.
  unfold outlier_rejection. intros H.
  apply bind_Ok in H as (q1 & _ & H).
  apply bind_Ok in H as (q3 & _ & H).
  destruct (reject _ _ _ _ _) in H. inversion H; subst; simpl. auto.
Qed.

Lemma balance_estimation_frame (st st' : state) :
  balance_estimation llt_solve P st = Ok st' ->
  trace st' = trace st ++ [Balance_estimated] /\
  mask st' = mask st /\
  prev_mask st' = prev_mask st /\
  num_voxels st' = num_voxels st /\
  norm_field_log st' = norm_field_log st /\
  norm_field_image st' = norm_field_image st.
Proof.
  unfold balance_estimation. intros H.
  apply bind_Ok in H as (log_sum & _ & H).
  inversion H; subst; simpl. auto 6.
Qed.

End Frames.

(** ** The schedule, read off the trace *)


Section Schedule.

Variable llt_solve : MatrixXd -> VectorXd -> VectorXd.
Variable nth_element : nat -> nat -> list R -> list R.
Variable P : problem.

Lemma balance_pass_trace (k : nat) (st st' : state) (c : bool) :
  balance_pass llt_solve nth_element P k st = Ok (st', c) ->
  exists p,
    trace st' = trace st ++ pass_events (n_tissue_types P) k p /\
    c = pass_converged p /\
    pass_mask p = mask st' /\
    pass_prev_mask p = prev_mask st /\
    norm_field_image st' = norm_field_image st.
Proof.
  unfold balance_pass. intros H.
  apply bind_Ok in H as (st1 & H1 & H).
  apply bind_Ok in H as (st2 & H2 & H).
  apply outlier_rejection_frame in H2 as (Ht2 & Hp2 & Hb2 & _ & Hi2).
  inversion H; subst; clear H. simpl in *.
  exists (mkPass (balance_factors st1) (mask st2) (prev_mask st)).
  unfold pass_events, pass_converged; simpl.
  destruct (1 <? n_tissue_types P)%nat.
  - apply balance_estimation_frame in H1 as (Ht1 & _ & Hp1 & _ & _ & Hi1).
    simpl in *. rewrite Ht2, Ht1, Hp2, Hp1, Hi2, Hi1.
    repeat split. now rewrite <- !app_assoc.
  - inversion H1; subst; simpl in *. rewrite Ht2, Hp2, Hi2.
    repeat split. now rewrite <- !app_assoc.
Qed.



End Schedule.

(** ** The grid of a run *)

Lemma accumulate_length (summed : list spec_float) (image : list (list spec_float)) :
  (length (accumulate summed image) <= length summed)%nat.
Proof. unfold accumulate. rewrite length_map, length_combine. lia. Qed.

Lemma fold_accumulate_length (images : list (list (list spec_float))) :
  forall summed,
    (length (fold_left accumulate images summed) <= length summed)%nat.
Proof.
  induction images as [|image images IH]; intros summed; simpl; [lia|].
  etransitivity; [apply IH | apply accumulate_length].
Qed.

Lemma refined_mask_length (inp : input) :
  (length (refined_mask inp) <= grid_size (problem_of inp))%nat.
Proof.
  unfold refined_mask, grid_size, problem_of, tissue_components; simpl.
  rewrite !length_map, length_combine, length_seq.
  etransitivity; [apply Nat.le_min_l|].
  unfold summed_tissue.
  etransitivity; [apply fold_accumulate_length|].
  now rewrite repeat_length.
Qed.

Lemma initial_state_on_grid (inp : input) :
  on_grid (problem_of inp) (initial_state inp).
Proof.
  split; [apply (refined_mask_length inp)|].
  unfold initial_state, grid_size, problem_of, tissue_components; simpl.
  now rewrite repeat_length, length_map, length_seq.
Qed.

(** On the grid, the rejection pass collects one value per voxel of the
    initial mask. *)
Lemma collected_length (P : problem) (st : state) :
  on_grid P st ->
  length (masked (initial_mask P) (summed_log_image P st)) =
  count_true (initial_mask P).
Proof.
  intros [Hm Hf]. apply masked_length.
  rewrite summed_log_image_length. unfold grid_size in *. lia.
Qed.

Section Outcomes.

Variable llt_solve : MatrixXd -> VectorXd -> VectorXd.
Variable nth_element : nat -> nat -> list R -> list R.
Hypothesis nth_element_ok : nth_element_postcondition nth_element.
Variable P : problem.

Lemma outlier_rejection_defined (range : R) (st : state) :
  on_grid P st ->
  (3 <= count_true (initial_mask P))%nat ->
  exists st', outlier_rejection nth_element P range st = Ok st' /\ on_grid P st'.
Proof.
  intros Hg HN.
  destruct (outlier_rejection nth_element P range st) as [st'| e |] eqn:E.
  - exists st'. split; [reflexivity|].
    apply outlier_rejection_frame in E as (_ & _ & _ & _ & Hi).
    destruct Hg as [Hm Hf]. split; [exact Hm | congruence].
  - rewrite outlier_rejection_eq in E by assumption.
    destruct (order_statistic _ _); [|discriminate].
    destruct (order_statistic _ _); discriminate.
  - apply outlier_rejection_undefined_iff in E; [|assumption].
    rewrite (collected_length P st Hg) in E.
    rewrite upper_quartile_index_valid in E. lia.
Qed.

Lemma outlier_rejection_too_few (range : R) (st : state) :
  on_grid P st ->
  (count_true (initial_mask P) < 3)%nat ->
  outlier_rejection nth_element P range st = Undefined.
Proof.
  intros Hg HN. apply outlier_rejection_undefined_iff; [assumption|].
  rewrite (collected_length P st Hg), upper_quartile_index_valid. lia.
Qed.

Lemma field_fit_on_grid (st : state) :
  on_grid P st -> on_grid P (field_fit llt_solve P st).
Proof.
  intros [Hm Hf]. split; [exact Hm|].
  unfold field_fit; simpl. now rewrite !length_map, length_seq.
Qed.

(** With a single tissue nothing can stop the iterations once the initial
    mask has three voxels. *)
Lemma balance_pass_single_tissue (k : nat) (st : state) :
  (n_tissue_types P <= 1)%nat -> on_grid P st ->
  (3 <= count_true (initial_mask P))%nat ->
  exists st' c,
    balance_pass llt_solve nth_element P k st = Ok (st', c) /\ on_grid P st'.
Proof.
  intros HT Hg HN. unfold balance_pass.
  destruct (Nat.ltb_spec 1 (n_tissue_types P)) as [Hlt|_]; [lia|]. simpl.
  set (st1 := emit _ (emit _ st)).
  assert (Hg1 : on_grid P st1) by exact Hg.
  destruct (outlier_rejection_defined (15 / 10) st1 Hg1 HN) as (st2 & -> & Hg2).
  simpl. eexists _, _. split; [reflexivity|]. exact Hg2.
Qed.

Lemma balance_loop_single_tissue (n : nat) :
  forall k st,
    (n_tissue_types P <= 1)%nat -> on_grid P st ->
    (3 <= count_true (initial_mask P))%nat ->
    exists st',
      balance_loop llt_solve nth_element P n k st = Ok st' /\ on_grid P st'.
Proof.
  induction n as [|n IH]; intros k st HT Hg HN; simpl.
  - eauto.
  - destruct (balance_pass_single_tissue k st HT Hg HN) as (st1 & c & -> & Hg1).
    simpl. destruct c; eauto.
Qed.

Lemma main_loop_single_tissue (n : nat) :
  forall i st,
    (n_tissue_types P <= 1)%nat -> on_grid P st ->
    (3 <= count_true (initial_mask P))%nat ->
    exists st', main_loop llt_solve nth_element P n i st = Ok st'.
Proof.
  induction n as [|n IH]; intros i st HT Hg HN; cbn [main_loop].
  - eauto.
  - destruct (balance_loop_single_tissue max_balance_iter 1
                (emit (INFO_Iteration i) st) HT Hg HN) as (st1 & -> & Hg1).
    cbn [bind]. apply IH; auto.
    apply (field_fit_on_grid st1) in Hg1. exact Hg1.
Qed.

Lemma iterate_single_tissue (st : state) :
  (n_tissue_types P <= 1)%nat -> on_grid P st ->
  (3 <= count_true (initial_mask P))%nat ->
  exists st', iterate llt_solve nth_element P st = Ok st'.
Proof.
  intros HT Hg HN. unfold iterate.
  destruct (outlier_rejection_defined 3 st Hg HN) as (st1 & -> & Hg1).
  cbn [bind]. apply main_loop_single_tissue; auto.
Qed.

End Outcomes.

(** A single-tissue run on an initial mask of three voxels or more
    completes, whatever the solver returns. *)
Lemma run_single_tissue_completes
    (llt_solve : MatrixXd -> VectorXd -> VectorXd)
    (nth_element : nat -> nat -> list R -> list R) (inp : input) :
  nth_element_postcondition nth_element ->
  (length (input_images inp) <= 1)%nat ->
  (3 <= count_true (refined_mask inp))%nat ->
  exists out, run llt_solve nth_element inp = Ok out.
Proof.
  intros Hne HT HN. unfold run.
  destruct (Nat.eqb_spec (count_true (refined_mask inp)) 0) as [E|_]; [lia|].
  destruct (iterate_single_tissue llt_solve nth_element Hne (problem_of inp)
              (initial_state inp) HT (initial_state_on_grid inp) HN)
    as (st & ->).
  simpl. eauto.
Qed.

(** ** The rejection pass: quartiles, thresholds and the mask *)

(** C4.  In a rejection pass with multiplier [range], let [values] be the
    [summed_log] values collected over the initial mask and [N] their number.
    The lower quartile [Q1] is the order statistic of [values] at the offset
    [std::round ((float) N * 0.25f)], the upper quartile [Q3] the one at
    [std::round ((float) N * 0.75f)], both computed in binary32; as long as
    [3 * N < 2^24] these offsets are [round (0.25 * N)] and
    [round (0.75 * N)].  The thresholds are [Q1 - range * (Q3 - Q1)] and
    [Q3 + range * (Q3 - Q1)]; a voxel is active afterwards exactly when it is
    in the initial mask and its [summed_log] is not strictly outside the
    closed interval between the thresholds; and [num_voxels] ends as [N]
    minus the number of deactivated voxels.  When one of the two order
    statistics does not exist the pass dereferences an iterator out of range
    and is undefined. *)
Theorem outlier_rejection_quartile_rule
    (nth_element : nat -> nat -> list R -> list R)
    (P : problem) (range : R) (st : state) :
  nth_element_postcondition nth_element ->
  let summed_log := summed_log_image P st in
  let values := masked (initial_mask P) summed_log in
  let N := length values in
  let lower_offset :=
    Z.to_nat (std_round (Float32.mul (Float32.of_nat N) Float32.quarter)) in
  let upper_offset :=
    Z.to_nat (std_round (Float32.mul (Float32.of_nat N)
                                     Float32.three_quarters)) in
  ((3 * Z.of_nat N < 2 ^ 24)%Z ->
   lower_offset = spec_quartile_index N (1 # 4) /\
   upper_offset = spec_quartile_index N (3 # 4)) /\
  match order_statistic lower_offset values,
        order_statistic upper_offset values
  with
  | Some Q1, Some Q3 =>
      let lower_threshold := Q1 - range * (Q3 - Q1) in
      let upper_threshold := Q3 + range * (Q3 - Q1) in
      exists st',
        outlier_rejection nth_element P range st = Ok st' /\
        length (mask st') = length (initial_mask P) /\
        (forall v b s,
            nth_error (initial_mask P) v = Some b ->
            nth_error summed_log v = Some s ->
            nth_error (mask st') v =
              Some (b && negb (is_outlier lower_threshold upper_threshold s)) /\
            (is_outlier lower_threshold upper_threshold s = false <->
             lower_threshold <= s <= upper_threshold)) /\
        num_voxels st' =
          (N - length (filter (is_outlier lower_threshold upper_threshold)
                              values))%nat
  | _, _ => outlier_rejection nth_element P range st = Undefined
  end.
Proof.
  intros Hne summed_log values N lower_offset upper_offset.
  change lower_offset with (lower_quartile_index N).
  change upper_offset with (upper_quartile_index N).
  split.
  { intros H3. change (2 ^ 24)%Z with 16777216%Z in H3.
    rewrite spec_lower_quartile_index_eq, spec_upper_quartile_index_eq.
    now apply quartile_index_exact. }
  pose proof (outlier_rejection_eq nth_element Hne P range st) as E.
  cbv zeta in E. fold summed_log in E. fold values in E. fold N in E.
  destruct (order_statistic (lower_quartile_index N) values) as [Q1|];
    [|exact E].
  destruct (order_statistic (upper_quartile_index N) values) as [Q3|];
    [|exact E].
  intros lo hi. eexists. split; [exact E|]. simpl.
  split; [apply reject_length|]. split.
  - intros v b s Hb Hs. split.
    + now apply reject_pointwise.
    + apply is_outlier_false_iff.
  - apply reject_count.
Qed.

Lemma outlier_rejection_quartile_rule_witness :
  nth_element_postcondition nth_element_by_sorting /\
  exists st',
    outlier_rejection nth_element_by_sorting (problem_of example_input) 3
                      (initial_state example_input) = Ok st' /\
    mask st' = [true; true; true] /\ num_voxels st' = 3%nat.
Proof.
  split; [exact nth_element_by_sorting_correct|].
  destruct (outlier_rejection_quartile_rule nth_element_by_sorting
              (problem_of example_input) 3 (initial_state example_input)
              nth_element_by_sorting_correct) as [_ H].
  cbv zeta in H.
  set (x := ln (weighted_sum [1] [Float32.to_R Float32.one] 1)).
  assert (Hv : masked (initial_mask (problem_of example_input))
                 (summed_log_image (problem_of example_input)
                    (initial_state example_input)) = [x; x; x])
    by reflexivity.
  assert (Hs : summed_log_image (problem_of example_input)
                 (initial_state example_input) = [x; x; x]) by reflexivity.
  rewrite Hv, Hs in H. clear Hv Hs.
  unfold order_statistic in H. rewrite three_equal_sorted in H.
  change (Z.to_nat (std_round (Float32.mul (Float32.of_nat (length [x; x; x]))
                                           Float32.quarter)))
    with 1%nat in H.
  change (Z.to_nat (std_round (Float32.mul (Float32.of_nat (length [x; x; x]))
                                           Float32.three_quarters)))
    with 2%nat in H.
  cbn [nth_error] in H.
  assert (Hin : is_outlier (x - 3 * (x - x)) (x + 3 * (x - x)) x = false).
  { apply is_outlier_false_iff. lra. }
  destruct H as (st' & Hrun & Hlen & Hpt & Hnum).
  exists st'. split; [exact Hrun|]. split.
  - destruct (mask st') as [|b0 [|b1 [|b2 [|b3 m]]]]; try discriminate Hlen.
    destruct (Hpt 0%nat true x eq_refl eq_refl) as [H0 _].
    destruct (Hpt 1%nat true x eq_refl eq_refl) as [H1 _].
    destruct (Hpt 2%nat true x eq_refl eq_refl) as [H2 _].
    rewrite Hin in H0, H1, H2. simpl in H0, H1, H2.
    inversion H0; inversion H1; inversion H2. reflexivity.
  - rewrite Hnum. simpl. rewrite Hin. reflexivity.
Defined.

(** *** A mask on which the offset is not the exact rounding *)

Lemma step_summed_log (k n : nat) :
  summed_log_image (step_problem k n) (step_state k n)
  = repeat 0 k ++ repeat (ln 2) n.
Proof.
  unfold summed_log_image, step_problem, step_state.
  cbn [combined_tissue norm_field_image balance_factors].
  assert (H1 : ln (weighted_sum [1] [1] 1) = 0).
  { unfold weighted_sum. cbn [combine fold_left fst snd].
    replace (0 + 1 * 1 / 1) with 1 by lra. apply ln_1. }
  assert (H2 : ln (weighted_sum [1] [2] 1) = ln 2).
  { unfold weighted_sum. cbn [combine fold_left fst snd].
    f_equal. lra. }
  induction k as [|k IH].
  - cbn [repeat app Nat.add]. induction n as [|n IHn]; [reflexivity|].
    cbn [repeat combine map fst snd]. now rewrite H2, IHn.
  - cbn [repeat app Nat.add combine map fst snd]. now rewrite H1, IH.
Qed.

Lemma masked_all_true {A : Type} (l : list A) :
  masked (repeat true (length l)) l = l.
Proof. induction l as [|x l IH]; simpl; [reflexivity | now rewrite IH]. Qed.

Lemma sort_of_sorted (l : list R) : StronglySorted Rle l -> sort l = l.
Proof.
  intros H. apply sorted_perm_unique; [apply sort_sorted | exact H|].
  apply sort_perm.
Qed.

Lemma ln_2_pos : 0 < ln 2.
Proof. rewrite <- ln_1. apply ln_increasing; lra. Qed.

Lemma step_sorted (k n : nat) :
  StronglySorted Rle (repeat 0 k ++ repeat (ln 2) n).
Proof.
  pose proof ln_2_pos as Hp.
  assert (Hrep : forall (x : R) m, StronglySorted Rle (repeat x m)).
  { intros x m. induction m as [|m IH]; cbn [repeat]; constructor;
      [exact IH|].
    apply Forall_forall. intros y Hy. apply repeat_spec in Hy. subst y. lra. }
  apply sorted_app; [apply Hrep | apply Hrep|].
  intros a b Ha Hb. apply repeat_spec in Ha, Hb. subst. lra.
Qed.

Lemma step_nth (k n i : nat) :
  nth_error (repeat 0 k ++ repeat (ln 2) n) i
  = if (i <? k)%nat then Some 0
    else if (i <? k + n)%nat then Some (ln 2) else None.
Proof.
  destruct (Nat.ltb_spec i k) as [Hik|Hik].
  - rewrite nth_error_app1 by (now rewrite repeat_length).
    now apply nth_error_repeat.
  - rewrite nth_error_app2 by (now rewrite repeat_length).
    rewrite repeat_length.
    destruct (Nat.ltb_spec i (k + n)) as [Hin|Hin].
    + apply nth_error_repeat. lia.
    + apply nth_error_None. rewrite repeat_length. lia.
Qed.

Lemma step_values (k n : nat) :
  masked (initial_mask (step_problem k n))
         (summed_log_image (step_problem k n) (step_state k n))
  = repeat 0 k ++ repeat (ln 2) n.
Proof.
  rewrite step_summed_log.
  change (initial_mask (step_problem k n)) with (repeat true (k + n)).
  rewrite <- (masked_all_true (repeat 0 k ++ repeat (ln 2) n)) at 2.
  now rewrite length_app, !repeat_length.
Qed.

(** When both offsets fall among the first [k] values, both quartiles are 0,
    both thresholds are 0 whatever the multiplier, and the pass deactivates
    the voxels of value 2. *)
Lemma step_pass (k n : nat) (range : R) :
  (upper_quartile_index (k + n) < k)%nat -> (1 <= n)%nat ->
  exists st',
    outlier_rejection nth_element_by_sorting (step_problem k n) range
                      (step_state k n) = Ok st' /\
    nth_error (mask st') 0 = Some true /\
    nth_error (mask st') k = Some false.
Proof.
  intros HU Hn.
  pose proof (quartile_indices_ordered (k + n)) as [H13 _].
  pose proof ln_2_pos as Hp.
  rewrite (outlier_rejection_eq nth_element_by_sorting
             nth_element_by_sorting_correct).
  rewrite step_values, step_summed_log.
  rewrite length_app, !repeat_length.
  unfold order_statistic. rewrite (sort_of_sorted _ (step_sorted k n)).
  rewrite !step_nth.
  destruct (Nat.ltb_spec (lower_quartile_index (k + n)) k) as [_|H]; [|lia].
  destruct (Nat.ltb_spec (upper_quartile_index (k + n)) k) as [_|H]; [|lia].
  eexists. split; [reflexivity|]. cbn [mask set_mask].
  change (initial_mask (step_problem k n)) with (repeat true (k + n)).
  split.
  - rewrite (reject_pointwise _ _ _ _ _ 0%nat true 0).
    + f_equal. apply negb_true_iff, is_outlier_false_iff. lra.
    + apply nth_error_repeat. lia.
    + rewrite step_nth. destruct (Nat.ltb_spec 0 k) as [_|H]; [reflexivity|lia].
  - rewrite (reject_pointwise _ _ _ _ _ k true (ln 2)).
    + f_equal. apply negb_false_iff. unfold is_outlier.
      apply orb_true_iff. right. unfold Rltb.
      destruct (Rlt_dec _ _) as [_|Hno]; [reflexivity|].
      exfalso. apply Hno. lra.
    + apply nth_error_repeat. lia.
    + rewrite step_nth. destruct (Nat.ltb_spec k k) as [H|_]; [lia|].
      destruct (Nat.ltb_spec k (k + n)) as [_|H]; [reflexivity | lia].
Qed.

(** C4, refuted as stated.  For [N = 11184814] values the product
    [(float) N * 0.75f = 8388610.5] is rounded to 24 bits before [std::round]
    sees it: the upper offset is 8388610, and [round (0.75 * N)] is 8388611.
    Take a mask of that size whose tissue is 1 at the first 8388611 voxels
    and 2 at the others.  The pass of range 3 reads the upper quartile at
    offset 8388610, where the statistic is 0 as at the lower offset, so both
    thresholds are 0 and the voxels of value 2 are deactivated; the order
    statistic at [round (0.75 * N)] is [ln 2], and with it no voxel would be
    outside the thresholds. *)
Lemma quartile_offset_is_not_the_exact_rounding :
  let N := Z.to_nat 11184814 in
  let k := Z.to_nat 8388611 in
  let n := Z.to_nat 2796203 in
  let values :=
    masked (initial_mask (step_problem k n))
           (summed_log_image (step_problem k n) (step_state k n)) in
  length values = N /\
  lower_quartile_index N = spec_quartile_index N (1 # 4) /\
  upper_quartile_index N = Z.to_nat 8388610 /\
  spec_quartile_index N (3 # 4) = Z.to_nat 8388611 /\
  order_statistic (lower_quartile_index N) values = Some 0 /\
  order_statistic (upper_quartile_index N) values = Some 0 /\
  order_statistic (spec_quartile_index N (3 # 4)) values = Some (ln 2) /\
  nth_error (summed_log_image (step_problem k n) (step_state k n)) k
  = Some (ln 2) /\
  is_outlier (0 - 3 * (ln 2 - 0)) (ln 2 + 3 * (ln 2 - 0)) (ln 2) = false /\
  exists st',
    outlier_rejection nth_element_by_sorting (step_problem k n) 3
                      (step_state k n) = Ok st' /\
    nth_error (mask st') k = Some false.
Proof.
  intros N k n values.
  assert (HN : (k + n)%nat = N) by (unfold k, n, N; lia).
  assert (HL : lower_quartile_index N = Z.to_nat 2796204).
  { unfold N, lower_quartile_index, quartile_index, Float32.of_nat.
    rewrite Z2Nat.id by lia. apply f_equal. vm_compute. reflexivity. }
  assert (HU : upper_quartile_index N = Z.to_nat 8388610).
  { unfold N, upper_quartile_index, quartile_index, Float32.of_nat.
    rewrite Z2Nat.id by lia. apply f_equal. vm_compute. reflexivity. }
  assert (HSL : spec_quartile_index N (1 # 4) = Z.to_nat 2796204).
  { rewrite spec_quartile_index_closed_form by lia. unfold N.
    rewrite Z2Nat.id by lia. apply f_equal. vm_compute. reflexivity. }
  assert (HSU : spec_quartile_index N (3 # 4) = Z.to_nat 8388611).
  { rewrite spec_quartile_index_closed_form by lia. unfold N.
    rewrite Z2Nat.id by lia. apply f_equal. vm_compute. reflexivity. }
  assert (Hvalues : values = repeat 0 k ++ repeat (ln 2) n)
    by apply step_values.
  pose proof ln_2_pos as Hp.
  split; [rewrite Hvalues, length_app, !repeat_length; exact HN|].
  split; [rewrite HL, HSL; reflexivity|]. split; [exact HU|].
  split; [exact HSU|].
  rewrite Hvalues. unfold order_statistic.
  rewrite (sort_of_sorted _ (step_sorted k n)), !step_nth, step_summed_log,
    step_nth.
  rewrite HL, HU, HSU. fold k.
  destruct (Nat.ltb_spec (Z.to_nat 2796204) k) as [_|H]; [|unfold k in H; lia].
  destruct (Nat.ltb_spec (Z.to_nat 8388610) k) as [_|H]; [|unfold k in H; lia].
  destruct (Nat.ltb_spec k k) as [H|_]; [lia|].
  destruct (Nat.ltb_spec k (k + n)) as [_|H]; [|unfold n in H; lia].
  split; [reflexivity|]. split; [reflexivity|]. split; [reflexivity|].
  split; [reflexivity|]. split; [apply is_outlier_false_iff; lra|].
  destruct (step_pass k n 3) as (st' & Hrun & _ & Hk).
  - rewrite HN, HU. unfold k. lia.
  - unfold n. lia.
  - exists st'. split; [exact Hrun | exact Hk].
Qed.

(** C9.  A rejection pass on the grid, with valid quartile positions, returns;
    on exit every active voxel is a voxel of the initial mask, [num_voxels]
    is the number of active voxels, and for a multiplier [range >= 0] at
    least one voxel is still active. *)
Theorem outlier_rejection_invariant
    (nth_element : nat -> nat -> list R -> list R)
    (P : problem) (range : R) (st : state) :
  nth_element_postcondition nth_element ->
  on_grid P st ->
  (upper_quartile_index (count_true (initial_mask P))
   < count_true (initial_mask P))%nat ->
  exists st',
    outlier_rejection nth_element P range st = Ok st' /\
    (forall v, nth_error (mask st') v = Some true ->
               nth_error (initial_mask P) v = Some true) /\
    num_voxels st' = count_true (mask st') /\
    (0 <= range -> (1 <= count_true (mask st'))%nat).
Proof.
  intros Hne Hg Hvalid.
  pose proof (collected_length P st Hg) as HN.
  pose proof (outlier_rejection_eq nth_element Hne P range st) as E.
  cbv zeta in E. rewrite HN in E.
  set (N := count_true (initial_mask P)) in *.
  set (sl := summed_log_image P st) in *.
  set (values := masked (initial_mask P) sl) in *.
  pose proof (quartile_indices_ordered N) as [H13 _].
  assert (Hsl : (length (initial_mask P) <= length sl)%nat).
  { unfold sl. rewrite summed_log_image_length.
    destruct Hg as [Hm Hf]. unfold grid_size in *. lia. }
  unfold order_statistic in E.
  destruct (nth_error (sort values) (lower_quartile_index N)) as [Q1|] eqn:E1;
    [|apply nth_error_None in E1; rewrite sort_length in E1; lia].
  destruct (nth_error (sort values) (upper_quartile_index N)) as [Q3|] eqn:E3;
    [|apply nth_error_None in E3; rewrite sort_length in E3; lia].
  cbv zeta in E.
  set (lo := Q1 - range * (Q3 - Q1)) in *.
  set (hi := Q3 + range * (Q3 - Q1)) in *.
  eexists. split; [exact E|]. simpl. split; [|split].
  - intros v Hv.
    assert (Hlt : (v < length (initial_mask P))%nat).
    { rewrite <- (reject_length (initial_mask P) sl lo hi N).
      apply nth_error_Some. rewrite Hv. discriminate. }
    destruct (nth_error (initial_mask P) v) as [b|] eqn:Eb;
      [|apply nth_error_None in Eb; lia].
    destruct (nth_error sl v) as [s|] eqn:Es;
      [|apply nth_error_None in Es; lia].
    rewrite (reject_pointwise _ _ _ _ _ _ _ _ Eb Es) in Hv.
    injection Hv as Hb. apply andb_true_iff in Hb as [Hb _]. now rewrite Hb.
  - rewrite reject_count.
    pose proof (reject_count_true (initial_mask P) sl lo hi N) as Hc.
    fold values. fold N in Hc. fold values in Hc. lia.
  - intros Hrange.
    assert (Hle : Q1 <= Q3).
    { exact (sorted_nth_le (sort values) (sort_sorted values) _ _ Q1 Q3 H13 E1 E3). }
    assert (Hin : In Q1 values).
    { eapply Permutation_in; [apply sort_perm|].
      eapply nth_error_In; eauto. }
    apply masked_In in Hin as (v & Hv & Hs).
    apply (count_true_witness _ v).
    rewrite (reject_pointwise _ _ _ _ _ _ _ _ Hv Hs).
    assert (Hk : is_outlier lo hi Q1 = false).
    { apply is_outlier_false_iff. unfold lo, hi. nra. }
    now rewrite Hk.
Qed.

Lemma outlier_rejection_invariant_witness :
  exists st',
    outlier_rejection nth_element_by_sorting (problem_of example_input)
                      (15 / 10) (initial_state example_input) = Ok st' /\
    num_voxels st' = count_true (mask st') /\
    (1 <= count_true (mask st'))%nat.
Proof.
  destruct (outlier_rejection_invariant nth_element_by_sorting
              (problem_of example_input) (15 / 10)
              (initial_state example_input)
              nth_element_by_sorting_correct
              (initial_state_on_grid example_input))
    as (st' & Hrun & _ & Hnum & Hpos).
  - vm_compute. lia.
  - exists st'. split; [exact Hrun|]. split; [exact Hnum|].
    apply Hpos. lra.
Defined.

(** ** The upper quartile position can be one past the end *)

(** C10.  The upper quartile is read at position [round (0.75 * N)] of the [N]
    collected values.  For [N = 1] and [N = 2] that position is [N] itself,
    one past the end; it is a position of the list exactly when [3 <= N].
    The pass is undefined exactly when it is not, and a run whose initial
    mask has one or two voxels reaches that access. *)
Theorem upper_quartile_out_of_range
    (nth_element : nat -> nat -> list R -> list R) :
  nth_element_postcondition nth_element ->
  upper_quartile_index 1 = 1%nat /\
  upper_quartile_index 2 = 2%nat /\
  (forall N, (upper_quartile_index N < N)%nat <-> (3 <= N)%nat) /\
  (forall P range st,
      outlier_rejection nth_element P range st = Undefined <->
      ~ (upper_quartile_index
           (length (masked (initial_mask P) (summed_log_image P st)))
         < length (masked (initial_mask P) (summed_log_image P st)))%nat) /\
  (forall llt_solve inp,
      (1 <= count_true (refined_mask inp) <= 2)%nat ->
      run llt_solve nth_element inp = Undefined).
Proof.
  intros Hne. split; [reflexivity|]. split; [reflexivity|].
  split; [exact upper_quartile_index_valid|]. split.
  - intros P range st. now apply outlier_rejection_undefined_iff.
  - intros llt_solve inp HN. unfold run.
    destruct (Nat.eqb_spec (count_true (refined_mask inp)) 0) as [E|_]; [lia|].
    unfold iterate.
    rewrite (outlier_rejection_too_few nth_element Hne (problem_of inp) 3
               (initial_state inp) (initial_state_on_grid inp)).
    + reflexivity.
    + simpl. lia.
Qed.

Lemma upper_quartile_out_of_range_witness :
  nth_element_postcondition nth_element_by_sorting /\
  count_true (refined_mask one_voxel_input) = 1%nat /\
  run echo_solve nth_element_by_sorting one_voxel_input = Undefined.
Proof.
  split; [exact nth_element_by_sorting_correct|].
  split; [reflexivity|].
  apply (upper_quartile_out_of_range nth_element_by_sorting
           nth_element_by_sorting_correct).
  vm_compute. lia.
Defined.

(** ** The schedule of the controller *)




(** *** The masks the passes compare *)





Section Records.

Variable llt_solve : MatrixXd -> VectorXd -> VectorXd.
Variable nth_element : nat -> nat -> list R -> list R.
Variable P : problem.





End Records.



(** ** Balance factors *)

Lemma fold_log_shift (factors : VectorXd) :
  forall acc, fold_left (fun s b => s + ln b) factors acc = acc + log_sum factors.
Proof.
  unfold log_sum.
  induction factors as [|b factors IH]; intros acc; simpl; [lra|].
  rewrite IH, (IH (0 + ln b)). lra.
Qed.

Lemma check_factors_positive (factors : VectorXd) :
  forall j acc,
    Forall (fun b => 0 < b) factors ->
    check_factors j factors acc = Ok (acc + log_sum factors).
Proof.
  induction factors as [|b factors IH]; intros j acc H; simpl.
  - unfold log_sum; simpl. f_equal. lra.
  - inversion H as [|? ? Hb Hrest]; subst.
    unfold Rleb. destruct (Rle_dec b 0) as [Hle|_]; [lra|].
    rewrite IH by assumption. f_equal.
    unfold log_sum at 2; simpl. rewrite fold_log_shift. lra.
Qed.

Lemma check_factors_first_non_positive (factors : VectorXd) :
  forall j acc,
    (exists b, In b factors /\ b <= 0) ->
    exists i b,
      nth_error factors i = Some b /\ b <= 0 /\
      (forall i' c, (i' < i)%nat -> nth_error factors i' = Some c -> 0 < c) /\
      check_factors j factors acc = Throw (non_positive_factor (j + i) b).
Proof.
  induction factors as [|a factors IH]; intros j acc (b & Hin & Hb).
  - contradiction.
  - simpl. unfold Rleb. destruct (Rle_dec a 0) as [Ha|Ha].
    + exists 0%nat, a. repeat split; auto.
      * intros i' c Hi'. lia.
      * now rewrite Nat.add_0_r.
    + destruct Hin as [->|Hin]; [lra|].
      destruct (IH (S j) (acc + ln a)) as (i & c & Hi & Hc & Hfirst & Hthrow);
        [eauto|].
      exists (S i), c. repeat split; auto.
      * intros [|i'] d Hlt Hd; simpl in Hd.
        -- inversion Hd; subst. lra.
        -- apply (Hfirst i'); [lia | exact Hd].
      * rewrite Hthrow. now rewrite Nat.add_succ_r.
Qed.

Lemma log_sum_scaled (factors : VectorXd) (g : R) :
  0 < g -> Forall (fun b => 0 < b) factors ->
  log_sum (map (fun b => b / g) factors) =
  log_sum factors - INR (length factors) * ln g.
Proof.
  intros Hg. induction 1 as [|b factors Hb Hrest IH].
  - unfold log_sum; simpl. lra.
  - unfold log_sum. cbn [map fold_left length].
    rewrite !fold_log_shift, IH, S_INR.
    unfold Rdiv. rewrite ln_mult, ln_Rinv; auto using Rinv_0_lt_compat. lra.
Qed.

Lemma exp_log_sum (factors : VectorXd) :
  Forall (fun b => 0 < b) factors ->
  exp (log_sum factors) = fold_right Rmult 1 factors.
Proof.
  induction 1 as [|b factors Hb Hrest IH].
  - unfold log_sum; simpl. apply exp_0.
  - unfold log_sum. cbn [fold_left fold_right].
    rewrite fold_log_shift, Rplus_0_l, exp_plus, exp_ln, IH; auto.
Qed.

Lemma exp_pow_INR (x : R) (n : nat) : exp x ^ n = exp (INR n * x).
Proof.
  induction n as [|n IH].
  - simpl. now rewrite Rmult_0_l, exp_0.
  - rewrite S_INR. simpl pow. rewrite IH, <- exp_plus. f_equal. lra.
Qed.

(** C6.  With more than one tissue, a balance estimation whose solution is
    strictly positive returns, and the factors it leaves are the solution
    divided by its geometric mean [g] (the positive number whose power [T]
    is the product of the solution); the logarithms of the factors it leaves
    sum to zero, hence to less than 1e-9 in absolute value. *)
Theorem balance_factors_normalised
    (llt_solve : MatrixXd -> VectorXd -> VectorXd)
    (P : problem) (st : state) :
  (1 < n_tissue_types P)%nat ->
  length (Choleski llt_solve (balance_design P st) (repeat 1 (num_voxels st)))
    = n_tissue_types P ->
  Forall (fun b => 0 < b)
         (Choleski llt_solve (balance_design P st) (repeat 1 (num_voxels st))) ->
  let solution :=
    Choleski llt_solve (balance_design P st) (repeat 1 (num_voxels st)) in
  let g := exp (log_sum solution / INR (n_tissue_types P)) in
  exists st',
    balance_estimation llt_solve P st = Ok st' /\
    balance_factors st' = map (fun b => b / g) solution /\
    0 < g /\ g ^ n_tissue_types P = fold_right Rmult 1 solution /\
    log_sum (balance_factors st') = 0 /\
    Rabs (log_sum (balance_factors st')) <= 1 / 10 ^ 9.
Proof.
  intros HT Hlen Hpos solution g.
  assert (HT0 : INR (n_tissue_types P) <> 0).
  { apply not_0_INR. lia. }
  assert (Hg : 0 < g) by apply exp_pos.
  assert (Hzero : log_sum (map (fun b => b / g) solution) = 0).
  { rewrite log_sum_scaled by assumption.
    unfold g. rewrite ln_exp. fold solution in Hlen. rewrite Hlen.
    field. exact HT0. }
  unfold balance_estimation. fold solution.
  rewrite check_factors_positive by assumption.
  rewrite Rplus_0_l. cbn [bind]. fold g.
  eexists. split; [reflexivity|]. cbn [balance_factors set_balance_factors].
  split; [reflexivity|]. split; [exact Hg|]. split; [|split].
  - unfold g. rewrite exp_pow_INR.
    replace (INR (n_tissue_types P) * (log_sum solution / INR (n_tissue_types P)))
      with (log_sum solution) by (field; exact HT0).
    now apply exp_log_sum.
  - exact Hzero.
  - rewrite Hzero, Rabs_R0. apply Rlt_le, Rdiv_lt_0_compat; [lra|].
    apply pow_lt. lra.
Qed.

(** C7.  With more than one tissue, when the solution of a balance estimation
    has an entry that is not strictly positive, the estimation throws the
    message that names the first such entry, by its index counted from one,
    and its value as solved, before any rescaling; the throw ends the pass,
    the balance loop and the outer loop that contain it, and whatever was to
    follow the pass is not run. *)
Theorem non_positive_factor_aborts
    (llt_solve : MatrixXd -> VectorXd -> VectorXd)
    (nth_element : nat -> nat -> list R -> list R)
    (P : problem) (st : state) :
  (1 < n_tissue_types P)%nat ->
  (exists b,
      In b (Choleski llt_solve (balance_design P st) (repeat 1 (num_voxels st)))
      /\ b <= 0) ->
  let solution :=
    Choleski llt_solve (balance_design P st) (repeat 1 (num_voxels st)) in
  exists j b,
    nth_error solution j = Some b /\ b <= 0 /\
    (forall i c, (i < j)%nat -> nth_error solution i = Some c -> 0 < c) /\
    let message :=
      [Lit "Non-positive tissue balance factor was computed. Tissue index: ";
       StrNat (j + 1); Lit " Balance factor: "; StrDouble b;
       Lit " Needs to be strictly positive!"] in
    balance_estimation llt_solve P st = Throw message /\
    (forall k, balance_pass llt_solve nth_element P k st = Throw message) /\
    (forall n k,
        balance_loop llt_solve nth_element P (S n) k st = Throw message) /\
    (forall n i, main_loop llt_solve nth_element P (S n) i st = Throw message) /\
    (forall (B : Type) (rest : state * bool -> outcome B) k,
        (r <- balance_pass llt_solve nth_element P k st ;; rest r)
        = Throw message).
Proof.
  intros HT Hbad solution.
  destruct (check_factors_first_non_positive solution 0 0 Hbad)
    as (j & b & Hj & Hb & Hfirst & Hthrow).
  exists j, b. split; [exact Hj|]. split; [exact Hb|]. split; [exact Hfirst|].
  intros message.
  assert (Hest : forall e,
             balance_estimation llt_solve P (emit e st) = Throw message).
  { intros e. unfold balance_estimation.
    change (Choleski llt_solve (balance_design P (emit e st))
              (repeat 1 (num_voxels (emit e st)))) with solution.
    rewrite Hthrow. reflexivity. }
  assert (Hpass : forall k,
             balance_pass llt_solve nth_element P k st = Throw message).
  { intros k. unfold balance_pass.
    destruct (Nat.ltb_spec 1 (n_tissue_types P)) as [_|Hge]; [|lia].
    rewrite Hest. reflexivity. }
  split; [|split; [exact Hpass|split; [|split]]].
  - unfold balance_estimation. fold solution. rewrite Hthrow. reflexivity.
  - intros n k. cbn [balance_loop]. rewrite Hpass. reflexivity.
  - intros n i. cbn [main_loop].
    unfold max_balance_iter, DEFAULT_BALANCE_MAXITER_VALUE.
    cbn [balance_loop]. unfold balance_pass.
    destruct (Nat.ltb_spec 1 (n_tissue_types P)) as [_|Hge]; [|lia].
    unfold balance_estimation.
    change (Choleski llt_solve
              (balance_design P (emit (DEBUG_balance_starts 1)
                                      (emit (INFO_Iteration i) st)))
              (repeat 1 (num_voxels (emit (DEBUG_balance_starts 1)
                                          (emit (INFO_Iteration i) st)))))
      with solution.
    rewrite Hthrow. reflexivity.
  - intros B rest k. rewrite Hpass. reflexivity.
Qed.

Lemma balance_factors_normalised_witness :
  exists st',
    balance_estimation echo_solve two_tissue_problem two_tissue_state = Ok st' /\
    log_sum (balance_factors st') = 0.
Proof.
  destruct (balance_factors_normalised echo_solve two_tissue_problem
              two_tissue_state) as (st' & Hrun & _ & _ & _ & Hzero & _).
  - simpl. lia.
  - reflexivity.
  - unfold Choleski, echo_solve, transpose_times, dot. simpl.
    repeat constructor; lra.
  - exists st'. split; [exact Hrun | exact Hzero].
Defined.

Lemma non_positive_factor_aborts_witness :
  balance_estimation opposite_solve two_tissue_problem two_tissue_state
  = Throw (non_positive_factor 0 (- (0 + 1 / 1 * 1 + 1 / 1 * 1 + 1 / 1 * 1))).
Proof.
  destruct (non_positive_factor_aborts opposite_solve nth_element_by_sorting
              two_tissue_problem two_tissue_state)
    as (j & b & Hj & Hb & Hfirst & Hthrow & _).
  - simpl. lia.
  - eexists. split; [left; reflexivity|].
    unfold transpose_times, dot. simpl. lra.
  - destruct j as [|j].
    + injection Hj as <-. exact Hthrow.
    + exfalso.
      assert (H : 0 < - (0 + 1 / 1 * 1 + 1 / 1 * 1 + 1 / 1 * 1)).
      { apply (Hfirst 0%nat); [lia | reflexivity]. }
      lra.
Defined.

(** ** The initial mask *)

Lemma nth_error_combine {A B : Type} (l : list A) :
  forall (l' : list B) v a b,
    nth_error (combine l l') v = Some (a, b) <->
    nth_error l v = Some a /\ nth_error l' v = Some b.
Proof.
  induction l as [|x l IH]; intros [|y l'] [|v] a b; simpl;
    try (split; [discriminate | intros [H1 H2]; discriminate]).
  - split; [intros H; inversion H; auto | intros [H1 H2]; congruence].
  - apply IH.
Qed.

Lemma mask_refiner_true_iff (summed : spec_float) (m : bool) :
  mask_refiner summed m = true <->
  m = true /\ exists mant e, summed = S754_finite false mant e.
Proof.
  unfold mask_refiner, Float32.isfinite, Float32.ltb, Float32.zero, SFltb.
  destruct summed as [s|s| |s mant e]; simpl.
  - split; [discriminate | intros (_ & ? & ? & H); discriminate].
  - split; [discriminate | intros (_ & ? & ? & H); discriminate].
  - split; [discriminate | intros (_ & ? & ? & H); discriminate].
  - destruct s; simpl.
    + split; [discriminate | intros (_ & ? & ? & H); discriminate].
    + destruct m; split; try discriminate; eauto.
      intros (H & _); discriminate.
Qed.

Lemma accumulate_nth (summed : list spec_float)
    (image : list (list spec_float)) (v : nat) (s : spec_float) :
  nth_error (accumulate summed image) v = Some s ->
  exists s0 row,
    nth_error summed v = Some s0 /\ nth_error image v = Some row /\
    s = Float32.add s0 (value0 row).
Proof.
  unfold accumulate. rewrite nth_error_map.
  destruct (nth_error (combine summed image) v) as [[s0 row]|] eqn:E;
    simpl; [|discriminate].
  intros H. injection H as <-.
  apply nth_error_combine in E as [H1 H2]. exists s0, row. auto.
Qed.

(** The summed value of a voxel is the sum, in order, of the first volumes of
    the tissues at that voxel. *)
Lemma fold_accumulate_nth (images : list (list (list spec_float))) :
  forall summed v s,
    nth_error (fold_left accumulate images summed) v = Some s ->
    exists s0 rows,
      nth_error summed v = Some s0 /\
      Forall2 (fun image row => nth_error image v = Some row) images rows /\
      s = fold_left (fun a row => Float32.add a (value0 row)) rows s0.
Proof.
  induction images as [|image images IH]; intros summed v s H; simpl in H.
  - exists s, []. repeat split; [exact H | constructor].
  - apply IH in H as (s1 & rows & H1 & Hrows & ->).
    apply accumulate_nth in H1 as (s0 & row & H0 & Hrow & ->).
    exists s0, (row :: rows). repeat split; [exact H0 | now constructor].
Qed.

(** C8.  The summed tissue value of a voxel is the binary32 sum, taken in
    the order of the inputs from zero, of the first volumes of the tissue
    images at that voxel.  A voxel is in the initial mask exactly when that
    sum is finite and strictly positive (which is to say a positive finite
    non-zero binary32 value, so neither a NaN nor a sum that is zero or
    negative) and the supplied mask is set; and a run whose initial mask has
    no voxel throws "Mask contains no valid voxels." in place of any
    iteration or output. *)
Theorem initial_mask_rule
    (llt_solve : MatrixXd -> VectorXd -> VectorXd)
    (nth_element : nat -> nat -> list R -> list R) (inp : input) :
  (forall v summed,
      nth_error (summed_tissue inp) v = Some summed ->
      exists rows,
        Forall2 (fun image row => nth_error image v = Some row)
                (input_images inp) rows /\
        summed = fold_left (fun sum row => Float32.add sum (nth 0 row Float32.zero))
                           rows Float32.zero) /\
  (forall v,
      nth_error (refined_mask inp) v = Some true <->
      exists summed,
        nth_error (summed_tissue inp) v = Some summed /\
        (Float32.isfinite summed = true /\
         Float32.ltb Float32.zero summed = true) /\
        (exists mant e, summed = S754_finite false mant e) /\
        nth_error (orig_mask inp) v = Some true) /\
  (forall m, mask_refiner S754_nan m = false) /\
  (forall s m, mask_refiner (S754_zero s) m = false) /\
  (forall mant e m, mask_refiner (S754_finite true mant e) m = false) /\
  (count_true (refined_mask inp) = 0%nat ->
   run llt_solve nth_element inp = Throw [Lit "Mask contains no valid voxels."]).
Proof.
  split; [|split; [|split; [|split; [|split]]]].
  - intros v summed Hs. unfold summed_tissue in Hs.
    apply fold_accumulate_nth in Hs as (s0 & rows & H0 & Hrows & ->).
    apply nth_error_In, repeat_spec in H0. subst s0.
    exists rows. split; [exact Hrows | reflexivity].
  - intros v. unfold refined_mask. rewrite nth_error_map. split.
    + destruct (nth_error (combine (summed_tissue inp) (orig_mask inp)) v)
        as [[s m]|] eqn:E; simpl; [|discriminate].
      intros H. injection H as H.
      apply nth_error_combine in E as [Hs Hm].
      pose proof H as H'. apply mask_refiner_true_iff in H' as [-> Hpos].
      exists s. repeat split; auto.
      * unfold mask_refiner in H.
        now apply andb_true_iff in H as [H _]; apply andb_true_iff in H as [H _].
      * unfold mask_refiner in H.
        now apply andb_true_iff in H as [H _]; apply andb_true_iff in H as [_ H].
    + intros (s & Hs & _ & Hpos & Hm).
      assert (E : nth_error (combine (summed_tissue inp) (orig_mask inp)) v
                  = Some (s, true)) by (apply nth_error_combine; auto).
      rewrite E. simpl. f_equal. apply mask_refiner_true_iff. auto.
  - reflexivity.
  - intros [|] m; reflexivity.
  - reflexivity.
  - intros H. unfold run. now rewrite H.
Qed.

Lemma initial_mask_rule_witness :
  summed_tissue cancelling_input = [S754_zero false; S754_nan] /\
  refined_mask cancelling_input = [false; false] /\
  run echo_solve nth_element_by_sorting cancelling_input
  = Throw [Lit "Mask contains no valid voxels."].
Proof.
  split; [reflexivity|]. split; [reflexivity|].
  apply (initial_mask_rule echo_solve nth_element_by_sorting cancelling_input).
  reflexivity.
Defined.

(** ** The solver reports nothing *)

Lemma bind_Throw {A B : Type} (m : outcome A) (k : A -> outcome B)
    (e : Exception) :
  bind m k = Throw e -> m = Throw e \/ exists a, m = Ok a /\ k a = Throw e.
Proof.
  destruct m; simpl; intros H; try discriminate; [right; eauto | left; now inversion H].
Qed.

Lemma check_factors_Throw (factors : VectorXd) :
  forall j acc e,
    check_factors j factors acc = Throw e ->
    exists i b, b <= 0 /\ e = non_positive_factor i b.
Proof.
  induction factors as [|a factors IH]; intros j acc e H; simpl in H.
  - discriminate.
  - unfold Rleb in H. destruct (Rle_dec a 0) as [Ha|_].
    + inversion H. eauto.
    + eapply IH; eauto.
Qed.

Section Throws.

Variable llt_solve : MatrixXd -> VectorXd -> VectorXd.
Variable nth_element : nat -> nat -> list R -> list R.
Variable P : problem.

Lemma outlier_rejection_no_throw (range : R) (st : state) (e : Exception) :
  outlier_rejection nth_element P range st <> Throw e.
Proof.
  unfold outlier_rejection, deref. intros H.
  destruct (nth_error _ _); simpl in H; [|discriminate].
  destruct (nth_error _ _); simpl in H; [|discriminate].
  destruct (reject _ _ _ _ _). discriminate.
Qed.

Lemma balance_pass_Throw (k : nat) (st : state) (e : Exception) :
  balance_pass llt_solve nth_element P k st = Throw e -> factor_message e.
Proof.
  unfold balance_pass. intros H.
  apply bind_Throw in H as [H|(st1 & _ & H)].
  - destruct (1 <? n_tissue_types P)%nat; [|discriminate].
    unfold balance_estimation in H.
    apply bind_Throw in H as [H|(? & _ & H)]; [|discriminate].
    eapply check_factors_Throw; eauto.
  - apply bind_Throw in H as [H|(? & _ & H)]; [|discriminate].
    now apply outlier_rejection_no_throw in H.
Qed.

Lemma balance_loop_Throw (n : nat) :
  forall k st e,
    balance_loop llt_solve nth_element P n k st = Throw e -> factor_message e.
Proof.
  induction n as [|n IH]; intros k st e H; simpl in H; [discriminate|].
  apply bind_Throw in H as [H|([st1 c] & _ & H)].
  - eapply balance_pass_Throw; eauto.
  - simpl in H. destruct c; [discriminate | eauto].
Qed.

Lemma main_loop_Throw (n : nat) :
  forall i st e,
    main_loop llt_solve nth_element P n i st = Throw e -> factor_message e.
Proof.
  induction n as [|n IH]; intros i st e H; cbn [main_loop] in H;
    [discriminate|].
  apply bind_Throw in H as [H|(st1 & _ & H)].
  - eapply balance_loop_Throw; eauto.
  - eauto.
Qed.

End Throws.

Lemma dot_zero_r (u v : list R) :
  Forall (fun x => x = 0) v -> dot u v = 0.
Proof.
  unfold dot. intros Hv.
  assert (H : forall acc,
             fold_left (fun a p => a + fst p * snd p) (combine u v) acc = acc);
    [|apply H].
  revert u. induction Hv as [|x v Hx Hv IH]; intros [|a u] acc; simpl; auto.
  subst x. rewrite IH. lra.
Qed.

Lemma masked_Forall {A : Type} (Q : A -> Prop) (m : list bool) :
  forall img, Forall Q img -> Forall Q (masked m img).
Proof.
  induction m as [|b m IH]; intros img H; [constructor|].
  destruct H as [|x img Hx H]; simpl; [constructor|].
  destruct b; auto.
Qed.







(** ** The log-norm scale *)

(** The first rejection pass of [zero_iteration_input] keeps the three
    voxels. *)
Lemma zero_iteration_coarse_rejection :
  outlier_rejection nth_element_by_sorting (problem_of zero_iteration_input) 3
                    (initial_state zero_iteration_input)
  = Ok (set_mask [true; true; true] 3
                 (emit (Outlier_rejection 3)
                       (initial_state zero_iteration_input))).
Proof.
  rewrite (outlier_rejection_eq nth_element_by_sorting
             nth_element_by_sorting_correct).
  set (x := ln (weighted_sum [1] [Float32.to_R Float32.one] 1)).
  change (summed_log_image (problem_of zero_iteration_input)
            (initial_state zero_iteration_input)) with [x; x; x].
  change (masked (initial_mask (problem_of zero_iteration_input)) [x; x; x])
    with [x; x; x].
  change (lower_quartile_index (length [x; x; x])) with 1%nat.
  change (upper_quartile_index (length [x; x; x])) with 2%nat.
  unfold order_statistic. rewrite three_equal_sorted. cbn [nth_error].
  assert (Hin : is_outlier (x - 3 * (x - x)) (x + 3 * (x - x)) x = false).
  { apply is_outlier_false_iff. lra. }
  change (initial_mask (problem_of zero_iteration_input))
    with [true; true; true].
  cbn [reject length andb]. rewrite Hin. cbn [fst snd]. reflexivity.
Qed.

(** C2, where the code departs from it.  On a final mask of three voxels
    with a log field of zero, the geometric mean of the field is 1, and the
    value the output stage computes is not: the functor that is run at every
    voxel ends with the exponential and the division, so they are applied
    once per voxel to the running value.  The run of [zero_iteration_input]
    reaches the output stage in that state. *)
Theorem lognorm_scale_is_not_the_geometric_mean :
  geometric_mean_scale 3 [true; true; true] [0; 0; 0] = 1 /\
  compute_lognorm_scale 3 [true; true; true] [0; 0; 0]
  = exp ((exp ((exp ((0 + 0) / INR 3) + 0) / INR 3) + 0) / INR 3) /\
  1 < compute_lognorm_scale 3 [true; true; true] [0; 0; 0] /\
  exists out,
    run echo_solve nth_element_by_sorting zero_iteration_input = Ok out /\
    mask (final out) = [true; true; true] /\
    num_voxels (final out) = 3%nat /\
    norm_field_log (final out) = [0; 0; 0] /\
    lognorm_scale out = compute_lognorm_scale 3 [true; true; true] [0; 0; 0] /\
    lognorm_scale out <>
      geometric_mean_scale (num_voxels (final out)) (mask (final out))
                           (norm_field_log (final out)).
Proof.
  assert (Hmean : geometric_mean_scale 3 [true; true; true] [0; 0; 0] = 1).
  { unfold geometric_mean_scale. simpl.
    replace ((0 + 0 + 0 + 0) / (1 + 1 + 1)) with 0 by lra. apply exp_0. }
  assert (Hcode : compute_lognorm_scale 3 [true; true; true] [0; 0; 0]
                  = exp ((exp ((exp ((0 + 0) / INR 3) + 0) / INR 3) + 0) / INR 3))
    by reflexivity.
  assert (Hgt : 1 < compute_lognorm_scale 3 [true; true; true] [0; 0; 0]).
  { rewrite Hcode. rewrite <- exp_0 at 1. apply exp_increasing.
    assert (H3 : INR 3 = 3) by (simpl; lra). rewrite H3.
    pose proof (exp_pos ((exp ((0 + 0) / 3) + 0) / 3)). lra. }
  split; [exact Hmean|]. split; [exact Hcode|]. split; [exact Hgt|].
  unfold run.
  change (count_true (refined_mask zero_iteration_input) =? 0)%nat with false.
  unfold iterate. rewrite zero_iteration_coarse_rejection.
  cbn [bind]. eexists. split; [reflexivity|].
  cbn [final write_outputs lognorm_scale mask num_voxels norm_field_log
       set_prev_mask set_mask emit].
  repeat (split; [reflexivity|]).
  change (norm_field_log (initial_state zero_iteration_input)) with [0; 0; 0].
  rewrite Hmean. lra.
Qed.

(** ** The output images *)

Lemma to_R_minus_one : Float32.to_R Float32.minus_one = -1.
Proof.
  unfold Float32.to_R, Float32.minus_one, cond_Zopp.
  change (powerRZ 2 (-23)) with (/ 2 ^ 23).
  change (Z.opp 8388608) with (-8388608)%Z.
  field_simplify; lra.
Qed.

(** C3, as the code has it.  The output row of a voxel is zero in every
    volume when the first volume of the input row is negative, and otherwise
    each volume of the input times the multiplier over the field, whatever
    its sign; for an input of a single volume that is
    [max (input, 0) * multiplier / norm_field_image].  The multiplier of
    tissue [j] is its balance factor when [balanced] is given and 1
    otherwise. *)
Theorem output_row_rule
    (balance_multiplier norm_field_im : R) (in_im : list spec_float) :
  ReadInOutput balance_multiplier in_im norm_field_im
  = map (fun x => if Float32.ltb (nth 0 in_im Float32.zero) Float32.zero
                  then 0
                  else Float32.to_R x * balance_multiplier / norm_field_im)
        in_im
  /\
  (forall x,
      ReadInOutput balance_multiplier [x] norm_field_im
      = [Float32.to_R (Float32.max x Float32.zero) * balance_multiplier
         / norm_field_im]) /\
  (forall inp st j,
      nth_error (output_images (write_outputs inp st)) j
      = option_map
          (fun image =>
             map (fun p => ReadInOutput
                             (if output_balanced inp
                              then nth j (balance_factors st) 0 else 1)
                             (fst p) (snd p))
                 (combine image (norm_field_image st)))
          (nth_error (input_images inp) j)).
Proof.
  split; [|split].
  - unfold ReadInOutput, value0.
    destruct (Float32.ltb (nth 0 in_im Float32.zero) Float32.zero);
      [|reflexivity].
    induction in_im as [|x l IH]; simpl; [reflexivity | now rewrite <- IH].
  - intros x. unfold ReadInOutput, value0, Float32.max. simpl.
    destruct (Float32.ltb x Float32.zero); simpl; [|reflexivity].
    f_equal. lra.
  - intros inp st j. unfold write_outputs. cbn [output_images].
    rewrite nth_error_map.
    destruct (Nat.lt_ge_cases j (length (input_images inp))) as [Hj|Hj].
    + rewrite (nth_error_nth' (seq 0 _) 0%nat) by (now rewrite length_seq).
      rewrite seq_nth by exact Hj.
      rewrite (nth_error_nth' (input_images inp) []) by exact Hj.
      reflexivity.
    + assert (E1 : nth_error (seq 0 (length (input_images inp))) j = None)
        by (apply nth_error_None; now rewrite length_seq).
      assert (E2 : nth_error (input_images inp) j = None)
        by (now apply nth_error_None).
      now rewrite E1, E2.
Qed.

(** C3, refuted as stated.  For the two-volume row [1.0, -1.0], multiplier 1
    and field 1, the second output value is -1 and not
    [max (-1.0, 0) * 1 / 1 = 0]. *)
Lemma output_second_volume_not_clamped :
  nth 1 (ReadInOutput 1 [Float32.one; Float32.minus_one] 1) 0 = -1 /\
  nth 1 (ReadInOutput 1 [Float32.one; Float32.minus_one] 1) 0
  <> Float32.to_R (Float32.max Float32.minus_one Float32.zero) * 1 / 1.
Proof.
  assert (H : nth 1 (ReadInOutput 1 [Float32.one; Float32.minus_one] 1) 0 = -1).
  { change (nth 1 (ReadInOutput 1 [Float32.one; Float32.minus_one] 1) 0)
      with (Float32.to_R Float32.minus_one * 1 / 1).
    rewrite to_R_minus_one. lra. }
  split; [exact H|]. rewrite H.
  change (Float32.max Float32.minus_one Float32.zero) with Float32.zero.
  simpl. lra.
Qed.

(** * Further properties of the code *)

(** ** The polynomial basis *)

(** X1.  For every order, the basis vector has exactly [GetBasisVecs order]
    entries, and the first of them is 1; for the orders 0 to 3 that number is
    the number of monomials of degree at most [order] in three variables, and
    every other order is treated as order 3. *)
Theorem basis_vector_size (order : Z) (pos : Vector3) :
  length (PolyBasisFunction (GetBasisVecs order) pos) = GetBasisVecs order /\
  nth 0 (PolyBasisFunction (GetBasisVecs order) pos) 0 = 1 /\
  ((0 <= order <= 3)%Z ->
   Z.of_nat (GetBasisVecs order)
   = ((order + 1) * (order + 2) * (order + 3) / 6)%Z) /\
  ((order < 0 \/ 3 < order)%Z -> GetBasisVecs order = 20%nat).
Proof.
  destruct pos as [[x y] z].
  assert (Hcases : order = 0%Z \/ order = 1%Z \/ order = 2%Z \/
                   GetBasisVecs order = 20%nat).
  { destruct order as [|[[|[]|]|[]|]|]; simpl; auto. }
  split; [|split; [|split]].
  - destruct Hcases as [->|[->|[->|H]]]; try reflexivity.
    rewrite H. reflexivity.
  - destruct Hcases as [->|[->|[->|H]]]; try reflexivity.
    rewrite H. reflexivity.
  - intros Ho.
    assert (Ho4 : (order = 0 \/ order = 1 \/ order = 2 \/ order = 3)%Z) by lia.
    destruct Ho4 as [->|[->|[->| ->]]]; reflexivity.
  - intros Ho. destruct Hcases as [->|[->|[->|H]]]; lia.
Qed.

Lemma basis_vector_size_witness :
  Z.of_nat (GetBasisVecs 2) = ((2 + 1) * (2 + 2) * (2 + 3) / 6)%Z /\
  GetBasisVecs 7 = 20%nat.
Proof.
  split.
  - apply (basis_vector_size 2 (0, 0, 0)). lia.
  - apply (basis_vector_size 7 (0, 0, 0)). lia.
Defined.

(** X2.  The terms are cumulative with the order: the basis vector of a
    lower order is the beginning of the basis vector of a higher order at the
    same position. *)
Theorem basis_is_cumulative (o1 o2 : Z) (pos : Vector3) :
  (0 <= o1 <= o2)%Z ->
  firstn (GetBasisVecs o1) (PolyBasisFunction (GetBasisVecs o2) pos)
  = PolyBasisFunction (GetBasisVecs o1) pos.
Proof.
  intros H. destruct pos as [[x y] z].
  assert (Hc : forall o, (0 <= o)%Z ->
             o = 0%Z \/ o = 1%Z \/ o = 2%Z \/
             ((3 <= o)%Z /\ GetBasisVecs o = 20%nat)).
  { intros o Ho. destruct o as [|[[|[]|]|[]|]|]; simpl; auto; try lia;
      right; right; right; split; auto; lia. }
  destruct (Hc o1 ltac:(lia)) as [->|[->|[->|[H1 E1]]]];
    destruct (Hc o2 ltac:(lia)) as [->|[->|[->|[H2 E2]]]];
    try lia; rewrite ?E1, ?E2; reflexivity.
Qed.

Lemma basis_is_cumulative_witness :
  firstn (GetBasisVecs 1) (PolyBasisFunction (GetBasisVecs 3) (1, 2, 3))
  = PolyBasisFunction (GetBasisVecs 1) (1, 2, 3).
Proof. apply basis_is_cumulative. lia. Defined.

(** ** The normal equations *)

Lemma fold_dot_shift (u : list R) :
  forall v acc,
    fold_left (fun a p => a + fst p * snd p) (combine u v) acc = acc + dot u v.
Proof.
  unfold dot. induction u as [|a u IH]; intros [|b v] acc; simpl; try lra.
  rewrite IH, (IH v (0 + a * b)). lra.
Qed.

Lemma dot_cons (a b : R) (u v : list R) :
  dot (a :: u) (b :: v) = a * b + dot u v.
Proof. unfold dot at 1. simpl. rewrite fold_dot_shift. lra. Qed.

Lemma dot_nil_r (u : list R) : dot u [] = 0.
Proof. unfold dot. now destruct u. Qed.

Lemma dot_comm (u : list R) : forall v, dot u v = dot v u.
Proof.
  induction u as [|a u IH]; intros [|b v]; try reflexivity.
  rewrite !dot_cons, IH. lra.
Qed.

Lemma dot_map_plus_l {A : Type} (f g : A -> R) (l : list A) :
  forall v,
    dot (map (fun j => f j + g j) l) v = dot (map f l) v + dot (map g l) v.
Proof.
  induction l as [|x l IH]; intros [|b v]; simpl;
    rewrite ?dot_nil_r, ?dot_cons; try (unfold dot; simpl; lra).
  rewrite IH. lra.
Qed.

Lemma dot_map_scale_l {A : Type} (c : R) (f : A -> R) (l : list A) :
  forall v, dot (map (fun j => c * f j) l) v = c * dot (map f l) v.
Proof.
  induction l as [|x l IH]; intros [|b v]; simpl;
    rewrite ?dot_nil_r, ?dot_cons; try (unfold dot; simpl; lra).
  rewrite IH. lra.
Qed.

Lemma map_nth_seq (r : list R) :
  map (fun j => nth j r 0) (seq 0 (length r)) = r.
Proof.
  induction r as [|a r IH]; [reflexivity|].
  cbn [length seq map nth]. f_equal.
  rewrite <- seq_shift, map_map. exact IH.
Qed.

Lemma dot_self_nonneg (w : list R) : 0 <= dot w w.
Proof.
  induction w as [|a w IH]; [unfold dot; simpl; lra|].
  rewrite dot_cons. nra.
Qed.

Lemma dot_self_pos_iff (w : list R) :
  0 < dot w w <-> exists y, In y w /\ y <> 0.
Proof.
  induction w as [|a w IH].
  - unfold dot; simpl. split; [lra | intros (y & [] & _)].
  - rewrite dot_cons. pose proof (dot_self_nonneg w) as Hw. split.
    + intros H. destruct (Req_dec a 0) as [Ha|Ha].
      * subst a. destruct IH as [IH _].
        destruct IH as (y & Hy & Hne); [lra|]. exists y. split; [now right | exact Hne].
      * exists a. split; [now left | exact Ha].
    + intros (y & [<-|Hy] & Hne).
      * nra.
      * assert (0 < dot w w) by (apply IH; eauto). nra.
Qed.

(** The quadratic form of [X^T X] is the squared length of [X v]. *)
Lemma gram_quadratic_form_rows (n : nat) (rows : list (list R)) (v : list R) :
  Forall (fun r => length r = n) rows ->
  dot v (mat_vec (gram (mkMatrix n rows)) v)
  = dot (mat_vec (mkMatrix n rows) v) (mat_vec (mkMatrix n rows) v).
Proof.
  unfold mat_vec, gram, column. cbn [rows_of cols]. rewrite map_map.
  induction 1 as [|r rows Hr Hrows IH].
  - cbn [map]. unfold dot at 4. cbn [combine fold_left].
    apply dot_zero_r. apply Forall_map, Forall_forall. intros i _.
    rewrite dot_comm. apply dot_zero_r.
    apply Forall_map, Forall_forall. intros j _. reflexivity.
  - cbn [map]. rewrite dot_cons, <- IH.
    set (d := dot r v).
    rewrite (map_ext _
               (fun i => nth i r 0 * d
                         + dot (map (fun j => dot (map (fun row => nth i row 0) rows)
                                                  (map (fun row => nth j row 0) rows))
                                    (seq 0 n)) v)).
    + rewrite (dot_comm v), dot_map_plus_l.
      rewrite (dot_comm v (map _ (seq 0 n))).
      f_equal.
      rewrite (map_ext _ (fun i => d * nth i r 0)) by (intros; lra).
      rewrite dot_map_scale_l. rewrite <- Hr, map_nth_seq.
      reflexivity.
    + intros i.
      rewrite (map_ext _ (fun j => nth i r 0 * nth j r 0
                                   + dot (map (fun row => nth i row 0) rows)
                                         (map (fun row => nth j row 0) rows)))
        by (intros j; apply dot_cons).
      rewrite dot_map_plus_l, dot_map_scale_l.
      rewrite <- Hr at 1. rewrite map_nth_seq. reflexivity.
Qed.

Lemma gram_entry (X : MatrixXd) (i j : nat) :
  (i < cols X)%nat -> (j < cols X)%nat ->
  nth j (nth i (rows_of (gram X)) []) 0 = dot (column X i) (column X j).
Proof.
  intros Hi Hj. unfold gram. cbn [rows_of].
  rewrite (nth_indep _ [] ((fun i => map (fun j => dot (column X i) (column X j))
                                         (seq 0 (cols X))) 0%nat))
    by (now rewrite length_map, length_seq).
  rewrite (map_nth (fun i => map (fun j => dot (column X i) (column X j))
                                 (seq 0 (cols X)))).
  rewrite seq_nth by exact Hi. cbn [Nat.add].
  rewrite (nth_indep _ 0 ((fun j => dot (column X i) (column X j)) 0%nat))
    by (now rewrite length_map, length_seq).
  rewrite (map_nth (fun j => dot (column X i) (column X j))).
  rewrite seq_nth by exact Hj. reflexivity.
Qed.

(** X3.  The matrix [X^T X] that [Choleski] hands to the factorisation is
    square of size [X.cols()], symmetric and positive semi-definite: its
    quadratic form at [v] is the squared length of [X v].  It is positive
    definite exactly when no non-zero [v] is sent to zero by [X], that is
    when the columns of the design are linearly independent. *)
Theorem normal_matrix_is_symmetric_semidefinite (X : MatrixXd) :
  Forall (fun r => length r = cols X) (rows_of X) ->
  length (rows_of (gram X)) = cols X /\
  Forall (fun r => length r = cols X) (rows_of (gram X)) /\
  (forall i j, (i < cols X)%nat -> (j < cols X)%nat ->
               nth j (nth i (rows_of (gram X)) []) 0
               = nth i (nth j (rows_of (gram X)) []) 0) /\
  (forall v, dot v (mat_vec (gram X) v) = dot (mat_vec X v) (mat_vec X v) /\
             0 <= dot v (mat_vec (gram X) v)) /\
  (positive_definite (gram X) <->
   forall v, length v = cols X -> (exists x, In x v /\ x <> 0) ->
             exists y, In y (mat_vec X v) /\ y <> 0).
Proof.
  intros Hrows.
  assert (Hq : forall v,
             dot v (mat_vec (gram X) v) = dot (mat_vec X v) (mat_vec X v)).
  { intros v. destruct X as [n rows]. now apply gram_quadratic_form_rows. }
  split; [|split; [|split; [|split]]].
  - unfold gram. cbn [rows_of]. now rewrite length_map, length_seq.
  - unfold gram. cbn [rows_of]. apply Forall_map, Forall_forall.
    intros i _. now rewrite length_map, length_seq.
  - intros i j Hi Hj. rewrite !gram_entry by assumption. apply dot_comm.
  - intros v. split; [apply Hq|]. rewrite Hq. apply dot_self_nonneg.
  - unfold positive_definite. cbn [gram cols]. split.
    + intros Hpd v Hlen Hnz. apply dot_self_pos_iff.
      rewrite <- Hq. now apply Hpd.
    + intros Hker v Hlen Hnz. rewrite Hq. apply dot_self_pos_iff.
      now apply Hker.
Qed.

Lemma normal_matrix_is_symmetric_semidefinite_witness :
  0 <= dot [1; -1] (mat_vec (gram (mkMatrix 2 [[1; 1]; [1; 1]])) [1; -1]).
Proof.
  apply (normal_matrix_is_symmetric_semidefinite (mkMatrix 2 [[1; 1]; [1; 1]])).
  repeat constructor.
Defined.

(** ** What the initial mask guarantees of the input values *)

Lemma add_finite_inv (x y : spec_float) :
  Float32.isfinite (Float32.add x y) = true ->
  Float32.isfinite x = true /\ Float32.isfinite y = true.
Proof.
  unfold Float32.add.
  destruct x as [sx|sx| |sx mx ex], y as [sy|sy| |sy my ey];
    try (intros _; split; reflexivity);
    try destruct sx; try destruct sy; simpl; intros H;
    try discriminate H; split; reflexivity.
Qed.

Lemma binary_round_sign (sx : bool) (mx : positive) (ex : Z) :
  match binary_round Float32.prec Float32.emax sx mx ex with
  | S754_zero s | S754_infinity s | S754_finite s _ _ => s = sx
  | S754_nan => True
  end.
Proof.
  unfold binary_round, binary_round_aux.
  destruct (shl_align _ _ _) as [mz ez].
  destruct (shr_fexp _ _ _ _ _) as [mrs' e'].
  destruct (shr_fexp _ _ _ _ _) as [mrs'' e''].
  destruct (shr_m mrs''); [reflexivity| |exact I].
  destruct (Z.leb _ _); reflexivity.
Qed.

Lemma add_not_positive (x y : spec_float) :
  Float32.ltb Float32.zero x = false ->
  Float32.ltb Float32.zero y = false ->
  Float32.ltb Float32.zero (Float32.add x y) = false.
Proof.
  unfold Float32.ltb, Float32.zero, Float32.add, SFltb.
  destruct x as [sx|sx| |sx mx ex], y as [sy|sy| |sy my ey];
    try destruct sx; try destruct sy; simpl; intros Hx Hy;
    try discriminate; try reflexivity.
  pose proof (binary_round_sign true
                (fst (shl_align mx ex (Z.min ex ey))
                 + fst (shl_align my ey (Z.min ex ey)))
                (Z.min ex ey)) as Hs.
  destruct (binary_round _ _ _ _ _) as [s|s| |s m e]; try subst s; reflexivity.
Qed.

Lemma fold_add_finite (rows : list (list spec_float)) :
  forall s0,
    Float32.isfinite
      (fold_left (fun a row => Float32.add a (value0 row)) rows s0) = true ->
    Forall (fun row => Float32.isfinite (value0 row) = true) rows.
Proof.
  induction rows as [|row rows IH]; intros s0 H; [constructor|].
  simpl in H. constructor.
  - assert (Hf : Float32.isfinite (Float32.add s0 (value0 row)) = true).
    { clear IH. revert H. generalize (Float32.add s0 (value0 row)).
      induction rows as [|r rows IHr]; intros a H; [exact H|].
      simpl in H. apply IHr in H. now apply add_finite_inv in H. }
    now apply add_finite_inv in Hf.
  - eapply IH; eauto.
Qed.

Lemma fold_add_positive (rows : list (list spec_float)) :
  forall s0,
    Float32.ltb Float32.zero
      (fold_left (fun a row => Float32.add a (value0 row)) rows s0) = true ->
    Float32.ltb Float32.zero s0 = true \/
    Exists (fun row => Float32.ltb Float32.zero (value0 row) = true) rows.
Proof.
  induction rows as [|row rows IH]; intros s0 H; [now left|].
  simpl in H. apply IH in H as [H|H]; [|right; now constructor 2].
  destruct (Float32.ltb Float32.zero s0) eqn:E0; [now left|].
  destruct (Float32.ltb Float32.zero (value0 row)) eqn:E1;
    [right; now constructor 1|].
  now rewrite (add_not_positive _ _ E0 E1) in H.
Qed.

Lemma refined_mask_rows (inp : input) (v : nat) :
  nth_error (refined_mask inp) v = Some true ->
  exists rows,
    Forall2 (fun image row => nth_error image v = Some row)
            (input_images inp) rows /\
    Forall (fun row => Float32.isfinite (value0 row) = true) rows /\
    Exists (fun row => Float32.ltb Float32.zero (value0 row) = true) rows.
Proof.
  unfold refined_mask. rewrite nth_error_map.
  destruct (nth_error (combine (summed_tissue inp) (orig_mask inp)) v)
    as [[s m]|] eqn:E; simpl; [|discriminate].
  intros H. injection H as H.
  apply nth_error_combine in E as [Hs _].
  unfold summed_tissue in Hs.
  apply fold_accumulate_nth in Hs as (s0 & rows & H0 & Hrows & ->).
  assert (Hz : s0 = Float32.zero).
  { apply nth_error_In, repeat_spec in H0. exact H0. }
  subst s0. unfold mask_refiner in H.
  apply andb_true_iff in H as [H _]. apply andb_true_iff in H as [Hfin Hpos].
  exists rows. split; [exact Hrows|]. split.
  - eapply fold_add_finite; eauto.
  - apply fold_add_positive in Hpos as [Hpos|Hpos]; [discriminate | exact Hpos].
Qed.

Lemma initial_mask_rows_finite (inp : input) (v : nat) :
  nth_error (refined_mask inp) v = Some true ->
  forall image, In image (input_images inp) ->
    exists row,
      nth_error image v = Some row /\ Float32.isfinite (value0 row) = true.
Proof.
  intros Hv image Hin.
  destruct (refined_mask_rows inp v Hv) as (rows & Hrows & Hfin & _).
  clear Hv. induction Hrows as [|im row images rows' Hrow Hrest IH].
  - contradiction.
  - inversion Hfin as [|? ? Hf Hfs]; subst.
    destruct Hin as [<-|Hin]; [exists row; auto | now apply IH].
Qed.

(** X4.  A voxel of the initial mask has a finite value in every tissue: a
    NaN or an infinity in any one tissue keeps the voxel out, whatever the
    other tissues hold. *)
Theorem initial_mask_excludes_non_finite (inp : input) (v : nat) :
  nth_error (refined_mask inp) v = Some true ->
  forall image, In image (input_images inp) ->
    exists row,
      nth_error image v = Some row /\ Float32.isfinite (value0 row) = true.
Proof.
  intros Hv image Hin.
  destruct (refined_mask_rows inp v Hv) as (rows & Hrows & Hfin & _).
  clear Hv. induction Hrows as [|im row images rows' Hrow Hrest IH].
  - contradiction.
  - inversion Hfin as [|? ? Hf Hfs]; subst.
    destruct Hin as [<-|Hin]; [exists row; auto | now apply IH].
Qed.

Lemma initial_mask_excludes_non_finite_witness :
  exists row,
    nth_error [[Float32.one]; [Float32.one]; [Float32.one]] 1 = Some row /\
    Float32.isfinite (value0 row) = true.
Proof.
  apply (initial_mask_excludes_non_finite example_input 1).
  - reflexivity.
  - left. reflexivity.
Defined.

(** X5.  A voxel of the initial mask has a strictly positive finite value in
    at least one tissue: tissues that are all zero or negative never sum to
    a positive value. *)
Theorem initial_mask_has_positive_tissue (inp : input) (v : nat) :
  nth_error (refined_mask inp) v = Some true ->
  exists image row mant e,
    In image (input_images inp) /\ nth_error image v = Some row /\
    value0 row = S754_finite false mant e.
Proof.
  intros Hv.
  destruct (refined_mask_rows inp v Hv) as (rows & Hrows & Hfin & Hpos).
  clear Hv. induction Hrows as [|im row images rows' Hrow Hrest IH].
  - inversion Hpos.
  - inversion Hfin as [|? ? Hf Hfs]; subst.
    inversion Hpos as [? ? Hp|? ? Hp]; subst.
    + exists im, row.
      assert (Hm : mask_refiner (value0 row) true = true).
      { unfold mask_refiner. now rewrite Hf, Hp. }
      apply mask_refiner_true_iff in Hm as (_ & mant & e & E).
      exists mant, e. split; [now left | auto].
    + destruct (IH Hfs Hp) as (image & r & mant & e & Hin & Hr & E).
      exists image, r, mant, e. split; [now right | auto].
Qed.

Lemma initial_mask_has_positive_tissue_witness :
  exists image row mant e,
    In image (input_images example_input) /\ nth_error image 2 = Some row /\
    value0 row = S754_finite false mant e.
Proof.
  apply (initial_mask_has_positive_tissue example_input 2). reflexivity.
Defined.

(** ** The combined tissue image and the arguments of the logarithms *)

Lemma to_R_positive (mant : positive) (e : Z) :
  0 < Float32.to_R (S754_finite false mant e).
Proof.
  unfold Float32.to_R, cond_Zopp. apply Rmult_lt_0_compat.
  - apply IZR_lt. reflexivity.
  - apply powerRZ_lt. lra.
Qed.

Lemma clamp_not_negative (x : spec_float) :
  Float32.ltb (Float32.max x Float32.zero) Float32.zero = false /\
  0 <= Float32.to_R (Float32.max x Float32.zero).
Proof.
  unfold Float32.max.
  destruct (Float32.ltb x Float32.zero) eqn:E.
  - split; [reflexivity | simpl; lra].
  - split; [exact E|].
    destruct x as [s|s| |s mant e]; simpl; try lra.
    destruct s; [discriminate E|]. apply Rlt_le, to_R_positive.
Qed.

Lemma tissue_components_nth (inp : input) (v : nat) :
  (v < length (nth 0%nat (input_images inp) []))%nat ->
  nth_error (tissue_components inp) v
  = Some (map (fun image =>
                 Float32.to_R (Float32.max (value0 (nth v image []))
                                           Float32.zero))
              (input_images inp)).
Proof.
  intros Hv. unfold tissue_components. rewrite nth_error_map.
  rewrite (nth_error_nth' _ 0%nat) by (now rewrite length_seq).
  rewrite seq_nth by exact Hv. reflexivity.
Qed.

Lemma weighted_sum_cons (b c : R) (factors comb : list R) (f : R) :
  weighted_sum (b :: factors) (c :: comb) f
  = b * c / f + weighted_sum factors comb f.
Proof.
  unfold weighted_sum. simpl.
  assert (H : forall l acc,
             fold_left (fun s p => s + fst p * snd p / f) l acc
             = acc + fold_left (fun s p => s + fst p * snd p / f) l 0).
  { induction l as [|p l IH]; intros acc; simpl; [lra|].
    rewrite IH, (IH (0 + _)). lra. }
  rewrite H. lra.
Qed.

Lemma tissue_sum_cons (b c : R) (factors comb : list R) :
  tissue_sum (b :: factors) (c :: comb) = b * c + tissue_sum factors comb.
Proof.
  unfold tissue_sum. simpl.
  assert (H : forall l acc,
             fold_left (fun s p => s + fst p * snd p) l acc
             = acc + fold_left (fun s (p : R * R) => s + fst p * snd p) l 0).
  { induction l as [|p l IH]; intros acc; simpl; [lra|].
    rewrite IH, (IH (0 + _)). lra. }
  rewrite H. lra.
Qed.

Lemma sums_nonneg (factors : list R) :
  forall comb f,
    Forall (fun b => 0 < b) factors -> Forall (fun c => 0 <= c) comb ->
    0 < f ->
    0 <= tissue_sum factors comb /\ 0 <= weighted_sum factors comb f.
Proof.
  induction factors as [|b factors IH]; intros [|c comb] f Hb Hc Hf;
    try (unfold tissue_sum, weighted_sum; simpl; lra).
  inversion Hb as [|? ? Hb0 Hbs]; inversion Hc as [|? ? Hc0 Hcs]; subst.
  rewrite tissue_sum_cons, weighted_sum_cons.
  destruct (IH comb f Hbs Hcs Hf) as [H1 H2].
  assert (0 <= b * c) by nra.
  assert (0 <= b * c / f) by (apply Rmult_le_pos; [nra|];
                              apply Rlt_le, Rinv_0_lt_compat, Hf).
  lra.
Qed.

Lemma sums_positive (factors : list R) :
  forall comb f,
    length factors = length comb ->
    Forall (fun b => 0 < b) factors -> Forall (fun c => 0 <= c) comb ->
    Exists (fun c => 0 < c) comb -> 0 < f ->
    0 < tissue_sum factors comb /\ 0 < weighted_sum factors comb f.
Proof.
  induction factors as [|b factors IH]; intros [|c comb] f Hlen Hb Hc He Hf;
    try discriminate Hlen; [inversion He|].
  inversion Hb as [|? ? Hb0 Hbs]; inversion Hc as [|? ? Hc0 Hcs]; subst.
  rewrite tissue_sum_cons, weighted_sum_cons.
  assert (Hbc : 0 <= b * c) by nra.
  assert (Hq : 0 <= b * c / f)
    by (apply Rmult_le_pos; [nra|]; apply Rlt_le, Rinv_0_lt_compat, Hf).
  inversion He as [? ? Hpos|? ? Hrest]; subst.
  - destruct (sums_nonneg factors comb f Hbs Hcs Hf) as [H1 H2].
    assert (0 < b * c) by nra.
    assert (0 < b * c / f)
      by (apply Rmult_lt_0_compat; [nra|]; apply Rinv_0_lt_compat, Hf).
    lra.
  - simpl in Hlen. injection Hlen as Hlen.
    destruct (IH comb f Hlen Hbs Hcs Hrest Hf) as [H1 H2]. lra.
Qed.

Lemma clamp_of_finite (x : spec_float) :
  Float32.isfinite x = true ->
  Float32.isfinite (Float32.max x Float32.zero) = true /\
  Float32.to_R (Float32.max x Float32.zero) = Rmax (Float32.to_R x) 0.
Proof.
  intros Hf. unfold Float32.max.
  destruct x as [s|s| |s mant e]; try discriminate Hf.
  - split; [reflexivity|]. cbn. now rewrite Rmax_left by lra.
  - destruct s.
    + change (Float32.ltb (S754_finite true mant e) Float32.zero) with true.
      cbv iota. split; [reflexivity|].
      pose proof (to_R_positive mant e) as Hp.
      unfold Float32.to_R, cond_Zopp in *. rewrite opp_IZR.
      rewrite Rmax_right; [reflexivity | simpl; nra].
    + change (Float32.ltb (S754_finite false mant e) Float32.zero) with false.
      cbv iota. split; [reflexivity|].
      pose proof (to_R_positive mant e) as Hp.
      rewrite Rmax_left; [reflexivity | lra].
Qed.

(** X6.  The clamp [std::max<float> (in, 0.f)]: its result never compares
    below zero, for every binary32 input, NaN and infinities included; and
    at every voxel of the initial mask, where every tissue holds a finite
    value, the combined tissue image holds one value per tissue, each the
    maximum of the input value and zero, hence not negative. *)
Theorem combined_tissue_is_non_negative (inp : input) (v : nat) :
  nth_error (refined_mask inp) v = Some true ->
  (forall x, Float32.ltb (Float32.max x Float32.zero) Float32.zero = false) /\
  exists comb,
    nth_error (tissue_components inp) v = Some comb /\
    length comb = length (input_images inp) /\
    Forall (fun c => 0 <= c) comb /\
    forall j image,
      nth_error (input_images inp) j = Some image ->
      exists row,
        nth_error image v = Some row /\
        Float32.isfinite (value0 row) = true /\
        nth_error comb j = Some (Rmax (Float32.to_R (value0 row)) 0).
Proof.
  intros Hv. split; [intros x; apply clamp_not_negative|].
  assert (Hlt : (v < length (nth 0%nat (input_images inp) []))%nat).
  { pose proof (refined_mask_length inp) as Hle.
    assert (v < length (refined_mask inp))%nat
      by (apply nth_error_Some; rewrite Hv; discriminate).
    unfold grid_size, problem_of, tissue_components in Hle. simpl in Hle.
    rewrite length_map, length_seq in Hle. lia. }
  eexists. split; [apply tissue_components_nth; exact Hlt|].
  split; [apply length_map|]. split.
  - apply Forall_map, Forall_forall. intros image _. apply clamp_not_negative.
  - intros j image Hj.
    destruct (initial_mask_rows_finite inp v Hv image (nth_error_In _ _ Hj))
      as (row & Hrow & Hfin).
    exists row. split; [exact Hrow|]. split; [exact Hfin|].
    rewrite nth_error_map, Hj. cbn [option_map].
    rewrite (nth_error_nth _ _ [] Hrow).
    now rewrite (proj2 (clamp_of_finite _ Hfin)).
Qed.

Lemma combined_tissue_is_non_negative_witness :
  exists comb,
    nth_error (tissue_components example_input) 1 = Some comb /\
    Forall (fun c => 0 <= c) comb.
Proof.
  destruct (combined_tissue_is_non_negative example_input 1 eq_refl)
    as (_ & comb & Hc & _ & Hpos & _).
  exists comb. split; [exact Hc | exact Hpos].
Defined.

(** X7.  At a voxel of the initial mask both logarithms of the engine have a
    strictly positive argument, in every state whose balance factors are
    strictly positive and one per tissue: the sum of the weighted tissues
    (the target of the field fit) and the same sum over a positive field
    (the statistic of the rejection pass). *)
Theorem log_arguments_are_positive (inp : input) (st : state) (v : nat) :
  nth_error (refined_mask inp) v = Some true ->
  Forall (fun b => 0 < b) (balance_factors st) ->
  length (balance_factors st) = length (input_images inp) ->
  exists comb,
    nth_error (tissue_components inp) v = Some comb /\
    0 < tissue_sum (balance_factors st) comb /\
    forall field, 0 < field -> 0 < weighted_sum (balance_factors st) comb field.
Proof.
  intros Hv Hpos Hlen.
  assert (Hlt : (v < length (nth 0%nat (input_images inp) []))%nat).
  { pose proof (refined_mask_length inp) as Hle.
    assert (v < length (refined_mask inp))%nat
      by (apply nth_error_Some; rewrite Hv; discriminate).
    unfold grid_size, problem_of, tissue_components in Hle. simpl in Hle.
    rewrite length_map, length_seq in Hle. lia. }
  destruct (refined_mask_rows inp v Hv) as (rows & Hrows & Hfin & Hex).
  eexists. split; [apply tissue_components_nth; exact Hlt|].
  set (comb := map _ (input_images inp)).
  assert (Hc : Forall (fun c => 0 <= c) comb).
  { apply Forall_map, Forall_forall. intros image _. apply clamp_not_negative. }
  assert (He : Exists (fun c => 0 < c) comb).
  { unfold comb. clear -Hrows Hfin Hex.
    induction Hrows as [|im row images rows' Hrow Hrest IH]; [inversion Hex|].
    inversion Hfin as [|? ? Hf Hfs]; subst. simpl.
    inversion Hex as [? ? Hp|? ? Hp]; subst.
    - constructor 1. rewrite (nth_error_nth _ _ [] Hrow).
      assert (Hm : mask_refiner (value0 row) true = true).
      { unfold mask_refiner. now rewrite Hf, Hp. }
      apply mask_refiner_true_iff in Hm as (_ & mant & e & E).
      rewrite E. change (Float32.max (S754_finite false mant e) Float32.zero)
        with (S754_finite false mant e). apply to_R_positive.
    - constructor 2. now apply IH. }
  assert (Hl : length (balance_factors st) = length comb).
  { unfold comb. now rewrite length_map. }
  split.
  - now apply (sums_positive _ comb 1 Hl Hpos Hc He Rlt_0_1).
  - intros field Hf. now apply (sums_positive _ comb field Hl Hpos Hc He Hf).
Qed.

Lemma log_arguments_are_positive_witness :
  exists comb,
    nth_error (tissue_components example_input) 0 = Some comb /\
    0 < tissue_sum (balance_factors (initial_state example_input)) comb.
Proof.
  destruct (log_arguments_are_positive example_input
              (initial_state example_input) 0)
    as (comb & Hc & Hpos & _).
  - reflexivity.
  - simpl. repeat constructor. lra.
  - reflexivity.
  - exists comb. split; [exact Hc | exact Hpos].
Defined.

(** ** More on the rejection pass *)

(** X8.  The two iterator offsets of the rejection pass, computed in
    binary32, form valid ranges for every [N]: the lower one never exceeds
    the upper one and the upper one never exceeds the number of collected
    values, so both calls of [std::nth_element] get a valid range, and the
    lower offset is a position of the values as soon as there is one value.
    As long as [3 * N < 2^24] both products are exact and the offsets are
    [floor ((N + 2) / 4)] and [floor ((3 N + 2) / 4)]; for every [N] a
    [size_t] can hold they are at least [N * (1/2 - 2^-23) - 1] apart. *)
Theorem quartile_offsets_form_valid_ranges (N : nat) :
  (lower_quartile_index N <= upper_quartile_index N <= N)%nat /\
  ((1 <= N)%nat -> (lower_quartile_index N < N)%nat) /\
  ((3 * Z.of_nat N < 2 ^ 24)%Z ->
   lower_quartile_index N = ((N + 2) / 4)%nat /\
   upper_quartile_index N = ((3 * N + 2) / 4)%nat) /\
  ((1 <= N)%nat -> (Z.of_nat N < 2 ^ 64)%Z ->
   INR N * (1 / 2 - / 8388608)
   < INR (upper_quartile_index N - lower_quartile_index N + 1)).
Proof.
  split; [apply quartile_indices_ordered|].
  split; [apply lower_quartile_index_lt|].
  split; [|apply interquartile_count].
  intros H3. change (2 ^ 24)%Z with 16777216%Z in H3.
  now apply quartile_index_exact.
Qed.

Lemma quartile_offsets_form_valid_ranges_witness :
  (lower_quartile_index 9 < 9)%nat /\
  lower_quartile_index 9 = ((9 + 2) / 4)%nat /\
  upper_quartile_index 9 = ((3 * 9 + 2) / 4)%nat.
Proof.
  split.
  - apply (quartile_offsets_form_valid_ranges 9). lia.
  - apply (quartile_offsets_form_valid_ranges 9). vm_compute. reflexivity.
Defined.

(** X9.  The rejection pass does not look at the mask it finds: two states
    with the same balance factors and the same field get the same mask and
    the same voxel count from it, whatever their masks and counts were. *)
Theorem rejection_ignores_current_mask
    (nth_element : nat -> nat -> list R -> list R)
    (P : problem) (range : R) (st1 st2 : state) :
  balance_factors st1 = balance_factors st2 ->
  norm_field_image st1 = norm_field_image st2 ->
  match outlier_rejection nth_element P range st1,
        outlier_rejection nth_element P range st2 with
  | Ok a, Ok b => mask a = mask b /\ num_voxels a = num_voxels b
  | Undefined, Undefined => True
  | _, _ => False
  end.
Proof.
  intros Hb Hf.
  assert (Hs : summed_log_image P st1 = summed_log_image P st2).
  { unfold summed_log_image. now rewrite Hb, Hf. }
  unfold outlier_rejection, deref. rewrite Hs.
  destruct (nth_error _ _) as [q1|]; simpl; [|exact I].
  destruct (nth_error _ _) as [q3|]; simpl; [|exact I].
  destruct (reject _ _ _ _ _). simpl. auto.
Qed.

Lemma rejection_ignores_current_mask_witness :
  match outlier_rejection nth_element_by_sorting two_tissue_problem 3
                          two_tissue_state,
        outlier_rejection nth_element_by_sorting two_tissue_problem 3
                          (set_mask [false; false; true] 1 two_tissue_state)
  with
  | Ok a, Ok b => mask a = mask b /\ num_voxels a = num_voxels b
  | Undefined, Undefined => True
  | _, _ => False
  end.
Proof.
  apply rejection_ignores_current_mask; reflexivity.
Defined.

Lemma filter_length_le {A : Type} (p q : A -> bool) (l : list A) :
  (forall x, p x = true -> q x = true) ->
  (length (filter p l) <= length (filter q l))%nat.
Proof.
  intros H. induction l as [|x l IH]; simpl; [lia|].
  destruct (p x) eqn:Ep.
  - rewrite (H x Ep). simpl. lia.
  - destruct (q x); simpl; lia.
Qed.

Lemma filter_length_perm {A : Type} (p : A -> bool) (l l' : list A) :
  Permutation l l' -> length (filter p l) = length (filter p l').
Proof.
  induction 1 as [|x l l' Hp IH|x y l|l l' l'' H1 IH1 H2 IH2]; simpl.
  - reflexivity.
  - destruct (p x); simpl; lia.
  - destruct (p x), (p y); simpl; lia.
  - lia.
Qed.

Lemma filter_length_split {A : Type} (p : A -> bool) (l : list A) :
  (length (filter p l) + length (filter (fun x => negb (p x)) l))%nat
  = length l.
Proof.
  induction l as [|x l IH]; simpl; [reflexivity|].
  destruct (p x); simpl; lia.
Qed.

Lemma filter_length_range {A : Type} (p : A -> bool) (l : list A) :
  forall a b,
    (a <= b)%nat -> (b < length l)%nat ->
    (forall i x, (a <= i <= b)%nat -> nth_error l i = Some x -> p x = true) ->
    (b - a + 1 <= length (filter p l))%nat.
Proof.
  induction l as [|y l IH]; intros a b Hab Hb Hp; simpl in *; [lia|].
  destruct a as [|a].
  - assert (Hy : p y = true) by (apply (Hp 0%nat); [lia | reflexivity]).
    rewrite Hy. simpl. destruct b as [|b]; [lia|].
    specialize (IH 0%nat b ltac:(lia) ltac:(lia)).
    assert (b - 0 + 1 <= length (filter p l))%nat; [|lia].
    apply IH. intros i x Hi Hx. apply (Hp (S i)); [lia | exact Hx].
  - destruct b as [|b]; [lia|].
    specialize (IH a b ltac:(lia) ltac:(lia)).
    assert (b - a + 1 <= length (filter p l))%nat.
    { apply IH. intros i x Hi Hx. apply (Hp (S i)); [lia | exact Hx]. }
    destruct (p y); simpl; lia.
Qed.

Section MoreRejection.

Variable nth_element : nat -> nat -> list R -> list R.
Hypothesis nth_element_ok : nth_element_postcondition nth_element.
Variable P : problem.

(** On the grid and with three voxels or more in the initial mask, the pass
    returns the mask and the count that the two order statistics give. *)
Lemma outlier_rejection_on_grid (range : R) (st : state) :
  on_grid P st -> (3 <= count_true (initial_mask P))%nat ->
  let sl := summed_log_image P st in
  let values := masked (initial_mask P) sl in
  let N := count_true (initial_mask P) in
  exists Q1 Q3,
    nth_error (sort values) (lower_quartile_index N) = Some Q1 /\
    nth_error (sort values) (upper_quartile_index N) = Some Q3 /\
    Q1 <= Q3 /\ length values = N /\
    (length (initial_mask P) <= length sl)%nat /\
    outlier_rejection nth_element P range st
    = Ok (set_mask
            (fst (reject (initial_mask P) sl (Q1 - range * (Q3 - Q1))
                         (Q3 + range * (Q3 - Q1)) N))
            (snd (reject (initial_mask P) sl (Q1 - range * (Q3 - Q1))
                         (Q3 + range * (Q3 - Q1)) N))
            (emit (Outlier_rejection range) st)).
Proof.
  intros Hg HN sl values N.
  pose proof (collected_length P st Hg) as Hlen.
  pose proof (outlier_rejection_eq nth_element nth_element_ok P range st) as E.
  cbv zeta in E. rewrite Hlen in E. fold N sl values in E.
  pose proof (quartile_indices_ordered N) as [H13 _].
  assert (H3 : (upper_quartile_index N < N)%nat)
    by (apply upper_quartile_index_valid; exact HN).
  unfold order_statistic in E.
  fold sl values in Hlen. fold N in Hlen.
  destruct (nth_error (sort values) (lower_quartile_index N)) as [Q1|] eqn:E1;
    [|apply nth_error_None in E1; rewrite sort_length in E1; lia].
  destruct (nth_error (sort values) (upper_quartile_index N)) as [Q3|] eqn:E3;
    [|apply nth_error_None in E3; rewrite sort_length in E3; lia].
  exists Q1, Q3. split; [reflexivity|]. split; [reflexivity|].
  split; [exact (sorted_nth_le (sort values) (sort_sorted values)
                   _ _ Q1 Q3 H13 E1 E3)|].
  split; [exact Hlen|]. split; [|exact E].
  unfold sl. rewrite summed_log_image_length.
  destruct Hg as [Hm Hf]. unfold grid_size in *. lia.
Qed.

End MoreRejection.

Lemma masked_In_intro {A : Type} (m : list bool) :
  forall (img : list A) v x,
    nth_error m v = Some true -> nth_error img v = Some x ->
    In x (masked m img).
Proof.
  induction m as [|b m IH]; intros [|y img] [|v] x Hm Hx; simpl in *;
    try discriminate.
  - inversion Hm; inversion Hx; subst. now left.
  - destruct b; [right|]; eapply IH; eauto.
Qed.

(** X10.  A wider multiplier rejects less: on the same state, every voxel
    that a pass of range [r1] keeps is kept by a pass of range [r2 >= r1],
    and the count of the second is at least that of the first.  In
    particular the first pass of range 3.0 keeps whatever a pass of range
    1.5 on the same state would keep. *)
Theorem rejection_is_monotone_in_range
    (nth_element : nat -> nat -> list R -> list R)
    (P : problem) (r1 r2 : R) (st : state) :
  nth_element_postcondition nth_element ->
  on_grid P st -> (3 <= count_true (initial_mask P))%nat ->
  r1 <= r2 ->
  exists a b,
    outlier_rejection nth_element P r1 st = Ok a /\
    outlier_rejection nth_element P r2 st = Ok b /\
    (forall v, nth_error (mask a) v = Some true ->
               nth_error (mask b) v = Some true) /\
    (num_voxels a <= num_voxels b)%nat.
Proof.
  intros Hne Hg HN Hr.
  destruct (outlier_rejection_on_grid nth_element Hne P r1 st Hg HN)
    as (Q1 & Q3 & E1 & E3 & Hle & Hlen & Hsl & Ha).
  destruct (outlier_rejection_on_grid nth_element Hne P r2 st Hg HN)
    as (Q1' & Q3' & E1' & E3' & _ & _ & _ & Hb).
  rewrite E1 in E1'. rewrite E3 in E3'.
  injection E1' as <-. injection E3' as <-.
  set (sl := summed_log_image P st) in *.
  set (N := count_true (initial_mask P)) in *.
  assert (Himp : forall s,
             is_outlier (Q1 - r2 * (Q3 - Q1)) (Q3 + r2 * (Q3 - Q1)) s = true ->
             is_outlier (Q1 - r1 * (Q3 - Q1)) (Q3 + r1 * (Q3 - Q1)) s = true).
  { intros s H.
    destruct (is_outlier (Q1 - r1 * (Q3 - Q1)) (Q3 + r1 * (Q3 - Q1)) s) eqn:E;
      [reflexivity|].
    apply is_outlier_false_iff in E.
    assert (H' : is_outlier (Q1 - r2 * (Q3 - Q1)) (Q3 + r2 * (Q3 - Q1)) s
                 = false) by (apply is_outlier_false_iff; nra).
    congruence. }
  eexists _, _. split; [exact Ha|]. split; [exact Hb|].
  cbn [mask num_voxels set_mask]. split.
  - intros v Hv.
    assert (Hlt : (v < length (initial_mask P))%nat).
    { rewrite <- (reject_length (initial_mask P) sl
                    (Q1 - r1 * (Q3 - Q1)) (Q3 + r1 * (Q3 - Q1)) N).
      apply nth_error_Some. rewrite Hv. discriminate. }
    destruct (nth_error (initial_mask P) v) as [m|] eqn:Em;
      [|apply nth_error_None in Em; lia].
    destruct (nth_error sl v) as [s|] eqn:Es;
      [|apply nth_error_None in Es; lia].
    rewrite (reject_pointwise _ _ _ _ _ _ _ _ Em Es) in Hv.
    rewrite (reject_pointwise _ _ _ _ _ _ _ _ Em Es).
    injection Hv as Hv. apply andb_true_iff in Hv as [-> Hv].
    apply negb_true_iff in Hv.
    destruct (is_outlier (Q1 - r2 * (Q3 - Q1)) (Q3 + r2 * (Q3 - Q1)) s) eqn:E;
      [|reflexivity].
    apply Himp in E. congruence.
  - rewrite !reject_count.
    pose proof (filter_length_le _ _ (masked (initial_mask P) sl) Himp). lia.
Qed.

Lemma rejection_is_monotone_in_range_witness :
  exists a b,
    outlier_rejection nth_element_by_sorting (problem_of example_input)
                      (15 / 10) (initial_state example_input) = Ok a /\
    outlier_rejection nth_element_by_sorting (problem_of example_input)
                      3 (initial_state example_input) = Ok b /\
    (num_voxels a <= num_voxels b)%nat.
Proof.
  destruct (rejection_is_monotone_in_range nth_element_by_sorting
              (problem_of example_input) (15 / 10) 3
              (initial_state example_input)
              nth_element_by_sorting_correct
              (initial_state_on_grid example_input))
    as (a & b & Ha & Hb & _ & Hn).
  - vm_compute. lia.
  - lra.
  - exists a, b. auto.
Defined.

(** X11.  With a multiplier that is not negative, a rejection pass keeps at
    least the voxels whose value lies between the two quartiles: at least
    [upper offset - lower offset + 1] voxels.  That is at least half of the
    initial mask as long as [3 * N < 2^24], where the offsets are exact, and
    more than [N * (1/2 - 2^-23)] voxels for every [N] a [size_t] can hold:
    the mask cannot collapse in a pass. *)
Theorem rejection_keeps_the_interquartile_voxels
    (nth_element : nat -> nat -> list R -> list R)
    (P : problem) (range : R) (st : state) :
  nth_element_postcondition nth_element ->
  on_grid P st -> (3 <= count_true (initial_mask P))%nat ->
  0 <= range ->
  exists st',
    outlier_rejection nth_element P range st = Ok st' /\
    (upper_quartile_index (count_true (initial_mask P))
     - lower_quartile_index (count_true (initial_mask P)) + 1
     <= num_voxels st')%nat /\
    ((3 * Z.of_nat (count_true (initial_mask P)) < 2 ^ 24)%Z ->
     (count_true (initial_mask P) <= 2 * num_voxels st')%nat) /\
    ((Z.of_nat (count_true (initial_mask P)) < 2 ^ 64)%Z ->
     INR (count_true (initial_mask P)) * (1 / 2 - / 8388608)
     < INR (num_voxels st')).
Proof.
  intros Hne Hg HN Hr.
  destruct (outlier_rejection_on_grid nth_element Hne P range st Hg HN)
    as (Q1 & Q3 & E1 & E3 & Hle & Hlen & Hsl & Hrun).
  set (sl := summed_log_image P st) in *.
  set (N := count_true (initial_mask P)) in *.
  set (values := masked (initial_mask P) sl) in *.
  set (lo := Q1 - range * (Q3 - Q1)) in *.
  set (hi := Q3 + range * (Q3 - Q1)) in *.
  pose proof (quartile_indices_ordered N) as [H13 _].
  assert (H3 : (upper_quartile_index N < N)%nat)
    by (apply upper_quartile_index_valid; exact HN).
  assert (Hkeep : (upper_quartile_index N - lower_quartile_index N + 1
                   <= length (filter (fun s => negb (is_outlier lo hi s))
                                     values))%nat).
  { rewrite <- (filter_length_perm _ _ _ (sort_perm values)).
    apply filter_length_range; [exact H13 | rewrite sort_length; lia|].
    intros i x [Hi1 Hi3] Hx. apply negb_true_iff, is_outlier_false_iff.
    assert (Q1 <= x)
      by exact (sorted_nth_le _ (sort_sorted values) _ _ Q1 x Hi1 E1 Hx).
    assert (x <= Q3)
      by exact (sorted_nth_le _ (sort_sorted values) _ _ x Q3 Hi3 Hx E3).
    unfold lo, hi. nra. }
  pose proof (filter_length_split (is_outlier lo hi) values) as Hsplit.
  eexists. split; [exact Hrun|]. cbn [num_voxels set_mask].
  rewrite reject_count. fold values.
  assert (Hb : (upper_quartile_index N - lower_quartile_index N + 1
                <= N - length (filter (is_outlier lo hi) values))%nat) by lia.
  split; [exact Hb|]. split.
  - intros Hsmall. pose proof (interquartile_half N Hsmall). lia.
  - intros Hsize.
    pose proof (interquartile_count N ltac:(lia) Hsize) as Hc.
    apply le_INR in Hb. lra.
Qed.

Lemma rejection_keeps_the_interquartile_voxels_witness :
  exists st',
    outlier_rejection nth_element_by_sorting (problem_of example_input)
                      0 (initial_state example_input) = Ok st' /\
    (3 <= 2 * num_voxels st')%nat.
Proof.
  destruct (rejection_keeps_the_interquartile_voxels nth_element_by_sorting
              (problem_of example_input) 0 (initial_state example_input)
              nth_element_by_sorting_correct
              (initial_state_on_grid example_input))
    as (st' & Hrun & _ & Hhalf & _).
  - vm_compute. lia.
  - lra.
  - exists st'. split; [exact Hrun|]. apply Hhalf. vm_compute. reflexivity.
Defined.

(** X12.  When the statistic has the same value at every voxel of the
    initial mask, a rejection pass of any multiplier deactivates nothing:
    it leaves the initial mask and its full count. *)
Theorem rejection_keeps_a_constant_image
    (nth_element : nat -> nat -> list R -> list R)
    (P : problem) (range c : R) (st : state) :
  nth_element_postcondition nth_element ->
  on_grid P st -> (3 <= count_true (initial_mask P))%nat ->
  Forall (fun s => s = c) (masked (initial_mask P) (summed_log_image P st)) ->
  exists st',
    outlier_rejection nth_element P range st = Ok st' /\
    mask st' = initial_mask P /\
    num_voxels st' = count_true (initial_mask P).
Proof.
  intros Hne Hg HN Hc.
  destruct (outlier_rejection_on_grid nth_element Hne P range st Hg HN)
    as (Q1 & Q3 & E1 & E3 & Hle & Hlen & Hsl & Hrun).
  set (sl := summed_log_image P st) in *.
  set (N := count_true (initial_mask P)) in *.
  set (values := masked (initial_mask P) sl) in *.
  rewrite Forall_forall in Hc.
  assert (HQ1 : Q1 = c).
  { apply Hc. eapply Permutation_in; [apply sort_perm|].
    eapply nth_error_In; eauto. }
  assert (HQ3 : Q3 = c).
  { apply Hc. eapply Permutation_in; [apply sort_perm|].
    eapply nth_error_In; eauto. }
  subst Q1 Q3.
  set (lo := c - range * (c - c)) in *.
  set (hi := c + range * (c - c)) in *.
  assert (Hin : is_outlier lo hi c = false).
  { apply is_outlier_false_iff. unfold lo, hi. lra. }
  assert (Hnone : filter (is_outlier lo hi) values = []).
  { clear -Hc Hin. induction values as [|s values IH]; [reflexivity|].
    simpl. rewrite (Hc s (or_introl eq_refl)), Hin.
    apply IH. intros x Hx. apply Hc. now right. }
  eexists. split; [exact Hrun|]. cbn [mask num_voxels set_mask]. split.
  - apply nth_error_ext. intros v.
    destruct (nth_error (initial_mask P) v) as [m|] eqn:Em.
    + destruct (nth_error sl v) as [s|] eqn:Es.
      * rewrite (reject_pointwise _ _ _ _ _ _ _ _ Em Es). f_equal.
        destruct m; [|reflexivity].
        rewrite (Hc s (masked_In_intro _ _ _ _ Em Es)), Hin. reflexivity.
      * apply nth_error_None in Es.
        assert (v < length (initial_mask P))%nat
          by (apply nth_error_Some; rewrite Em; discriminate).
        lia.
    + apply nth_error_None. rewrite reject_length.
      now apply nth_error_None.
  - rewrite reject_count. fold values. rewrite Hnone. simpl. lia.
Qed.

Lemma rejection_keeps_a_constant_image_witness :
  exists st',
    outlier_rejection nth_element_by_sorting (problem_of example_input)
                      (15 / 10) (initial_state example_input) = Ok st' /\
    mask st' = [true; true; true] /\ num_voxels st' = 3%nat.
Proof.
  apply (rejection_keeps_a_constant_image nth_element_by_sorting
           (problem_of example_input) (15 / 10)
           (ln (weighted_sum [1] [Float32.to_R Float32.one] 1))
           (initial_state example_input)
           nth_element_by_sorting_correct
           (initial_state_on_grid example_input)).
  - vm_compute. lia.
  - repeat constructor.
Defined.

(** ** Invariants of a run *)

Section Preservation.

Variable llt_solve : MatrixXd -> VectorXd -> VectorXd.
Variable nth_element : nat -> nat -> list R -> list R.
Variable P : problem.

(** A property of the state that every step of the engine keeps is kept by
    the iterations as a whole. *)
Variable Inv : state -> Prop.

Hypothesis Inv_emit :
  forall e st, Inv st -> loop_event st e -> Inv (emit e st).
Hypothesis Inv_prev_mask :
  forall st, Inv st -> Inv (set_prev_mask (mask st) st).
Hypothesis Inv_rejection :
  forall range st st',
    0 <= range ->
    Inv st -> outlier_rejection nth_element P range st = Ok st' -> Inv st'.
Hypothesis Inv_balance :
  forall st st',
    Inv st -> (1 < n_tissue_types P)%nat ->
    balance_estimation llt_solve P st = Ok st' -> Inv st'.
Hypothesis Inv_field_fit :
  forall st, Inv st -> Inv (field_fit llt_solve P st).

Lemma balance_pass_preserves (k : nat) (st st' : state) (c : bool) :
  Inv st -> balance_pass llt_solve nth_element P k st = Ok (st', c) -> Inv st'.
Proof.
  unfold balance_pass. intros HI H.
  apply bind_Ok in H as (st1 & H1 & H).
  apply bind_Ok in H as (st2 & H2 & H).
  injection H as <- _.
  assert (HI1 : Inv st1).
  { destruct (Nat.ltb_spec 1 (n_tissue_types P)) as [HT|HT].
    - eapply Inv_balance; [|exact HT|exact H1].
      apply Inv_emit; [exact HI | exact I].
    - injection H1 as <-. apply Inv_emit; [exact HI | exact I]. }
  apply (Inv_prev_mask (emit (Masks_compared (mask st2) (prev_mask st2)) st2)).
  apply Inv_emit; [|exact I].
  apply (Inv_rejection (15 / 10)
           (emit (INFO_Balance_factors k (balance_factors st1)) st1) st2);
    [lra| |exact H2].
  apply Inv_emit; [exact HI1 | reflexivity].
Qed.

Lemma balance_loop_preserves (n : nat) :
  forall k st st',
    Inv st -> balance_loop llt_solve nth_element P n k st = Ok st' -> Inv st'.
Proof.
  induction n as [|n IH]; intros k st st' HI H; simpl in H.
  - now injection H as <-.
  - apply bind_Ok in H as ([st1 c] & H1 & H). simpl in H.
    apply balance_pass_preserves in H1; [|exact HI].
    destruct c; [now injection H as <- | eauto].
Qed.

Lemma main_loop_preserves (n : nat) :
  forall i st st',
    Inv st -> main_loop llt_solve nth_element P n i st = Ok st' -> Inv st'.
Proof.
  induction n as [|n IH]; intros i st st' HI H; cbn [main_loop] in H.
  - now injection H as <-.
  - apply bind_Ok in H as (st1 & H1 & H).
    apply balance_loop_preserves in H1;
      [|apply Inv_emit; [exact HI | exact I]].
    eapply IH; [|exact H].
    apply Inv_emit; [|exact I]. now apply Inv_field_fit.
Qed.

Lemma iterate_preserves (st st' : state) :
  Inv st -> iterate llt_solve nth_element P st = Ok st' -> Inv st'.
Proof.
  unfold iterate. intros HI H.
  apply bind_Ok in H as (st1 & H1 & H).
  eapply main_loop_preserves; [|exact H].
  apply Inv_prev_mask. apply (Inv_rejection 3 st st1); [lra|exact HI|exact H1].
Qed.

End Preservation.

Lemma run_Ok_iterate
    (llt_solve : MatrixXd -> VectorXd -> VectorXd)
    (nth_element : nat -> nat -> list R -> list R)
    (inp : input) (out : output) :
  run llt_solve nth_element inp = Ok out ->
  iterate llt_solve nth_element (problem_of inp) (initial_state inp)
  = Ok (final out) /\
  out = write_outputs inp (final out).
Proof.
  unfold run. intros H.
  destruct (count_true (refined_mask inp) =? 0)%nat; [discriminate|].
  apply bind_Ok in H as (st & Hit & H). injection H as <-.
  split; [exact Hit | reflexivity].
Qed.

(** X14.  In a run that completes, the field image and the log field are in
    step at the output stage: the field image is the exponential of the log
    field at every voxel, with no iteration (field 1, log field 0) as after
    the last fit, and both have one value per voxel of the grid. *)
Theorem field_image_is_exp_of_log_field
    (llt_solve : MatrixXd -> VectorXd -> VectorXd)
    (nth_element : nat -> nat -> list R -> list R)
    (inp : input) (out : output) :
  run llt_solve nth_element inp = Ok out ->
  norm_field_image (final out) = map exp (norm_field_log (final out)) /\
  length (norm_field_image (final out))
  = length (nth 0%nat (input_images inp) []) /\
  length (norm_field_log (final out))
  = length (nth 0%nat (input_images inp) []).
Proof.
  intros Hrun. apply run_Ok_iterate in Hrun as [Hit _].
  assert (H : norm_field_image (final out)
              = map exp (norm_field_log (final out)) /\
              on_grid (problem_of inp) (final out)).
  { revert Hit.
    apply (iterate_preserves llt_solve nth_element (problem_of inp)
             (fun st => norm_field_image st = map exp (norm_field_log st) /\
                        on_grid (problem_of inp) st)).
    - intros e st H _. exact H.
    - intros st H. exact H.
    - intros range st st' _ [H Hg] Hr.
      apply outlier_rejection_frame in Hr as (_ & _ & _ & Hl & Hi).
      split; [congruence|]. destruct Hg as [Hm Hf]. split; [exact Hm | congruence].
    - intros st st' [H Hg] _ Hb.
      apply balance_estimation_frame in Hb as (_ & _ & _ & _ & Hl & Hi).
      split; [congruence|]. destruct Hg as [Hm Hf]. split; [exact Hm | congruence].
    - intros st [H Hg]. split; [reflexivity|].
      now apply field_fit_on_grid.
    - split; [|apply initial_state_on_grid].
      simpl. induction (length (nth 0%nat (input_images inp) [])) as [|n IH];
        simpl; [reflexivity|]. rewrite exp_0. now f_equal. }
  destruct H as [H [_ Hlen]].
  assert (Hgrid : grid_size (problem_of inp)
                  = length (nth 0%nat (input_images inp) [])).
  { unfold grid_size, problem_of, tissue_components. simpl.
    now rewrite length_map, length_seq. }
  split; [exact H|]. split; [congruence|].
  rewrite <- Hgrid, <- Hlen, H. now rewrite length_map.
Qed.

Lemma field_image_is_exp_of_log_field_witness :
  exists out,
    run echo_solve nth_element_by_sorting example_input = Ok out /\
    norm_field_image (final out) = map exp (norm_field_log (final out)).
Proof.
  destruct (run_single_tissue_completes echo_solve nth_element_by_sorting
              example_input nth_element_by_sorting_correct) as [out Hrun].
  - simpl. lia.
  - vm_compute. lia.
  - exists out. split; [exact Hrun|].
    exact (proj1 (field_image_is_exp_of_log_field _ _ _ _ Hrun)).
Defined.

Lemma kept_between_quartiles (values : list R) (Q1 Q3 range : R) :
  nth_error (sort values) (lower_quartile_index (length values)) = Some Q1 ->
  nth_error (sort values) (upper_quartile_index (length values)) = Some Q3 ->
  0 <= range ->
  (upper_quartile_index (length values)
   - lower_quartile_index (length values) + 1
   <= length values
      - length (filter (is_outlier (Q1 - range * (Q3 - Q1))
                                   (Q3 + range * (Q3 - Q1))) values))%nat.
Proof.
  intros E1 E3 Hr.
  set (N := length values) in *.
  set (lo := Q1 - range * (Q3 - Q1)). set (hi := Q3 + range * (Q3 - Q1)).
  pose proof (quartile_indices_ordered N) as [H13 _].
  assert (H3 : (upper_quartile_index N < N)%nat).
  { unfold N at 2. rewrite <- (sort_length values).
    apply nth_error_Some. rewrite E3. discriminate. }
  assert (Hle : Q1 <= Q3)
    by exact (sorted_nth_le _ (sort_sorted values) _ _ Q1 Q3 H13 E1 E3).
  assert (Hkeep : (upper_quartile_index N - lower_quartile_index N + 1
                   <= length (filter (fun s => negb (is_outlier lo hi s))
                                     values))%nat).
  { rewrite <- (filter_length_perm _ _ _ (sort_perm values)).
    apply filter_length_range; [exact H13 | rewrite sort_length; exact H3|].
    intros i x [Hi1 Hi3] Hx. apply negb_true_iff, is_outlier_false_iff.
    assert (Q1 <= x)
      by exact (sorted_nth_le _ (sort_sorted values) _ _ Q1 x Hi1 E1 Hx).
    assert (x <= Q3)
      by exact (sorted_nth_le _ (sort_sorted values) _ _ x Q3 Hi3 Hx E3).
    unfold lo, hi. nra. }
  pose proof (filter_length_split (is_outlier lo hi) values) as Hsplit.
  fold N in Hsplit. fold lo hi. lia.
Qed.

Lemma outlier_rejection_mask_invariant
    (nth_element : nat -> nat -> list R -> list R)
    (P : problem) (range : R) (st st' : state) :
  nth_element_postcondition nth_element ->
  0 <= range -> on_grid P st ->
  outlier_rejection nth_element P range st = Ok st' ->
  (3 <= count_true (initial_mask P))%nat /\ mask_invariant P st'.
Proof.
  intros Hne Hr Hg Hrun.
  assert (HN : (3 <= count_true (initial_mask P))%nat).
  { destruct (Nat.lt_ge_cases (count_true (initial_mask P)) 3) as [Hlt|Hge];
      [|exact Hge].
    rewrite (outlier_rejection_too_few nth_element Hne P range st Hg Hlt)
      in Hrun. discriminate. }
  split; [exact HN|].
  destruct (outlier_rejection_on_grid nth_element Hne P range st Hg HN)
    as (Q1 & Q3 & E1 & E3 & Hle & Hlen & Hsl & E).
  rewrite E in Hrun. injection Hrun as <-.
  set (sl := summed_log_image P st) in *.
  set (N := count_true (initial_mask P)) in *.
  set (lo := Q1 - range * (Q3 - Q1)) in *.
  set (hi := Q3 + range * (Q3 - Q1)) in *.
  unfold mask_invariant. cbn [mask num_voxels set_mask].
  split; [exact Hg|]. split; [apply reject_length|]. split; [|split].
  - intros v Hv.
    assert (Hlt : (v < length (initial_mask P))%nat).
    { rewrite <- (reject_length (initial_mask P) sl lo hi N).
      apply nth_error_Some. rewrite Hv. discriminate. }
    destruct (nth_error (initial_mask P) v) as [b|] eqn:Eb;
      [|apply nth_error_None in Eb; lia].
    destruct (nth_error sl v) as [s|] eqn:Es;
      [|apply nth_error_None in Es; lia].
    rewrite (reject_pointwise _ _ _ _ _ _ _ _ Eb Es) in Hv.
    injection Hv as Hb. apply andb_true_iff in Hb as [Hb _]. now rewrite Hb.
  - rewrite reject_count.
    pose proof (reject_count_true (initial_mask P) sl lo hi N) as Hc.
    fold N in Hc. lia.
  - rewrite reject_count.
    pose proof (kept_between_quartiles (masked (initial_mask P) sl) Q1 Q3
                  range) as K.
    rewrite Hlen in K. exact (K E1 E3 Hr).
Qed.

(** X15.  In a run that completes, the initial mask has three voxels or more,
    and the final mask is a part of it; [num_voxels] is the number of voxels
    of the final mask, and it is at least the number of positions from the
    lower to the upper quartile offset of the initial mask: at least half of
    the initial mask as long as three times its size is below [2^24], and
    more than [N * (1/2 - 2^-23)] voxels for every size a [size_t] can
    hold. *)
Theorem final_mask_is_a_counted_subset
    (llt_solve : MatrixXd -> VectorXd -> VectorXd)
    (nth_element : nat -> nat -> list R -> list R)
    (inp : input) (out : output) :
  nth_element_postcondition nth_element ->
  run llt_solve nth_element inp = Ok out ->
  (3 <= count_true (refined_mask inp))%nat /\
  length (mask (final out)) = length (refined_mask inp) /\
  (forall v, nth_error (mask (final out)) v = Some true ->
             nth_error (refined_mask inp) v = Some true) /\
  num_voxels (final out) = count_true (mask (final out)) /\
  (upper_quartile_index (count_true (refined_mask inp))
   - lower_quartile_index (count_true (refined_mask inp)) + 1
   <= num_voxels (final out))%nat /\
  ((3 * Z.of_nat (count_true (refined_mask inp)) < 2 ^ 24)%Z ->
   (count_true (refined_mask inp) <= 2 * num_voxels (final out))%nat) /\
  ((Z.of_nat (count_true (refined_mask inp)) < 2 ^ 64)%Z ->
   INR (count_true (refined_mask inp)) * (1 / 2 - / 8388608)
   < INR (num_voxels (final out))).
Proof.
  intros Hne Hrun. apply run_Ok_iterate in Hrun as [Hit _].
  assert (HN : (3 <= count_true (refined_mask inp))%nat).
  { unfold iterate in Hit. apply bind_Ok in Hit as (st1 & H1 & _).
    now apply (outlier_rejection_mask_invariant nth_element
                 (problem_of inp) 3 (initial_state inp) st1 Hne ltac:(lra)
                 (initial_state_on_grid inp)) in H1 as [H1 _]. }
  split; [exact HN|].
  assert (H : mask_invariant (problem_of inp) (final out)).
  { revert Hit.
    apply (iterate_preserves llt_solve nth_element (problem_of inp)
             (mask_invariant (problem_of inp))).
    - intros e st H _. exact H.
    - intros st H. exact H.
    - intros range st st' Hr [Hg _] Hrej.
      now apply (outlier_rejection_mask_invariant nth_element
                   (problem_of inp) range st st' Hne Hr Hg) in Hrej as [_ H].
    - intros st st' (Hg & Hl & Hs & Hn & Hh) _ Hb.
      apply balance_estimation_frame in Hb as (_ & Hm & _ & Hnv & _ & Hi).
      unfold mask_invariant. rewrite Hm, Hnv.
      split; [|auto]. destruct Hg as [Hg1 Hg2]. split; [exact Hg1 | congruence].
    - intros st (Hg & Hl & Hs & Hn & Hh). unfold mask_invariant.
      split; [now apply field_fit_on_grid | auto].
    - split; [apply initial_state_on_grid|]. simpl.
      repeat split; auto.
      pose proof (proj2 (upper_quartile_index_valid
                           (count_true (refined_mask inp))) HN). lia. }
  destruct H as (_ & Hl & Hs & Hn & Hh).
  cbn [initial_mask problem_of] in Hh.
  split; [exact Hl|]. split; [exact Hs|]. split; [exact Hn|].
  split; [exact Hh|]. split.
  - intros Hsmall. pose proof (interquartile_half _ Hsmall). lia.
  - intros Hsize.
    assert (H1 : (1 <= count_true (refined_mask inp))%nat) by lia.
    pose proof (interquartile_count _ H1 Hsize) as Hc.
    apply le_INR in Hh. lra.
Qed.

Lemma final_mask_is_a_counted_subset_witness :
  exists out,
    run echo_solve nth_element_by_sorting example_input = Ok out /\
    num_voxels (final out) = count_true (mask (final out)) /\
    (3 <= 2 * num_voxels (final out))%nat.
Proof.
  destruct (run_single_tissue_completes echo_solve nth_element_by_sorting
              example_input nth_element_by_sorting_correct) as [out Hrun].
  - simpl. lia.
  - vm_compute. lia.
  - destruct (final_mask_is_a_counted_subset echo_solve nth_element_by_sorting
                example_input out nth_element_by_sorting_correct Hrun)
      as (_ & _ & _ & Hn & _ & Hh & _).
    exists out. split; [exact Hrun|]. split; [exact Hn|].
    apply Hh. vm_compute. reflexivity.
Defined.

(** X16.  With a single tissue the balance estimation is never run: in a run
    that completes, the one balance factor is 1 at the end and in every
    "Balance factors" message of the trace. *)
Theorem single_tissue_factor_stays_one
    (llt_solve : MatrixXd -> VectorXd -> VectorXd)
    (nth_element : nat -> nat -> list R -> list R)
    (inp : input) (out : output) :
  length (input_images inp) = 1%nat ->
  run llt_solve nth_element inp = Ok out ->
  balance_factors (final out) = [1] /\
  (forall k f, In (INFO_Balance_factors k f) (trace (final out)) -> f = [1]) /\
  ~ In Balance_estimated (trace (final out)).
Proof.
  intros HT Hrun. apply run_Ok_iterate in Hrun as [Hit _].
  revert Hit.
  apply (iterate_preserves llt_solve nth_element (problem_of inp)
           (fun st => balance_factors st = [1] /\
                      (forall k f, In (INFO_Balance_factors k f) (trace st) ->
                                   f = [1]) /\
                      ~ In Balance_estimated (trace st))).
  - intros e st (Hb & Ht & Hn) He. cbn [balance_factors trace emit].
    split; [exact Hb|]. split.
    + intros k f Hin. apply in_app_or in Hin as [Hin|[Hin|[]]]; [eauto|].
      subst e. simpl in He. now rewrite He.
    + intros Hin. apply in_app_or in Hin as [Hin|[Hin|[]]]; [auto|].
      subst e. exact He.
  - intros st H. exact H.
  - intros range st st' _ (Hb & Ht & Hn) Hr.
    apply outlier_rejection_frame in Hr as (Htr & _ & Hbf & _).
    rewrite Htr, Hbf. split; [exact Hb|]. split.
    + intros k f Hin. apply in_app_or in Hin as [Hin|[Hin|[]]];
        [eauto | discriminate].
    + intros Hin. apply in_app_or in Hin as [Hin|[Hin|[]]];
        [auto | discriminate].
  - intros st st' _ HT'. simpl in HT'. lia.
  - intros st (Hb & Ht & Hn). cbn [balance_factors trace field_fit set_field emit].
    split; [exact Hb|]. split.
    + intros k f Hin. apply in_app_or in Hin as [Hin|[Hin|[]]];
        [eauto | discriminate].
    + intros Hin. apply in_app_or in Hin as [Hin|[Hin|[]]];
        [auto | discriminate].
  - simpl. rewrite HT. split; [reflexivity|]. split.
    + intros k f [].
    + intros [].
Qed.

Lemma single_tissue_factor_stays_one_witness :
  exists out,
    run echo_solve nth_element_by_sorting example_input = Ok out /\
    balance_factors (final out) = [1].
Proof.
  destruct (run_single_tissue_completes echo_solve nth_element_by_sorting
              example_input nth_element_by_sorting_correct) as [out Hrun].
  - simpl. lia.
  - vm_compute. lia.
  - exists out. split; [exact Hrun|].
    exact (proj1 (single_tissue_factor_stays_one echo_solve
                    nth_element_by_sorting example_input out eq_refl Hrun)).
Defined.

(** ** A single tissue: the balance loop settles at once *)

Lemma masks_identical_refl (m : list bool) : masks_identical m m = true.
Proof.
  induction m as [|b m IH]; [reflexivity|].
  simpl. now rewrite Bool.eqb_reflx.
Qed.

Lemma outlier_rejection_same_statistic
    (nth_element : nat -> nat -> list R -> list R)
    (P : problem) (range : R) (st1 st2 a b : state) :
  summed_log_image P st1 = summed_log_image P st2 ->
  outlier_rejection nth_element P range st1 = Ok a ->
  outlier_rejection nth_element P range st2 = Ok b ->
  mask a = mask b.
Proof.
  unfold outlier_rejection, deref. intros Hs. rewrite Hs.
  destruct (nth_error _ _) as [q1|]; simpl; [|discriminate].
  destruct (nth_error _ _) as [q3|]; simpl; [|discriminate].
  destruct (reject _ _ _ _ _). intros Ha Hb.
  injection Ha as <-. injection Hb as <-. reflexivity.
Qed.

Section SingleTissue.

Variable llt_solve : MatrixXd -> VectorXd -> VectorXd.
Variable nth_element : nat -> nat -> list R -> list R.
Variable P : problem.
Hypothesis single : (n_tissue_types P <= 1)%nat.

Lemma balance_pass_single (k : nat) (st st1 : state) (c : bool) :
  balance_pass llt_solve nth_element P k st = Ok (st1, c) ->
  exists r,
    outlier_rejection nth_element P (15 / 10)
      (emit (INFO_Balance_factors k (balance_factors st))
            (emit (DEBUG_balance_starts k) st)) = Ok r /\
    mask st1 = mask r /\ prev_mask st1 = mask r /\
    c = masks_identical (mask r) (prev_mask st) /\
    summed_log_image P st1 = summed_log_image P st.
Proof.
  unfold balance_pass.
  destruct (Nat.ltb_spec 1 (n_tissue_types P)) as [HT|_]; [lia|].
  cbn [bind]. intros H. apply bind_Ok in H as (r & Hr & H).
  injection H as <- <-. exists r. split; [exact Hr|].
  apply outlier_rejection_frame in Hr as (_ & Hp & Hb & _ & Hi).
  cbn [mask prev_mask set_prev_mask emit]. repeat split.
  - now rewrite Hp.
  - unfold summed_log_image.
    cbn [balance_factors norm_field_image set_prev_mask emit].
    now rewrite Hb, Hi.
Qed.

Lemma second_pass_converges (k k' : nat) (st st1 st2 : state) (c1 c2 : bool) :
  balance_pass llt_solve nth_element P k st = Ok (st1, c1) ->
  balance_pass llt_solve nth_element P k' st1 = Ok (st2, c2) ->
  c2 = true.
Proof.
  intros H1 H2.
  apply balance_pass_single in H1 as (r1 & Hr1 & Hm1 & Hp1 & _ & Hs1).
  apply balance_pass_single in H2 as (r2 & Hr2 & _ & _ & -> & _).
  rewrite Hp1.
  rewrite (outlier_rejection_same_statistic nth_element P (15 / 10)
             (emit (INFO_Balance_factors k' (balance_factors st1))
                   (emit (DEBUG_balance_starts k') st1))
             (emit (INFO_Balance_factors k (balance_factors st))
                   (emit (DEBUG_balance_starts k) st))
             r2 r1 Hs1 Hr2 Hr1).
  apply masks_identical_refl.
Qed.

Lemma balance_loop_two_passes (n k : nat) (st st' : state) :
  balance_loop llt_solve nth_element P (S (S n)) k st = Ok st' ->
  exists ps,
    trace st' = trace st ++ passes_events (n_tissue_types P) k ps /\
    (1 <= length ps <= 2)%nat.
Proof.
  cbn [balance_loop]. intros H.
  apply bind_Ok in H as ([st1 c1] & H1 & H). cbn [fst snd] in H.
  pose proof H1 as H1'.
  apply balance_pass_trace in H1' as (p1 & Ht1 & _).
  destruct c1.
  - injection H as <-. exists [p1]. simpl. rewrite app_nil_r.
    split; [exact Ht1 | lia].
  - apply bind_Ok in H as ([st2 c2] & H2 & H). cbn [fst snd] in H.
    pose proof (second_pass_converges _ _ _ _ _ _ _ H1 H2) as ->.
    injection H as <-.
    apply balance_pass_trace in H2 as (p2 & Ht2 & _).
    exists [p1; p2]. simpl. rewrite app_nil_r.
    split; [|lia]. rewrite Ht2, Ht1. now rewrite <- app_assoc.
Qed.

Lemma main_loop_two_passes (n : nat) :
  forall i st st',
    main_loop llt_solve nth_element P n i st = Ok st' ->
    exists its,
      length its = n /\
      trace st' = trace st ++ iterations_events (n_tissue_types P) i its /\
      Forall (fun ps => (1 <= length ps <= 2)%nat) its.
Proof.
  induction n as [|n IH]; intros i st st' H; cbn [main_loop] in H.
  - injection H as <-. exists []. simpl. now rewrite app_nil_r.
  - apply bind_Ok in H as (st1 & H1 & H).
    change max_balance_iter with (S (S 5)) in H1.
    apply balance_loop_two_passes in H1 as (ps & Ht & Hlen).
    apply IH in H as (its & Hn & Ht' & Hall).
    exists (ps :: its). cbn [length iterations_events]. repeat split.
    + now rewrite Hn.
    + rewrite Ht'. cbn [trace emit field_fit set_field]. rewrite Ht.
      unfold iteration_events. cbn [trace emit].
      now rewrite <- !app_assoc.
    + constructor; [lia | exact Hall].
Qed.

End SingleTissue.

(** X17.  With a single tissue every outer iteration of a run that completes
    makes one or two passes of the balance loop, never more: nothing changes
    between two passes, so the second rejection reproduces the mask of the
    first and the loop ends. *)
Theorem single_tissue_takes_two_passes
    (llt_solve : MatrixXd -> VectorXd -> VectorXd)
    (nth_element : nat -> nat -> list R -> list R)
    (inp : input) (out : output) :
  (length (input_images inp) <= 1)%nat ->
  run llt_solve nth_element inp = Ok out ->
  exists its : list (list pass_record),
    trace (final out)
    = Outlier_rejection 3 :: iterations_events (length (input_images inp)) 1 its /\
    length its = get_option_value (niter inp) 15%nat /\
    Forall (fun ps => (1 <= length ps <= 2)%nat) its.
Proof.
  intros HT Hrun. apply run_Ok_iterate in Hrun as [Hit _].
  unfold iterate in Hit. apply bind_Ok in Hit as (st1 & H1 & Hloop).
  apply outlier_rejection_frame in H1 as (Ht1 & _).
  apply (main_loop_two_passes llt_solve nth_element (problem_of inp) HT)
    in Hloop as (its & Hlen & Ht & Hall).
  cbn [trace set_prev_mask] in Ht. rewrite Ht1 in Ht.
  exists its. split; [exact Ht|]. split; [exact Hlen | exact Hall].
Qed.

Lemma single_tissue_takes_two_passes_witness :
  exists out its,
    run echo_solve nth_element_by_sorting example_input = Ok out /\
    trace (final out) = Outlier_rejection 3 :: iterations_events 1 1 its /\
    Forall (fun ps => (1 <= length ps <= 2)%nat) its.
Proof.
  destruct (run_single_tissue_completes echo_solve nth_element_by_sorting
              example_input nth_element_by_sorting_correct) as [out Hrun].
  - simpl. lia.
  - vm_compute. lia.
  - destruct (single_tissue_takes_two_passes echo_solve nth_element_by_sorting
                example_input out) as (its & Ht & _ & Hall).
    + simpl. lia.
    + exact Hrun.
    + exists out, its. auto.
Defined.

(** ** The field evaluator *)

Lemma map_constant {A B : Type} (c : B) (l : list A) :
  map (fun _ => c) l = repeat c (length l).
Proof. induction l as [|x l IH]; simpl; [reflexivity | now rewrite IH]. Qed.

(** X18.  With order 0 the normalisation cannot vary in space: whatever the
    solver returns, the fitted log field has the same value at every voxel,
    the first weight, and the field image is its exponential everywhere. *)
Theorem order_zero_field_is_constant
    (llt_solve : MatrixXd -> VectorXd -> VectorXd)
    (P : problem) (st : state) :
  n_basis_vecs P = GetBasisVecs 0 ->
  let w := nth 0 (norm_field_weights (field_fit llt_solve P st)) 0 in
  norm_field_log (field_fit llt_solve P st) = repeat w (grid_size P) /\
  norm_field_image (field_fit llt_solve P st) = repeat (exp w) (grid_size P).
Proof.
  intros Ho w.
  assert (Hlog : norm_field_log (field_fit llt_solve P st)
                 = repeat w (grid_size P)).
  { unfold field_fit. cbn [norm_field_log set_field].
    replace (repeat w (grid_size P))
      with (map (fun _ : nat => w) (seq 0 (grid_size P)))
      by (now rewrite map_constant, length_seq).
    apply map_ext. intros v. rewrite Ho.
    destruct (voxel2scanner P v) as [[x y] z]. cbn [GetBasisVecs PolyBasisFunction Nat.ltb Nat.leb].
    unfold w, field_fit. cbn [norm_field_weights set_field].
    destruct (Choleski llt_solve _ _) as [|w0 ws]; [reflexivity|].
    rewrite dot_cons. unfold dot. destruct ws; simpl; lra. }
  split; [exact Hlog|].
  assert (Him : norm_field_image (field_fit llt_solve P st)
                = map exp (norm_field_log (field_fit llt_solve P st)))
    by reflexivity.
  rewrite Him, Hlog. clear.
  induction (grid_size P) as [|n IH]; simpl; [reflexivity | now rewrite IH].
Qed.

Lemma order_zero_field_is_constant_witness :
  norm_field_log (field_fit echo_solve two_tissue_problem two_tissue_state)
  = repeat (nth 0 (norm_field_weights
                     (field_fit echo_solve two_tissue_problem two_tissue_state))
                0) 3.
Proof.
  apply (order_zero_field_is_constant echo_solve two_tissue_problem
           two_tissue_state).
  reflexivity.
Defined.

(** X19.  Zero weights give the neutral field: when the solver returns the
    zero vector the log field is 0 and the field image is 1 at every voxel
    of the grid, for every order. *)
Theorem zero_weights_give_neutral_field
    (llt_solve : MatrixXd -> VectorXd -> VectorXd)
    (P : problem) (st : state) :
  Forall (fun w => w = 0)
         (Choleski llt_solve (field_design P st) (field_target P st)) ->
  norm_field_log (field_fit llt_solve P st) = repeat 0 (grid_size P) /\
  norm_field_image (field_fit llt_solve P st) = repeat 1 (grid_size P).
Proof.
  intros Hz.
  assert (Hlog : norm_field_log (field_fit llt_solve P st)
                 = repeat 0 (grid_size P)).
  { unfold field_fit. cbn [norm_field_log set_field].
    replace (repeat 0 (grid_size P))
      with (map (fun _ : nat => 0) (seq 0 (grid_size P)))
      by (now rewrite map_constant, length_seq).
    apply map_ext. intros v. now apply dot_zero_r. }
  split; [exact Hlog|].
  assert (Him : norm_field_image (field_fit llt_solve P st)
                = map exp (norm_field_log (field_fit llt_solve P st)))
    by reflexivity.
  rewrite Him, Hlog. clear.
  induction (grid_size P) as [|n IH]; simpl; [reflexivity|].
  now rewrite IH, exp_0.
Qed.

Lemma zero_weights_give_neutral_field_witness :
  norm_field_image (field_fit zero_solve (problem_of example_input)
                              (initial_state example_input))
  = [1; 1; 1].
Proof.
  apply (zero_weights_give_neutral_field zero_solve (problem_of example_input)
           (initial_state example_input)).
  unfold Choleski, zero_solve. apply Forall_map, Forall_forall. reflexivity.
Defined.

(** ** The output rows *)

Lemma to_R_of_not_negative (x : spec_float) :
  Float32.ltb x Float32.zero = false -> 0 <= Float32.to_R x.
Proof.
  destruct x as [s|s| |s mant e]; simpl; try lra.
  destruct s; [discriminate|]. intros _. apply Rlt_le, to_R_positive.
Qed.

Lemma ReadInOutput_first_volume (m f : R) (row : list spec_float) :
  0 <= m -> 0 < f -> 0 <= nth 0 (ReadInOutput m row f) 0.
Proof.
  intros Hm Hf. unfold ReadInOutput, value0.
  destruct (Float32.ltb (nth 0 row Float32.zero) Float32.zero) eqn:E.
  - destruct row; simpl; lra.
  - destruct row as [|x row]; simpl; [lra|]. simpl in E.
    apply to_R_of_not_negative in E.
    apply Rmult_le_pos; [nra | apply Rlt_le, Rinv_0_lt_compat, Hf].
Qed.

(** X20.  The output of one voxel, for a first input volume that is finite,
    a multiplier that is not negative and a field value that is positive:
    the first volume of the output row is not negative, and it is zero
    exactly when the first input volume is zero or negative or the
    multiplier is zero. *)
Theorem output_first_volume_is_non_negative
    (m f : R) (x : spec_float) (row : list spec_float) :
  Float32.isfinite x = true -> 0 <= m -> 0 < f ->
  0 <= nth 0 (ReadInOutput m (x :: row) f) 0 /\
  nth 0 (ReadInOutput m (x :: row) f) 0 = Rmax (Float32.to_R x) 0 * m / f /\
  (nth 0 (ReadInOutput m (x :: row) f) 0 = 0 <->
   Float32.to_R x <= 0 \/ m = 0).
Proof.
  intros Hfin Hm Hf.
  split; [apply ReadInOutput_first_volume; assumption|].
  assert (Hinv : 0 < / f) by (apply Rinv_0_lt_compat, Hf).
  assert (E : nth 0 (ReadInOutput m (x :: row) f) 0
              = Rmax (Float32.to_R x) 0 * m / f).
  { unfold ReadInOutput, value0. cbn [nth].
    destruct (Float32.ltb x Float32.zero) eqn:El.
    - cbn [length repeat nth].
      destruct x as [s|s| |s mant e]; try discriminate.
      destruct s; [|discriminate].
      pose proof (to_R_positive mant e) as Hp.
      unfold Float32.to_R, cond_Zopp in *. rewrite opp_IZR.
      rewrite Rmax_right by (simpl; nra). lra.
    - cbn [map nth]. apply to_R_of_not_negative in El.
      now rewrite Rmax_left by exact El. }
  split; [exact E|]. rewrite E. unfold Rmax.
  destruct (Rle_dec (Float32.to_R x) 0) as [Hle|Hgt].
  - split; [intros _; now left | intros _; lra].
  - split.
    + intros H0. right.
      assert (Hz : Float32.to_R x * m = 0).
      { apply (Rmult_eq_reg_r (/ f)); [|lra]. unfold Rdiv in H0. lra. }
      apply Rmult_integral in Hz as [Hz|Hz]; lra.
    + intros [Hle| ->]; [lra|]. unfold Rdiv. lra.
Qed.

Lemma output_first_volume_is_non_negative_witness :
  0 <= nth 0 (ReadInOutput 1 [Float32.minus_one; Float32.one] 1) 0.
Proof.
  apply (output_first_volume_is_non_negative 1 1 Float32.minus_one
           [Float32.one]); [reflexivity | lra | lra].
Defined.

(** X21.  An output row has as many volumes as the input row, and when the
    first volume of the input is not negative, multiplying the unbalanced
    output by the field gives the input back, volume by volume. *)
Theorem output_times_field_is_input
    (m f : R) (row : list spec_float) :
  length (ReadInOutput m row f) = length row /\
  (Float32.ltb (value0 row) Float32.zero = false -> f <> 0 ->
   map (fun y => y * f) (ReadInOutput 1 row f) = map Float32.to_R row).
Proof.
  split.
  - unfold ReadInOutput.
    destruct (Float32.ltb (value0 row) Float32.zero);
      [apply repeat_length | apply length_map].
  - intros Hpos Hf. unfold ReadInOutput. rewrite Hpos, map_map.
    apply map_ext. intros x. field. exact Hf.
Qed.

Lemma output_times_field_is_input_witness :
  map (fun y => y * 2) (ReadInOutput 1 [Float32.one; Float32.minus_one] 2)
  = map Float32.to_R [Float32.one; Float32.minus_one].
Proof.
  apply (output_times_field_is_input 1 2 [Float32.one; Float32.minus_one]).
  - reflexivity.
  - lra.
Defined.

(** ** The convergence check *)

(** X22.  On two masks of the same grid the convergence check answers [true]
    exactly when the masks are equal; it compares two masks of different
    sizes on their common part only. *)
Theorem convergence_check_decides_equality (m p : list bool) :
  (length m = length p -> (masks_identical m p = true <-> m = p)) /\
  masks_identical m p
  = masks_identical (firstn (Nat.min (length m) (length p)) m)
                    (firstn (Nat.min (length m) (length p)) p).
Proof.
  split.
  - revert p. induction m as [|a m IH]; intros [|b p] Hlen;
      try discriminate Hlen.
    + split; reflexivity.
    + simpl. injection Hlen as Hlen. specialize (IH p Hlen).
      destruct (Bool.eqb a b) eqn:E.
      * apply Bool.eqb_prop in E. subst b. rewrite IH.
        split; [intros ->; reflexivity | intros H; now injection H].
      * split; [discriminate|]. intros H. injection H as -> _.
        now rewrite Bool.eqb_reflx in E.
  - revert p. induction m as [|a m IH]; intros [|b p]; try reflexivity.
    simpl. destruct (Bool.eqb a b); [apply IH | reflexivity].
Qed.

Lemma convergence_check_decides_equality_witness :
  masks_identical [true; false] [true; false] = true <->
  [true; false] = [true; false].
Proof.
  apply (convergence_check_decides_equality [true; false] [true; false]).
  reflexivity.
Defined.

Lemma basis_lengths (order : Z) (pos : Vector3) :
  length (PolyBasisFunction (GetBasisVecs order) pos) = GetBasisVecs order.
Proof.
  destruct pos as [[x y] z].
  destruct order as [|[[|[]|]|[]|]|]; reflexivity.
Qed.

Lemma components_lengths (inp : input) :
  Forall (fun comb => length comb = length (input_images inp))
         (tissue_components inp).
Proof.
  unfold tissue_components. apply Forall_map, Forall_forall.
  intros v _. apply length_map.
Qed.

(** ** The design matrices *)

(** X23.  The design matrices of a run are well formed: every row of the
    field design has one entry per basis term and every row of the balance
    design one entry per tissue, so the matrices [Choleski] builds from them
    are square of the size of the unknowns, and the field design has as
    many rows as the mask has active voxels when the mask fits on the
    grid. *)
Theorem design_matrices_are_well_formed (inp : input) (st : state) :
  Forall (fun r => length r = cols (field_design (problem_of inp) st))
         (rows_of (field_design (problem_of inp) st)) /\
  Forall (fun r => length r = cols (balance_design (problem_of inp) st))
         (rows_of (balance_design (problem_of inp) st)) /\
  cols (gram (field_design (problem_of inp) st))
  = GetBasisVecs (get_option_value (order inp) 3%Z) /\
  cols (gram (balance_design (problem_of inp) st)) = length (input_images inp) /\
  ((length (mask st) <= grid_size (problem_of inp))%nat ->
   length (rows_of (field_design (problem_of inp) st)) = count_true (mask st)).
Proof.
  split; [|split; [|split; [|split]]].
  - unfold field_design. cbn [rows_of cols].
    apply masked_Forall, Forall_map, Forall_forall. intros v _.
    apply basis_lengths.
  - unfold balance_design. cbn [rows_of cols].
    apply masked_Forall, Forall_map, Forall_forall. intros [comb f] Hin.
    apply in_combine_l in Hin. cbn [fst snd]. rewrite length_map.
    pose proof (components_lengths inp) as Hc.
    rewrite Forall_forall in Hc. exact (Hc comb Hin).
  - reflexivity.
  - reflexivity.
  - intros Hlen. unfold field_design. cbn [rows_of].
    apply masked_length. now rewrite length_map, length_seq.
Qed.

Lemma design_matrices_are_well_formed_witness :
  length (rows_of (field_design (problem_of example_input)
                                (initial_state example_input))) = 3%nat.
Proof.
  apply (design_matrices_are_well_formed example_input
           (initial_state example_input)).
  vm_compute. lia.
Defined.

(** ** The functor SummedLog *)

Lemma fold_left_map_seq {A B C : Type} (f : A -> C -> A) (g : B -> C)
    (l : list B) :
  forall a, fold_left f (map g l) a = fold_left (fun a x => f a (g x)) l a.
Proof. induction l as [|x l IH]; intros a; simpl; [reflexivity | apply IH]. Qed.

Lemma indexed_weighted_sum (factors : VectorXd) (field : R) :
  forall comb acc,
    length factors = length comb ->
    fold_left (fun s j => s + nth j factors 0 * nth j comb 0 / field)
              (seq 0 (length factors)) acc
    = acc + weighted_sum factors comb field.
Proof.
  induction factors as [|b factors IH]; intros [|c comb] acc Hlen;
    try discriminate Hlen.
  - unfold weighted_sum. simpl. lra.
  - injection Hlen as Hlen. cbn [length seq fold_left nth].
    rewrite <- seq_shift, fold_left_map_seq.
    change (fold_left (fun a x => a + nth (S x) (b :: factors) 0
                                      * nth (S x) (c :: comb) 0 / field))
      with (fold_left (fun a x => a + nth x factors 0 * nth x comb 0 / field)).
    rewrite (IH comb _ Hlen), weighted_sum_cons. lra.
Qed.

(** X24.  The functor [SummedLog] adds the weighted tissue sum to the value
    the image already holds and then takes the logarithm: on an image that
    holds zero it gives the statistic that the rejection pass computes, and
    on any other image it does not. *)
Theorem SummedLog_adds_to_the_image
    (factors : VectorXd) (prev field : R) (comb : list R) :
  length factors = length comb ->
  SummedLog (length factors) factors prev comb field
  = ln (prev + weighted_sum factors comb field) /\
  SummedLog (length factors) factors 0 comb field
  = ln (weighted_sum factors comb field).
Proof.
  intros Hlen. unfold SummedLog. rewrite !indexed_weighted_sum by exact Hlen.
  split; [reflexivity | f_equal; lra].
Qed.

Lemma SummedLog_adds_to_the_image_witness :
  SummedLog 2 [1; 1] 5 [2; 3] 1 = ln (5 + weighted_sum [1; 1] [2; 3] 1).
Proof.
  apply (SummedLog_adds_to_the_image [1; 1] 5 1 [2; 3]). reflexivity.
Defined.

(** ** How a run can end *)

Section NeverUndefined.

Variable llt_solve : MatrixXd -> VectorXd -> VectorXd.
Variable nth_element : nat -> nat -> list R -> list R.
Hypothesis nth_element_ok : nth_element_postcondition nth_element.
Variable P : problem.
Hypothesis enough : (3 <= count_true (initial_mask P))%nat.

Lemma balance_estimation_on_grid (st st' : state) :
  on_grid P st -> balance_estimation llt_solve P st = Ok st' -> on_grid P st'.
Proof.
  intros [Hm Hf] H.
  apply balance_estimation_frame in H as (_ & _ & _ & _ & _ & Hi).
  split; [exact Hm | congruence].
Qed.

Lemma balance_estimation_defined (st : state) :
  balance_estimation llt_solve P st <> Undefined.
Proof.
  unfold balance_estimation.
  destruct (check_factors 0 _ 0) as [L|e|] eqn:E; simpl; try discriminate.
  exfalso. revert E. generalize 0%nat, 0.
  induction (Choleski llt_solve _ _) as [|b l IH]; intros j acc H; simpl in H.
  - discriminate.
  - destruct (Rleb b 0); [discriminate | eauto].
Qed.

Lemma balance_pass_defined (k : nat) (st : state) :
  on_grid P st ->
  balance_pass llt_solve nth_element P k st <> Undefined /\
  forall st' c,
    balance_pass llt_solve nth_element P k st = Ok (st', c) -> on_grid P st'.
Proof.
  intros Hg. unfold balance_pass.
  set (st0 := emit (DEBUG_balance_starts k) st).
  assert (Hg0 : on_grid P st0) by exact Hg.
  assert (Hfirst : forall m,
             m = (if (1 <? n_tissue_types P)%nat
                  then balance_estimation llt_solve P st0 else Ok st0) ->
             m <> Undefined /\ forall st1, m = Ok st1 -> on_grid P st1).
  { intros m ->. destruct (1 <? n_tissue_types P)%nat.
    - split; [apply balance_estimation_defined|].
      intros st1. now apply balance_estimation_on_grid.
    - split; [discriminate|]. intros st1 H. now injection H as <-. }
  destruct (Hfirst _ eq_refl) as [Hd Hok].
  destruct (if (1 <? n_tissue_types P)%nat
            then balance_estimation llt_solve P st0 else Ok st0)
    as [st1|e|]; [|split; [discriminate|intros ? ? H; discriminate H]
                  |now contradiction Hd].
  specialize (Hok st1 eq_refl). cbn [bind].
  set (st1' := emit (INFO_Balance_factors k (balance_factors st1)) st1).
  assert (Hg1 : on_grid P st1') by exact Hok.
  destruct (outlier_rejection_defined nth_element nth_element_ok P (15 / 10)
              st1' Hg1 enough) as (st2 & -> & Hg2).
  cbn [bind]. split; [discriminate|].
  intros st' c H. injection H as <- _. exact Hg2.
Qed.

Lemma balance_loop_defined (n : nat) :
  forall k st,
    on_grid P st ->
    balance_loop llt_solve nth_element P n k st <> Undefined /\
    forall st',
      balance_loop llt_solve nth_element P n k st = Ok st' -> on_grid P st'.
Proof.
  induction n as [|n IH]; intros k st Hg; simpl.
  - split; [discriminate|]. intros st' H. now injection H as <-.
  - destruct (balance_pass_defined k st Hg) as [Hd Hok].
    destruct (balance_pass llt_solve nth_element P k st) as [[st1 c]|e|];
      [|split; [discriminate|intros ? H; discriminate H]|now contradiction Hd].
    specialize (Hok st1 c eq_refl). simpl. destruct c.
    + split; [discriminate|]. intros st' H. now injection H as <-.
    + now apply IH.
Qed.

Lemma main_loop_defined (n : nat) :
  forall i st,
    on_grid P st -> main_loop llt_solve nth_element P n i st <> Undefined.
Proof.
  induction n as [|n IH]; intros i st Hg; cbn [main_loop]; [discriminate|].
  destruct (balance_loop_defined max_balance_iter 1
              (emit (INFO_Iteration i) st) Hg) as [Hd Hok].
  destruct (balance_loop llt_solve nth_element P max_balance_iter 1 _)
    as [st1|e|]; [|discriminate|now contradiction Hd].
  cbn [bind]. apply IH.
  exact (field_fit_on_grid llt_solve P st1 (Hok st1 eq_refl)).
Qed.

End NeverUndefined.

(** X25.  How a run ends is decided by the size of the initial mask and the
    sign of the balance factors alone.  With three voxels or more in the
    initial mask no dereference is out of range at any pass; the run is
    undefined exactly when the initial mask has one or two voxels; it throws
    the empty-mask message exactly when the initial mask is empty; and a
    single-tissue run on three voxels or more always completes. *)
Theorem run_outcome
    (llt_solve : MatrixXd -> VectorXd -> VectorXd)
    (nth_element : nat -> nat -> list R -> list R) (inp : input) :
  nth_element_postcondition nth_element ->
  (run llt_solve nth_element inp = Undefined <->
   (1 <= count_true (refined_mask inp) <= 2)%nat) /\
  (run llt_solve nth_element inp = Throw [Lit "Mask contains no valid voxels."]
   <-> count_true (refined_mask inp) = 0%nat) /\
  ((3 <= count_true (refined_mask inp))%nat ->
   (length (input_images inp) <= 1)%nat ->
   exists out, run llt_solve nth_element inp = Ok out).
Proof.
  intros Hne. split; [|split].
  - unfold run.
    destruct (Nat.eqb_spec (count_true (refined_mask inp)) 0) as [E|E];
      [split; [discriminate | lia]|].
    destruct (Nat.lt_ge_cases (count_true (refined_mask inp)) 3) as [Hlt|Hge].
    + unfold iterate.
      rewrite (outlier_rejection_too_few nth_element Hne (problem_of inp) 3
                 (initial_state inp) (initial_state_on_grid inp) Hlt).
      split; [lia | reflexivity].
    + split; [|lia]. intros H. exfalso.
      unfold iterate in H.
      destruct (outlier_rejection_defined nth_element Hne (problem_of inp) 3
                  (initial_state inp) (initial_state_on_grid inp) Hge)
        as (st1 & E1 & Hg1).
      rewrite E1 in H. cbn [bind] in H.
      pose proof (main_loop_defined llt_solve nth_element Hne (problem_of inp)
                    Hge (max_iter (problem_of inp)) 1
                    (set_prev_mask (mask st1) st1) Hg1) as Hd.
      destruct (main_loop llt_solve nth_element (problem_of inp) _ _ _);
        [discriminate H | discriminate H | now apply Hd].
  - unfold run.
    destruct (Nat.eqb_spec (count_true (refined_mask inp)) 0) as [E|E];
      [split; [intros _; exact E | reflexivity]|].
    split; [|contradiction]. intros H. exfalso.
    apply bind_Throw in H as [H|(? & _ & H)]; [|discriminate].
    unfold iterate in H. apply bind_Throw in H as [H|(? & _ & H)].
    + now apply outlier_rejection_no_throw in H.
    + apply main_loop_Throw in H as (i & b & _ & Hm). discriminate Hm.
  - intros HN HT. now apply run_single_tissue_completes.
Qed.

Lemma run_outcome_witness :
  exists out, run echo_solve nth_element_by_sorting example_input = Ok out.
Proof.
  apply (run_outcome echo_solve nth_element_by_sorting example_input
           nth_element_by_sorting_correct).
  - vm_compute. lia.
  - simpl. lia.
Defined.

(** ** The statistic of the rejection pass and the target of the field fit *)

Lemma weighted_sum_is_quotient (factors : VectorXd) :
  forall comb field,
    weighted_sum factors comb field = tissue_sum factors comb / field.
Proof.
  induction factors as [|b factors IH]; intros [|c comb] field;
    try (unfold weighted_sum, tissue_sum; simpl; lra).
  rewrite weighted_sum_cons, tissue_sum_cons, IH. lra.
Qed.

(** X26.  The rejection pass judges the residual of the field fit: at a voxel
    where the weighted tissue sum is positive and the field image is the
    exponential of the log field, the statistic [summed_log] is the
    logarithm of the weighted tissue sum minus the log field.  The target of
    the field fit is that logarithm minus the log of the reference value, so
    the statistic is the target minus the current fit, up to that
    constant. *)
Theorem rejection_statistic_is_fit_residual
    (P : problem) (st : state) (v : nat) (comb : list R) (l : R) :
  norm_field_image st = map exp (norm_field_log st) ->
  nth_error (combined_tissue P) v = Some comb ->
  nth_error (norm_field_log st) v = Some l ->
  0 < tissue_sum (balance_factors st) comb ->
  nth_error (summed_log_image P st) v
  = Some (ln (tissue_sum (balance_factors st) comb) - l).
Proof.
  intros Hexp Hc Hl Hpos. unfold summed_log_image.
  rewrite nth_error_map.
  assert (E : nth_error (combine (combined_tissue P) (norm_field_image st)) v
              = Some (comb, exp l)).
  { apply nth_error_combine. split; [exact Hc|].
    rewrite Hexp, nth_error_map, Hl. reflexivity. }
  rewrite E. cbn [option_map fst snd]. f_equal.
  rewrite weighted_sum_is_quotient. unfold Rdiv.
  rewrite ln_mult; [|exact Hpos|apply Rinv_0_lt_compat, exp_pos].
  rewrite ln_Rinv by apply exp_pos. rewrite ln_exp. lra.
Qed.

Lemma rejection_statistic_is_fit_residual_witness :
  nth_error (summed_log_image two_tissue_problem two_tissue_state) 0
  = Some (ln (tissue_sum [1; 1] [1; 1]) - 0).
Proof.
  apply (rejection_statistic_is_fit_residual two_tissue_problem
           two_tissue_state 0 [1; 1] 0).
  - simpl. now rewrite exp_0.
  - reflexivity.
  - reflexivity.
  - unfold tissue_sum. simpl. lra.
Defined.

(** ** A run without iterations *)

(** X27.  With [-niter 0] a run that completes has done the first rejection
    pass and nothing else: the field is 1 everywhere, every balance factor
    is 1, and each output image is the input image with the rows whose
    first volume is negative set to zero, with or without [-balanced]. *)
Theorem zero_iterations_leave_the_input
    (llt_solve : MatrixXd -> VectorXd -> VectorXd)
    (nth_element : nat -> nat -> list R -> list R)
    (inp : input) (out : output) :
  niter inp = Some 0%nat ->
  run llt_solve nth_element inp = Ok out ->
  trace (final out) = [Outlier_rejection 3] /\
  norm_field_image (final out)
  = repeat 1 (length (nth 0%nat (input_images inp) [])) /\
  balance_factors (final out) = repeat 1 (length (input_images inp)) /\
  forall j image,
    nth_error (input_images inp) j = Some image ->
    nth_error (output_images out) j
    = Some (map (fun p => ReadInOutput 1 (fst p) (snd p))
                (combine image
                         (repeat 1 (length (nth 0%nat (input_images inp) []))))).
Proof.
  intros Hn Hrun. apply run_Ok_iterate in Hrun as [Hit Hout].
  unfold iterate in Hit. apply bind_Ok in Hit as (st1 & H1 & Hloop).
  change (max_iter (problem_of inp))
    with (get_option_value (niter inp) DEFAULT_MAIN_ITER_VALUE) in Hloop.
  rewrite Hn in Hloop. cbn [get_option_value main_loop] in Hloop.
  injection Hloop as Hfinal.
  apply outlier_rejection_frame in H1 as (Ht & _ & Hb & _ & Hi).
  assert (Hfield : norm_field_image (final out)
                   = repeat 1 (length (nth 0%nat (input_images inp) []))).
  { rewrite <- Hfinal. cbn [norm_field_image set_prev_mask]. now rewrite Hi. }
  assert (Hfactors : balance_factors (final out)
                     = repeat 1 (length (input_images inp))).
  { rewrite <- Hfinal. cbn [balance_factors set_prev_mask]. now rewrite Hb. }
  split; [rewrite <- Hfinal; cbn [trace set_prev_mask]; now rewrite Ht|].
  split; [exact Hfield|]. split; [exact Hfactors|].
  intros j image Hj.
  assert (Hlt : (j < length (input_images inp))%nat)
    by (apply nth_error_Some; rewrite Hj; discriminate).
  rewrite Hout. unfold write_outputs. cbn [output_images].
  rewrite nth_error_map.
  rewrite (nth_error_nth' (seq 0 _) 0%nat) by (now rewrite length_seq).
  rewrite seq_nth by exact Hlt. cbn [option_map Nat.add].
  rewrite (nth_error_nth _ _ [] Hj), Hfield, Hfactors.
  assert (Hm : (if output_balanced inp
                then nth j (repeat 1 (length (input_images inp))) 0 else 1) = 1).
  { destruct (output_balanced inp); [|reflexivity].
    apply (repeat_spec (length (input_images inp)) 1). apply nth_In.
    now rewrite repeat_length. }
  now rewrite Hm.
Qed.

Lemma zero_iterations_leave_the_input_witness :
  exists out,
    run echo_solve nth_element_by_sorting zero_iteration_input = Ok out /\
    norm_field_image (final out) = [1; 1; 1].
Proof.
  destruct (run_single_tissue_completes echo_solve nth_element_by_sorting
              zero_iteration_input nth_element_by_sorting_correct)
    as [out Hrun].
  - simpl. lia.
  - vm_compute. lia.
  - exists out. split; [exact Hrun|].
    exact (proj1 (proj2 (zero_iterations_leave_the_input echo_solve
                           nth_element_by_sorting zero_iteration_input out
                           eq_refl Hrun))).
Defined.
